(** * quantulum: the extraction pipeline of [parser.py], embedded in Rocq

    The development follows [quantulum/parser.py] function by function.
    Python strings are lists of code points, Python integers are [Z],
    exceptions are an explicit result type, and the collaborators that the
    parser imports (the grammar tables of [regex], the knowledge base of
    [load], the classifier [clf], the [re] engine and float arithmetic) are
    the fields of one environment record. *)

From Stdlib Require Import ZArith List Ascii String Lia Bool Sorted.
From Stdlib Require PrimFloat Uint63.
From stdpp Require Import base option list gmap.

Local Open Scope Z_scope.

(** ** Python strings *)

(** A character is a Unicode code point, a [str] is a sequence of them. *)
Definition char := N.
Definition str := list char.

(** [py "abc"] is the [str] of an ASCII literal of the source. *)
Definition py (s : string) : str := map N_of_ascii (list_ascii_of_string s).

(** [len(s)] *)
Definition len {A} (s : list A) : Z := Z.of_nat (length s).

(** The bound of a slice: a negative index counts from the end, and every
    index is clamped to [0, len(s)]. *)
Definition clamp (n i : Z) : Z :=
  if i <? 0 then Z.max 0 (i + n) else Z.min i n.

(** [s[i:j]] *)
Definition slice {A} (s : list A) (i j : Z) : list A :=
  let lo := clamp (len s) i in
  let hi := clamp (len s) j in
  take (Z.to_nat (hi - lo)) (drop (Z.to_nat lo) s).

(** [s[i:]] *)
Definition slice_from {A} (s : list A) (i : Z) : list A :=
  drop (Z.to_nat (clamp (len s) i)) s.

(** [s[:j]], which the source also writes [s[0:j]] *)
Definition slice_to {A} (s : list A) (j : Z) : list A := slice s 0 j.

(** [s.startswith(w)] *)
Fixpoint startswith (s w : str) : bool :=
  match w, s with
  | [], _ => true
  | _ :: _, [] => false
  | c :: w', d :: s' => (c =? d)%N && startswith s' w'
  end.

(** [s.endswith(w)] *)
Definition endswith (s w : str) : bool := startswith (rev s) (rev w).

(** [s == t] *)
Fixpoint str_eqb (s t : str) : bool :=
  match s, t with
  | [], [] => true
  | c :: s', d :: t' => (c =? d)%N && str_eqb s' t'
  | _, _ => false
  end.

(** [s in l] for a list of strings *)
Definition str_in (s : str) (l : list str) : bool := existsb (str_eqb s) l.

(** [w in s] for strings: [w] occurs in [s] as a substring. *)
Fixpoint contains (s w : str) : bool :=
  startswith s w ||
  match s with
  | [] => false
  | _ :: s' => contains s' w
  end.

(** [s.find(w)]: the lowest index of an occurrence, or -1. *)
Fixpoint find_from (s w : str) (i : Z) : Z :=
  if startswith s w then i
  else match s with
       | [] => -1
       | _ :: s' => find_from s' w (i + 1)
       end.
Definition str_find (s w : str) : Z := find_from s w 0.

(** [s.replace(a, b)] for single characters [a] and [b] *)
Definition replace_char (a b : char) (s : str) : str :=
  map (fun c => if (c =? a)%N then b else c) s.

(** Code points of the characters the source names. *)
Definition SPACE : char := 32%N.
Definition HYPHEN : char := 45%N.

(** Whitespace of [str.split()] and [str.strip()]: the characters for which
    [str.isspace] holds. *)
Definition is_space (c : char) : bool :=
  ((9 <=? c) && (c <=? 13) || (28 <=? c) && (c <=? 32)
   || (c =? 133) || (c =? 160) || (c =? 5760)
   || (8192 <=? c) && (c <=? 8202) || (c =? 8232) || (c =? 8233)
   || (c =? 8239) || (c =? 8287) || (c =? 12288))%N.

(** [s.split()]: the maximal runs of non-whitespace characters. *)
Fixpoint split_ws_aux (s : str) (cur : str) : list str :=
  match s with
  | [] => match cur with [] => [] | _ => [rev cur] end
  | c :: s' =>
      if is_space c
      then match cur with
           | [] => split_ws_aux s' []
           | _ => rev cur :: split_ws_aux s' []
           end
      else split_ws_aux s' (c :: cur)
  end.
Definition split_ws (s : str) : list str := split_ws_aux s [].

(** [s.split(sep)] for a non-empty separator: cut at every occurrence found
    scanning left to right; the result always has at least one piece. *)
Fixpoint split_sep_go (sep : str) (s : str) (skip : nat) (cur : str)
  : list str :=
  match s with
  | [] => [rev cur]
  | c :: s' =>
      match skip with
      | S k => split_sep_go sep s' k cur
      | O =>
          if startswith s sep
          then rev cur :: split_sep_go sep s' (Nat.pred (length sep)) []
          else split_sep_go sep s' O (c :: cur)
      end
  end.
Definition split_sep (s sep : str) : list str := split_sep_go sep s O [].

(** [' '.join(l)] for the separator of the source, one space. *)
Fixpoint join_space (l : list str) : str :=
  match l with
  | [] => []
  | [x] => x
  | x :: l' => x ++ SPACE :: join_space l'
  end.

(** [s.lower()], on the code points below U+0100: A to Z and the Latin-1
    capitals move 32 up; the multiplication sign and everything else stay. *)
Definition lower_char (c : char) : char :=
  if ((65 <=? c) && (c <=? 90)
      || (192 <=? c) && (c <=? 222) && negb (c =? 215))%N
  then (c + 32)%N else c.
Definition lower (s : str) : str := map lower_char s.

(** ** Exceptions *)

Inductive exn :=
| ValueError | KeyError | IndexError | UnboundLocalError
| ZeroDivisionError | TypeError.

Inductive res (A : Type) :=
| Ok (a : A)
| Raise (e : exn).
Arguments Ok {A} a.
Arguments Raise {A} e.

#[global] Instance res_ret : MRet res := fun A a => Ok a.
#[global] Instance res_bind : MBind res := fun A B k r =>
  match r with
  | Ok a => k a
  | Raise e => Raise e
  end.

(** [d[k]] on a table: a missing key raises [KeyError]. *)
Definition getitem {A} (o : option A) : res A :=
  match o with
  | Some a => Ok a
  | None => Raise KeyError
  end.

(** [l[0]], [l[1]] and [l[-1]] on a list: out of range raises
    [IndexError]. *)
Definition index0 {A} (l : list A) : res A :=
  match l with
  | a :: _ => Ok a
  | [] => Raise IndexError
  end.
Definition index1 {A} (l : list A) : res A :=
  match l with
  | _ :: a :: _ => Ok a
  | _ => Raise IndexError
  end.
Definition index_last {A} (l : list A) : res A :=
  match last l with
  | Some a => Ok a
  | None => Raise IndexError
  end.

(** A [for] loop whose body may raise: the state is threaded left to right
    and the first exception leaves the loop. *)
Fixpoint for_each {A S} (body : S -> A -> res S) (l : list A) (s : S)
  : res S :=
  match l with
  | [] => Ok s
  | a :: l' => s' ← body s a; for_each body l' s'
  end.

(** A list comprehension whose element expression may raise. *)
Fixpoint map_res {A B} (f : A -> res B) (l : list A) : res (list B) :=
  match l with
  | [] => Ok []
  | a :: l' => b ← f a; bs ← map_res f l'; Ok (b :: bs)
  end.

(** ** Data model ([classes.py]) *)

(** One term of a dimension list: [{'base': ..., 'power': ...}]. *)
Record Dim := { base : str; power : Z }.

Record Entity := {
  e_name : str;
  e_dimensions : list Dim;
  e_uri : option str
}.

Record Unit := {
  u_name : str;
  u_surfaces : option (list str);
  u_entity : Entity;
  u_uri : option str;
  u_symbols : option (list str);
  u_dimensions : list Dim
}.

(** A span is a pair of offsets [(start, end)]. *)
Definition Span : Type := Z * Z.

(** A match object of [re]: [m_groups] holds group 0 (the whole match) and
    the capture groups after it, [None] for a group that did not take part. *)
Record Match := {
  m_groups : list (option str);
  m_span : Span
}.

(** [item.group(i)] *)
Definition group (m : Match) (i : nat) : option str := mjoin (m_groups m !! i).

(** Truth value of [item.group(i)]: [None] and the empty string are false. *)
Definition truthy (o : option str) : bool :=
  match o with
  | Some (_ :: _) => true
  | _ => false
  end.

(** [item.group(i)] as a string, where the group took part in the match. *)
Definition group_str (m : Match) (i : nat) : str := default [] (group m i).

(** ** The collaborators

    Everything [parser.py] imports and does not define: float arithmetic and
    number formatting, the grammar tables and compiled patterns of [regex],
    the knowledge base of [load], the classifier [clf], and the results of
    the [re] calls on the patterns written in [parser.py]. *)
Record Env := {
  (** floats: the type, [0.0], [+], [*], an int operand of float arithmetic,
      [float(s)] (which raises [ValueError] on a malformed string),
      [float(Fraction(s))], [int(s)], [str(x)], and ['%g' % x] on a float
      and on an int *)
  pyfloat : Type;
  fzero : pyfloat;
  fadd : pyfloat -> pyfloat -> pyfloat;
  fmul : pyfloat -> pyfloat -> pyfloat;
  float_of_int : Z -> pyfloat;
  py_float : str -> res pyfloat;
  py_fraction : str -> res pyfloat;
  py_int : str -> res Z;
  str_float : pyfloat -> str;
  fmt_g_float : pyfloat -> str;
  fmt_g_int : Z -> str;

  (** [regex]: the tables; [NUMWORDS] maps a word to (scale, increment) *)
  r_UNITS : list str;
  r_TENS : list str;
  r_SCALES : list str;
  r_NUMWORDS : str -> option (Z * Z);
  r_UNI_SUPER : str -> option str;
  r_SUFFIXES : str -> option pyfloat;
  (** [regex]: [finditer] of the compiled patterns [REG_TXT] and [REG_DIM] *)
  REG_TXT_finditer : str -> list Match;
  REG_DIM_finditer : str -> list Match;

  (** [extract_spellout_values]: finditer of [\d+(,\d{3})+] *)
  re_comma_number : str -> list Match;
  (** [get_values]: sub of [(?<=\d)(MULTIPLIERS)10] by [e]; sub of the
      [UNI_FRAC] glyphs by [callback]; findall of
      [\d+ ?(-|and|(?:- ?)?to) ?\d], of [\d+ ?(\+/-|±) ?\d] and of
      [\d+/\d+] *)
  sub_multiplier : str -> str;
  sub_fracs : str -> str;
  re_range_separator : str -> list str;
  re_uncer_separator : str -> list str;
  re_fract_separator : str -> list str;
  (** [parse_unit]: findall of [\-?[0-9SUPERSCRIPTS]+] and sub of
      [\^?\-?[0-9SUPERSCRIPTS]+] by the empty string; findall and sub of
      [\bcubed\b] and of [\bsquared\b] *)
  re_power : str -> list str;
  sub_power : str -> str;
  re_cubed : str -> list str;
  sub_cubed : str -> str;
  re_squared : str -> list str;
  sub_squared : str -> str;
  (** [is_quote_artifact]: the spans of finditer of the quoted-span pattern *)
  re_quote_spans : str -> list Span;
  (** [build_quantity]: search of [1st|2nd|3rd|[04-9]th], of
      [\d+[A-Z]+\d+] and of [\ba second\b] ignoring case; findall of
      [\d(K|M|B|T)\b(.*?)$] in the surface; findall of the escaped surface
      followed by [(K|M|B|T)\b] in the original text; match of
      [[1-2]\d\d0s]; search of [ in$] and of [ time$] *)
  re_ordinal : str -> bool;
  re_code : str -> bool;
  re_a_second : str -> bool;
  re_suffix_tail : str -> list (str * str);
  re_suffix_after : str -> str -> list str;
  re_decade : str -> bool;
  re_in_end : str -> bool;
  re_time_end : str -> bool;
  (** [clean_text]: sub of the genitive pattern by two spaces *)
  sub_genitive : str -> str;

  (** [load]: the knowledge base *)
  l_NAMES : str -> option Unit;
  l_UNITS : str -> option (list Unit);
  l_DERIVED_UNI : str -> option Unit;
  l_DERIVED_ENT : str -> option (list Entity);
  get_key_from_dimensions : list Dim -> str;

  (** [clf]: the classifier *)
  USE_CLF : bool;
  disambiguate_entity : str -> str -> res Entity;
  disambiguate_unit : str -> str -> res Unit
}.

(** [Quantity] of [classes.py]; the value type is the environment's float. *)
Record Quantity (E : Env) := {
  q_value : pyfloat E;
  q_unit : Unit;
  q_surface : str;
  q_span : Span;
  q_uncertainty : option (pyfloat E)
}.
Arguments q_value {E} _.
Arguments q_unit {E} _.
Arguments q_surface {E} _.
Arguments q_span {E} _.
Arguments q_uncertainty {E} _.

(** One record of [extract_spellout_values]:
    [{'old_surface': ..., 'old_span': ..., 'new_surface': ...}]. *)
Record Replacement := {
  old_surface : str;
  old_span : Span;
  new_surface : str
}.

(** [sorted(l, key=...)]: a stable insertion sort, for the order [leb] of
    the keys. *)
Fixpoint insert_by {A K} (leb : K -> K -> bool) (key : A -> K) (x : A)
  (l : list A) : list A :=
  match l with
  | [] => [x]
  | y :: l' =>
      if leb (key x) (key y) then x :: l else y :: insert_by leb key x l'
  end.
Definition sorted_by {A K} (leb : K -> K -> bool) (key : A -> K) (l : list A)
  : list A :=
  foldr (insert_by leb key) [] l.

(** [s <= t] on strings: lexicographic on the code points. *)
Fixpoint str_leb (s t : str) : bool :=
  match s, t with
  | [], _ => true
  | _ :: _, [] => false
  | c :: s', d :: t' => (c <? d)%N || ((c =? d)%N && str_leb s' t')
  end.

(** [s.strip()] *)
Fixpoint lstrip (s : str) : str :=
  match s with
  | c :: s' => if is_space c then lstrip s' else s
  | [] => []
  end.
Definition strip (s : str) : str := rev (lstrip (rev (lstrip s))).

(** [s.split(sep)], which raises [ValueError] on an empty separator. *)
Definition py_split (s sep : str) : res (list str) :=
  match sep with
  | [] => Raise ValueError
  | _ => Ok (split_sep s sep)
  end.

(** [re.sub(' +', ' ', s)]: every run of spaces becomes one space. *)
Fixpoint collapse_spaces (s : str) : str :=
  match s with
  | c :: s' =>
      if (c =? SPACE)%N
      then match s' with
           | d :: _ => if (d =? SPACE)%N then collapse_spaces s'
                       else c :: collapse_spaces s'
           | [] => [c]
           end
      else c :: collapse_spaces s'
  | [] => []
  end.

(** [re.sub(r'-$', '', s)]: [$] is the end of the string or the position
    before a final newline. *)
Definition sub_dangling_hyphen (s : str) : str :=
  match rev s with
  | 45%N :: r => rev r
  | 10%N :: 45%N :: r => rev (10%N :: r)
  | _ => s
  end.

(** [range(a, b)] *)
Definition range (a b : Z) : list Z := seqZ a (b - a).

(** ** [substitute_values] *)

(** The three locals of the loop: [shift], [final_text] and the table
    [shifts], a [defaultdict(int)]. *)
Record SubstState := {
  shift : Z;
  final_text : str;
  shifts : gmap Z Z
}.

(** [shifts[c]] on the [defaultdict(int)]: 0 for a key never written. *)
Definition shift_at (m : gmap Z Z) (c : Z) : Z := default 0 (m !! c).

(** [for char in range(a, b): shifts[char] = shift] *)
Definition record_shift (m : gmap Z Z) (a b sh : Z) : gmap Z Z :=
  foldl (fun m c => <[c := sh]> m) m (range a b).

(** The body of [for value in values]. *)
Definition substitute_step (st : SubstState) (value : Replacement)
  : SubstState :=
  let first := fst (old_span value) + shift st in
  let second := snd (old_span value) + shift st in
  let new_s := new_surface value in
  let final_text' :=
    slice (final_text st) 0 first ++ new_s
    ++ slice_from (final_text st) second in
  let shift' := shift st + (len new_s - len (old_surface value)) in
  {| shift := shift';
     final_text := final_text';
     shifts := record_shift (shifts st) (first + 1) (len final_text') shift' |}.

Definition substitute_loop (st : SubstState) (values : list Replacement)
  : SubstState :=
  foldl substitute_step st values.

Definition substitute_values (text : str) (values : list Replacement)
  : str * gmap Z Z :=
  let st := substitute_loop {| shift := 0; final_text := text; shifts := ∅ |}
                            values in
  (final_text st, shifts st).

(** ** [get_surface] *)

(** [while any(surface.endswith(i) for i in [' ', '-'])]: one character and
    one unit of the span end go per round. The loop runs on the reversed
    surface, whose head is the last character. *)
Fixpoint trim_end (rsurface : str) (e : Z) : str * Z :=
  match rsurface with
  | c :: r' =>
      if (c =? SPACE)%N || (c =? HYPHEN)%N then trim_end r' (e - 1)
      else (rsurface, e)
  | [] => ([], e)
  end.

(** [while surface.startswith(' ')] *)
Fixpoint trim_start (surface : str) (s : Z) : str * Z :=
  match surface with
  | c :: s' =>
      if (c =? SPACE)%N then trim_start s' (s + 1) else (surface, s)
  | [] => ([], s)
  end.

(** The span of the match in the text before substitution. *)
Definition real_span (shifts : gmap Z Z) (span : Span) : Span :=
  (fst span - shift_at shifts (fst span),
   snd span - shift_at shifts (snd span - 1)).

Definition get_surface (shifts : gmap Z Z) (orig_text : str) (item : Match)
  : str * Span :=
  let span := m_span item in
  let rspan := real_span shifts span in
  let surface := slice orig_text (fst rspan) (snd rspan) in
  let '(rsurface, e) := trim_end (rev surface) (snd rspan) in
  let '(surface, s) := trim_start (rev rsurface) (fst rspan) in
  (surface, (s, e)).

Section Parser.
Context (E : Env).

(** ** [clean_surface] *)

Definition no_start : list str := [py "and"; py " "].
Definition no_end : list str := [py " and"; py " "].

(** The locals [surface], [span] and [found] of the [while] loop. *)
Definition CleanState : Type := str * Span * bool.

(** [for word in no_start] *)
Definition strip_start (st : CleanState) (word : str) : CleanState :=
  let '(surface, span, found) := st in
  if startswith (lower surface) word
  then (slice_from surface (len word), (fst span + len word, snd span), true)
  else st.

(** [for word in no_end] *)
Definition strip_end (st : CleanState) (word : str) : CleanState :=
  let '(surface, span, found) := st in
  if endswith (lower surface) word
  then (slice_to surface (- len word), (fst span, snd span - len word), true)
  else st.

(** One round of the [while found] loop, entered with [found = False]. *)
Definition clean_round (surface : str) (span : Span) : CleanState :=
  foldl strip_end (foldl strip_start (surface, span, false) no_start) no_end.

(** The [while found] loop. Every round that sets [found] removes at least
    one character, so [S (length surface)] rounds are enough. *)
Fixpoint clean_loop (fuel : nat) (surface : str) (span : Span) : str * Span :=
  match fuel with
  | O => (surface, span)
  | S fuel' =>
      let '(surface', span', found) := clean_round surface span in
      if found then clean_loop fuel' surface' span' else (surface', span')
  end.

(** [clean_surface] returns [(None, None)] for an empty residue. *)
Definition clean_surface (surface : str) (span : Span)
  : res (option (str * Span)) :=
  let surface := replace_char HYPHEN SPACE surface in
  let '(surface, span) := clean_loop (S (length surface)) surface span in
  match surface with
  | [] => Ok None
  | _ =>
      let split := split_ws (lower surface) in
      w0 ← index0 split;
      if str_in w0 [py "one"; py "a"; py "an"]
         && (1 <? len split)
         && match split with
            | _ :: w1 :: _ => str_in w1 (r_UNITS E ++ r_TENS E)
            | _ => false
            end
      then
        first ← index0 (split_ws surface);
        Ok (Some (join_space (slice_from (split_ws surface) 1),
                  (fst span + len first + 1, snd span)))
      else Ok (Some (surface, span))
  end.

(** ** [extract_spellout_values] *)

(** The [try]/[except ValueError] of the inner loop:
    [scale, increment = 1, float(word.lower())], and on [ValueError]
    [scale, increment = r.NUMWORDS[word.lower()]]. *)
Definition scale_increment (word : str) : res (Z * pyfloat E) :=
  match py_float E (lower word) with
  | Ok x => Ok (1, x)
  | Raise ValueError =>
      '(scale, increment) ← getitem (r_NUMWORDS E (lower word));
      Ok (scale, float_of_int E increment)
  | Raise e => Raise e
  end.

(** The body of [for word in surface.split()], on the locals
    [(curr, result)]. *)
Definition spellout_step (st : pyfloat E * pyfloat E) (word : str)
  : res (pyfloat E * pyfloat E) :=
  let '(curr, result) := st in
  '(scale, increment) ← scale_increment word;
  let curr := fadd E (fmul E curr (float_of_int E scale)) increment in
  if 100 <? scale then Ok (fzero E, fadd E result curr)
  else Ok (curr, result).

(** The inner loop and the value [result + curr] it leaves. *)
Definition spellout_value (surface : str) : res (pyfloat E) :=
  '(curr, result) ← for_each spellout_step (split_ws surface)
                             (fzero E, fzero E);
  Ok (fadd E result curr).

(** The body of [for item in r.REG_TXT.finditer(text)]. *)
Definition spellout_item (values : list Replacement) (item : Match)
  : res (list Replacement) :=
  cleaned ← clean_surface (group_str item 0) (m_span item);
  match cleaned with
  | None => Ok values
  | Some (surface, span) =>
      if str_in (lower surface) (r_SCALES E) then Ok values
      else
        v ← spellout_value surface;
        Ok (values ++ [{| old_surface := surface;
                          old_span := span;
                          new_surface := str_float E v |}])
  end.

(** [str.replace(',', '')] *)
Definition remove_commas (s : str) : str :=
  List.filter (fun c => negb (c =? 44)%N) s.

(** The body of the second loop, over the comma-grouped numbers. *)
Definition comma_item (values : list Replacement) (item : Match)
  : list Replacement :=
  values ++ [{| old_surface := group_str item 0;
                old_span := m_span item;
                new_surface := remove_commas (group_str item 0) |}].

Definition extract_spellout_values (text : str) : res (list Replacement) :=
  values ← for_each spellout_item (REG_TXT_finditer E text) [];
  let values := foldl comma_item values (re_comma_number E text) in
  Ok (sorted_by Z.leb (fun x => fst (old_span x)) values).

(** ** [get_values] *)

Definition get_values (item : Match)
  : res (option (pyfloat E) * list (pyfloat E)) :=
  value ← match group item 2 with
           | Some value => Ok value
           | None => Raise TypeError
           end;
  let value := sub_multiplier E value in
  let value := sub_fracs E value in
  let value := collapse_spaces value in
  let range_separator := re_range_separator E value in
  let uncer_separator := re_uncer_separator E value in
  let fract_separator := re_fract_separator E value in
  match range_separator, uncer_separator, fract_separator with
  | sep :: _, _, _ =>
      values ← py_split value sep;
      values ← map_res (fun i => py_float E (sub_dangling_hyphen i)) values;
      Ok (None, values)
  | [], sep :: _, _ =>
      values ← py_split value sep;
      values ← map_res (py_float E) values;
      uncertainty ← index1 values;
      v0 ← index0 values;
      Ok (Some uncertainty, [v0])
  | [], [], _ :: _ =>
      let values := split_ws value in
      if 1 <? len values
      then
        v0 ← index0 values;
        w ← py_float E v0;
        v1 ← index1 values;
        f ← py_fraction E v1;
        Ok (None, [fadd E w f])
      else
        v0 ← index0 values;
        f ← py_fraction E v0;
        Ok (None, [f])
  | [], [], [] =>
      v ← py_float E (sub_dangling_hyphen value);
      Ok (None, [v])
  end.

(** ** [build_unit_name] *)

Definition unit_name_step (name : str) (unit : Dim) : str :=
  let name := if power unit <? 0 then name ++ py "per " else name in
  let p := Z.abs (power unit) in
  let name :=
    if p =? 1 then name ++ base unit
    else if p =? 2 then name ++ (py "square " ++ base unit)
    else if p =? 3 then name ++ (py "cubic " ++ base unit)
    else if 3 <? p then name ++ (base unit ++ py " to the " ++ fmt_g_int E p)
    else name in
  name ++ py " ".

Definition build_unit_name (dimensions : list Dim) : str :=
  strip (foldl unit_name_step [] dimensions).

(** ** [get_entity_from_dimensions] *)

Definition get_entity_from_dimensions (dimensions : list Dim) (text : str)
  : res Entity :=
  new_dimensions ← map_res (fun i =>
      u ← getitem (l_NAMES E (base i));
      Ok {| base := e_name (u_entity u); power := power i |}) dimensions;
  let final_dimensions := sorted_by str_leb base new_dimensions in
  let key := get_key_from_dimensions E final_dimensions in
  let ent :=
    if USE_CLF E then disambiguate_entity E key text
    else (ents ← getitem (l_DERIVED_ENT E key); index0 ents) in
  match ent with
  | Raise IndexError =>
      Ok {| e_name := py "unknown"; e_dimensions := new_dimensions;
            e_uri := None |}
  | r => r
  end.

(** ** [get_unit_from_dimensions] *)

Definition get_unit_from_dimensions (dimensions : list Dim) (text : str)
  : res Unit :=
  let key := get_key_from_dimensions E dimensions in
  match l_DERIVED_UNI E key with
  | Some unit => Ok unit
  | None =>
      let name := build_unit_name dimensions in
      entity ← get_entity_from_dimensions dimensions text;
      Ok {| u_name := name; u_surfaces := None; u_entity := entity;
            u_uri := None; u_symbols := None; u_dimensions := dimensions |}
  end.

(** ** [parse_unit] *)

(** [s.replace('.', '')] *)
Definition remove_dots (s : str) : str :=
  List.filter (fun c => negb (c =? 46)%N) s.

Definition parse_unit (item : Match) (g : nat) (slash : bool) : res (str * Z) :=
  let surface := remove_dots (group_str item g) in
  let power := re_power E surface in
  match power with
  | _ :: _ =>
      let power := map (fun i => default i (r_UNI_SUPER E i)) power in
      let power := concat power in
      n ← py_int E power;
      let new_power := if slash then -1 * n else n in
      Ok (sub_power E surface, new_power)
  | [] =>
      match re_cubed E surface with
      | _ :: _ => Ok (strip (sub_cubed E surface), if slash then -3 else 3)
      | [] =>
          match re_squared E surface with
          | _ :: _ =>
              Ok (strip (sub_squared E surface), if slash then -2 else 2)
          | [] => Ok (surface, if slash then -1 else 1)
          end
      end
  end.

(** ** [get_unit] *)

Definition group_units : list nat := [1; 4; 6; 8; 10]%nat.
Definition group_operators : list nat := [3; 5; 7; 9]%nat.

(** [any(i in s for i in ['/', ' per '])] *)
Definition is_division (s : str) : bool :=
  existsb (contains s) [py "/"; py " per "].

(** The body of [for group in sorted(group_units + group_operators)], on the
    locals [(dimensions, slash)]. *)
Definition unit_step (item : Match) (text : str) (st : list Dim * bool)
  (g : nat) : res (list Dim * bool) :=
  let '(dimensions, slash) := st in
  if negb (truthy (group item g)) then Ok st
  else if existsb (Nat.eqb g) group_units then
    '(surface, power) ← parse_unit item g slash;
    base ← (if USE_CLF E
            then u ← disambiguate_unit E surface text; Ok (u_name u)
            else us ← getitem (l_UNITS E surface);
                 u ← index0 us; Ok (u_name u));
    Ok (dimensions ++ [{| base := base; power := power |}], slash)
  else if negb slash then Ok (dimensions, is_division (group_str item g))
  else Ok st.

Definition get_unit (item : Match) (text : str) : res Unit :=
  let item_units := List.filter truthy (map (group item) group_units) in
  if len item_units =? 0 then getitem (l_NAMES E (py "dimensionless"))
  else
    '(dimensions, slash) ← for_each (unit_step item text)
        (sorted_by Nat.leb id (group_units ++ group_operators)) ([], false);
    get_unit_from_dimensions dimensions text.

(** ** [is_quote_artifact] *)

Definition is_quote_artifact (orig_text : str) (span : Span) : bool :=
  foldl (fun res sp => if snd sp =? snd span then true else res)
        false (re_quote_spans E orig_text).

(** ** [build_quantity] *)

(** The locals that the correction rules rebind. *)
Record Locals := {
  l_values : list (pyfloat E);
  l_unit : Unit;
  l_surface : str;
  l_span : Span
}.

(** The guard of the first branch: the match is discarded. *)
Definition is_discarded (surface : str) : bool :=
  str_in (lower surface) [py "a"; py "an"; py "one"]
  || re_ordinal E surface || re_code E surface || re_a_second E surface.

(** The guard of the second branch. *)
Definition is_currency (unit : Unit) : bool :=
  match e_dimensions (u_entity unit) with
  | d :: _ => str_eqb (base d) (py "currency")
  | [] => false
  end.

(** [[i * r.SUFFIXES[k] for i in values]] *)
Definition scale_values (k : str) (values : list (pyfloat E))
  : res (list (pyfloat E)) :=
  map_res (fun i => m ← getitem (r_SUFFIXES E k); Ok (fmul E i m)) values.

(** The second branch. Only [IndexError] is caught, and what was rebound
    before it was raised stays rebound. *)
Definition currency_rule (orig_text : str) (st : Locals) : res Locals :=
  if 1 <? len (u_dimensions (l_unit st)) then
    match re_suffix_tail E (l_surface st) with
    | [] => Ok st
    | suffix :: _ =>
        values ← scale_values (fst suffix) (l_values st);
        match (d0 ← index0 (u_dimensions (l_unit st));
               us ← getitem (l_UNITS E (base d0)); index0 us) with
        | Raise IndexError =>
            Ok {| l_values := values; l_unit := l_unit st;
                  l_surface := l_surface st; l_span := l_span st |}
        | Raise e => Raise e
        | Ok unit =>
            match snd suffix with
            | [] =>
                Ok {| l_values := values; l_unit := unit;
                      l_surface := l_surface st; l_span := l_span st |}
            | _ :: _ =>
                Ok {| l_values := values; l_unit := unit;
                      l_surface :=
                        slice_to (l_surface st)
                                 (str_find (l_surface st) (snd suffix));
                      l_span := (fst (l_span st),
                                 snd (l_span st) - len (snd suffix)) |}
            end
        end
    end
  else
    match re_suffix_after E (l_surface st) orig_text with
    | [] => Ok st
    | suffix :: _ =>
        values ← scale_values suffix (l_values st);
        Ok {| l_values := values; l_unit := l_unit st;
              l_surface := l_surface st ++ suffix;
              l_span := (fst (l_span st), snd (l_span st) + 1) |}
    end.

(** [surface = surface[:-n]; span = (span[0], span[1] - n)] with a new unit. *)
Definition trimmed (st : Locals) (unit : Unit) (n : Z) : Locals :=
  {| l_values := l_values st; l_unit := unit;
     l_surface := slice_to (l_surface st) (- n);
     l_span := (fst (l_span st), snd (l_span st) - n) |}.

(** The unit of the inch and quote branches: the dimensions without the
    last one, or dimensionless. *)
Definition demoted_unit (orig_text : str) (unit : Unit) : res Unit :=
  if 1 <? len (u_dimensions unit)
  then get_unit_from_dimensions (slice_to (u_dimensions unit) (-1)) orig_text
  else getitem (l_NAMES E (py "dimensionless")).

(** The guard of the inch branch; [unit.dimensions[-1]] raises on an empty
    list. *)
Definition is_inch_preposition (st : Locals) : res bool :=
  d ← index_last (u_dimensions (l_unit st));
  Ok (str_eqb (base d) (py "inch") && re_in_end E (l_surface st)
      && negb (contains (l_surface st) (py "/"))).

(** The guard of the last branch. *)
Definition is_time_count (st : Locals) : res bool :=
  if re_time_end E (l_surface st) && (1 <? len (u_dimensions (l_unit st)))
  then d ← index_last (u_dimensions (l_unit st));
       Ok (str_eqb (base d) (py "count"))
  else Ok false.

(** The [if]/[elif] chain; [None] is the bare [return] of the first
    branch. *)
Definition correct (orig_text text : str) (item : Match) (st : Locals)
  : res (option Locals) :=
  if is_discarded (l_surface st) then Ok None
  else if is_currency (l_unit st) then
    st' ← currency_rule orig_text st; Ok (Some st')
  else if re_decade E (l_surface st) then
    unit ← getitem (l_NAMES E (py "dimensionless"));
    Ok (Some (trimmed st unit 1))
  else
    inch ← is_inch_preposition st;
    if inch : bool then
      unit ← demoted_unit orig_text (l_unit st);
      Ok (Some (trimmed st unit 3))
    else if is_quote_artifact text (m_span item) then
      unit ← demoted_unit orig_text (l_unit st);
      Ok (Some (trimmed st unit 1))
    else
      time ← is_time_count st;
      if time : bool then
        unit ← get_unit_from_dimensions
                 (slice_to (u_dimensions (l_unit st)) (-1)) orig_text;
        Ok (Some (trimmed st unit 5))
      else Ok (Some st).

(** [for value in values: objs.append(c.Quantity(...))] *)
Definition emit (st : Locals) (uncert : option (pyfloat E))
  : list (Quantity E) :=
  foldl (fun objs value =>
           objs ++ [{| q_value := value; q_unit := l_unit st;
                       q_surface := l_surface st; q_span := l_span st;
                       q_uncertainty := uncert |}])
        [] (l_values st).

Definition build_quantity (orig_text text : str) (item : Match)
  (values : list (pyfloat E)) (unit : Unit) (surface : str) (span : Span)
  (uncert : option (pyfloat E)) : res (option (list (Quantity E))) :=
  st ← correct orig_text text item
         {| l_values := values; l_unit := unit;
            l_surface := surface; l_span := span |};
  match st with
  | None => Ok None
  | Some st => Ok (Some (emit st uncert))
  end.

(** ** [clean_text] *)

(** The three replacements of [maps]: the multiplication sign becomes [x],
    the en dash and the minus sign become [-]. *)
Definition clean_text (text : str) : str :=
  let text := replace_char 215%N 120%N text in
  let text := replace_char 8211%N 45%N text in
  let text := replace_char 8722%N 45%N text in
  sub_genitive E text.

(** ** [parse] *)

(** The locals of the loop of [parse]: the list [quantities], and what the
    tuple assignment [uncert, values = get_values(item)] last bound. Before
    the first successful assignment [uncert] is unbound ([None] here). *)
Definition ParseState : Type :=
  list (Quantity E) * option (option (pyfloat E) * list (pyfloat E)).

(** The body of [for item in r.REG_DIM.finditer(text)]. *)
Definition parse_item (orig_text text : str) (shifts : gmap Z Z)
  (st : ParseState) (item : Match) : res ParseState :=
  let '(quantities, bound) := st in
  bound ← match get_values item with
           | Ok uv => Ok (Some uv)
           | Raise ValueError => Ok bound
           | Raise e => Raise e
           end;
  unit ← get_unit item text;
  let '(surface, span) := get_surface shifts orig_text item in
  match bound with
  | None => Raise UnboundLocalError
  | Some (uncert, values) =>
      objs ← build_quantity orig_text text item values unit surface span
                            uncert;
      match objs with
      | None => Ok (quantities, bound)
      | Some objs => Ok (quantities ++ objs, bound)
      end
  end.

Definition parse (text : str) : res (list (Quantity E)) :=
  let orig_text := text in
  let text := clean_text text in
  values ← extract_spellout_values text;
  let '(text, shifts) := substitute_values text values in
  '(quantities, _) ← for_each (parse_item orig_text text shifts)
                              (REG_DIM_finditer E text) ([], None);
  Ok quantities.

(** ** [inline_parse] *)

(** [str(quantity)], the [__repr__] of [Quantity]. *)
Definition quantity_repr (q : Quantity E) : str :=
  py "Quantity(" ++ fmt_g_float E (q_value q) ++ py ", " ++ [34%N]
  ++ u_name (q_unit q) ++ [34%N] ++ py ")".

(** [to_add = ' {' + str(quantity) + '}'] *)
Definition to_add (quantity : Quantity E) : str :=
  py " {" ++ quantity_repr quantity ++ py "}".

(** The body of [for quantity in parsed], on the locals [(text, shift)]. *)
Definition inline_step (st : str * Z) (quantity : Quantity E) : str * Z :=
  let '(text, shift) := st in
  let index := snd (q_span quantity) + shift in
  (slice text 0 index ++ to_add quantity ++ slice_from text index,
   shift + len (to_add quantity)).

Definition annotate (text : str) (parsed : list (Quantity E)) : str :=
  fst (foldl inline_step (text, 0) parsed).

Definition inline_parse (text : str) : res str :=
  parsed ← parse text;
  Ok (annotate text parsed).

End Parser.

Arguments l_values {E} _.
Arguments l_unit {E} _.
Arguments l_surface {E} _.
Arguments l_span {E} _.

(** ** The shift table, as specified *)

(** The length change of one replacement. *)
Definition delta (v : Replacement) : Z :=
  len (new_surface v) - len (old_surface v).

(** The cumulative shift after a list of replacements. *)
Definition total_delta (values : list Replacement) : Z :=
  foldr (fun v acc => delta v + acc) 0 values.

(** The spec's words: the updated cumulative shift is recorded for every
    index of the final text from the replacement's adjusted start onward.
    [S] is the cumulative shift before [values]. *)
Fixpoint shift_from_start (S : Z) (values : list Replacement) (c : Z) : Z :=
  match values with
  | [] => S
  | v :: values' =>
      if fst (old_span v) + S <=? c
      then shift_from_start (S + delta v) values' c
      else S
  end.

(** The same table read from the index after the adjusted start onward. *)
Fixpoint shift_after_start (S : Z) (values : list Replacement) (c : Z) : Z :=
  match values with
  | [] => S
  | v :: values' =>
      if fst (old_span v) + S <? c
      then shift_after_start (S + delta v) values' c
      else S
  end.

(** A replacement list of a text of length [T]: spans in ascending order from
    [lo] on, not overlapping, not empty, inside the text, each old surface as
    long as its span. *)
Fixpoint replacements_from (T lo : Z) (values : list Replacement) : Prop :=
  match values with
  | [] => True
  | v :: values' =>
      lo <= fst (old_span v)
      /\ fst (old_span v) < snd (old_span v)
      /\ snd (old_span v) <= T
      /\ len (old_surface v) = snd (old_span v) - fst (old_span v)
      /\ replacements_from T (snd (old_span v)) values'
  end.

Definition replacements_of (text : str) (values : list Replacement) : Prop :=
  replacements_from (len text) 0 values.

(** The end of the last span of [pre], [lo] when there is none; the start of
    the first span of [post], [T] when there is none. *)
Fixpoint prev_end (lo : Z) (pre : list Replacement) : Z :=
  match pre with
  | [] => lo
  | p :: pre' => prev_end (snd (old_span p)) pre'
  end.
Definition next_start (T : Z) (post : list Replacement) : Z :=
  match post with
  | v :: _ => fst (old_span v)
  | [] => T
  end.

(** What the table holds at [c] after [values] ran from the cumulative shift
    [S], when it held [old] at [c] before. *)
Fixpoint table_after (S old : Z) (values : list Replacement) (c : Z) : Z :=
  match values with
  | [] => old
  | v :: values' =>
      if fst (old_span v) + S <? c
      then table_after (S + delta v) (S + delta v) values' c
      else old
  end.

(** ** The conversion of a spelled number, as specified *)

Section SpelledNumber.
Context (E : Env).

(** A token resolves to [(scale, increment)]: a digit literal with scale 1
    and its value, any other word through the number-word table. *)
Inductive resolves : str -> Z * pyfloat E -> Prop :=
| resolves_digits word x :
    py_float E (lower word) = Ok x ->
    resolves word (1, x)
| resolves_numword word scale increment :
    py_float E (lower word) = Raise ValueError ->
    r_NUMWORDS E (lower word) = Some (scale, increment) ->
    resolves word (scale, float_of_int E increment).

(** One token on the accumulators [(curr, result)]:
    [curr = curr * scale + increment], flushed into [result] when the scale
    exceeds 100. *)
Definition accumulate (acc : pyfloat E * pyfloat E) (token : Z * pyfloat E)
  : pyfloat E * pyfloat E :=
  let curr := fadd E (fmul E (fst acc) (float_of_int E (fst token)))
                   (snd token) in
  if 100 <? fst token then (fzero E, fadd E (snd acc) curr)
  else (curr, snd acc).

(** Both accumulators start at 0; the value is [result + curr]. *)
Definition spelled_value (tokens : list (Z * pyfloat E)) : pyfloat E :=
  let acc := foldl accumulate (fzero E, fzero E) tokens in
  fadd E (snd acc) (fst acc).

End SpelledNumber.

(** ** The slash flag of unit extraction, as specified *)

Section SlashFlag.
Context (E : Env).

(** [w] occurs in [s]: [s] is some text, then [w], then some text. *)
Definition occurs (w s : str) : Prop := exists a b, s = a ++ w ++ b.

(** The text of a group holds a division marker, "/" or " per ". *)
Definition marks_division (s : str) : bool :=
  contains s (py "/") || contains s (py " per ").

(** An operator group that took part in the match and holds a division
    marker. *)
Definition divides (item : Match) (g : nat) : bool :=
  truthy (group item g) && marks_division (group_str item g).

(** The slash flag in effect at group [g]: some operator group to the left
    of [g] divides. *)
Definition slash_at (item : Match) (g : nat) : bool :=
  existsb (divides item) (List.filter (fun o => o <? g)%nat group_operators).

(** The dimension of the unit-surface group [g] under a slash flag: its
    surface resolved to a base unit name, with the power of [parse_unit]. *)
Definition unit_dimension (item : Match) (text : str) (g : nat) (slash : bool)
  : res Dim :=
  '(surface, power) ← parse_unit E item g slash;
  base ← (if USE_CLF E
          then u ← disambiguate_unit E surface text; Ok (u_name u)
          else us ← getitem (l_UNITS E surface);
               u ← index0 us; Ok (u_name u));
  Ok {| base := base; power := power |}.

(** The dimension list: the unit-surface groups that took part, left to
    right, each under the flag in effect where it stands. *)
Definition slash_dimensions (item : Match) (text : str) : res (list Dim) :=
  map_res (fun g => unit_dimension item text g (slash_at item g))
          (List.filter (fun g => truthy (group item g)) group_units).

(** The flag after the loop went through the groups [done]; a group that is
    not a unit-surface group is an operator group. *)
Definition flag_after (item : Match) (done : list nat) : bool :=
  existsb (divides item)
    (List.filter (fun g => negb (existsb (Nat.eqb g) group_units)) done).

(** The unit-surface groups of [gs] that took part, each with the flag the
    loop holds when it reaches it, having gone through [done] before. *)
Fixpoint flagged (item : Match) (done gs : list nat) : list (nat * bool) :=
  match gs with
  | [] => []
  | g :: gs' =>
      let rest := flagged item (done ++ [g]) gs' in
      if existsb (Nat.eqb g) group_units && truthy (group item g)
      then (g, flag_after item done) :: rest
      else rest
  end.

End SlashFlag.

(** ** The classification of a numeric literal, as specified *)

(** A literal and the literal without its trailing dangling hyphen: a
    hyphen at the very end, or right before a final line break, is dropped;
    a literal with neither is left as it is. *)
Inductive hyphen_stripped : str -> str -> Prop :=
| stripped_end r :
    hyphen_stripped (r ++ [45%N]) r
| stripped_before_newline r :
    hyphen_stripped (r ++ [45%N; 10%N]) (r ++ [10%N])
| stripped_none s :
    (forall r, s <> r ++ [45%N]) ->
    (forall r, s <> r ++ [45%N; 10%N]) ->
    hyphen_stripped s s.

Section Literal.
Context (E : Env).

Inductive LiteralKind := Range | Uncertainty | Fraction | Single.

(** The float of a literal without its trailing dangling hyphen. *)
Definition stripped_float (literal : str) (x : pyfloat E) : Prop :=
  exists stripped,
    hyphen_stripped literal stripped /\ py_float E stripped = Ok x.

(** The literal after the three rewriting steps. *)
Definition normalized_literal (item : Match) : str :=
  collapse_spaces (sub_fracs E (sub_multiplier E (group_str item 2))).

(** The priority order: a range separator first, then an uncertainty
    separator, then a fraction, and a single float otherwise. *)
Definition classify (value : str) : LiteralKind :=
  match re_range_separator E value with
  | _ :: _ => Range
  | [] =>
      match re_uncer_separator E value with
      | _ :: _ => Uncertainty
      | [] =>
          match re_fract_separator E value with
          | _ :: _ => Fraction
          | [] => Single
          end
      end
  end.

(** What each kind returns. *)
Definition literal_result (value : str) (kind : LiteralKind)
  (uncertainty : option (pyfloat E)) (values : list (pyfloat E)) : Prop :=
  match kind with
  | Range =>
      uncertainty = None
      /\ exists sep pieces,
           head (re_range_separator E value) = Some sep
           /\ py_split value sep = Ok pieces
           /\ Forall2 stripped_float pieces values
  | Uncertainty =>
      exists sep pieces base u rest,
        head (re_uncer_separator E value) = Some sep
        /\ py_split value sep = Ok pieces
        /\ map_res (py_float E) pieces = Ok (base :: u :: rest)
        /\ uncertainty = Some u /\ values = [base]
  | Fraction =>
      uncertainty = None
      /\ match split_ws value with
         | [] => False
         | [frac] => exists f, py_fraction E frac = Ok f /\ values = [f]
         | whole :: frac :: _ =>
             exists w f, py_float E whole = Ok w /\ py_fraction E frac = Ok f
                         /\ values = [fadd E w f]
         end
  | Single =>
      uncertainty = None
      /\ exists v, stripped_float value v /\ values = [v]
  end.

End Literal.

(** ** The correction rules, as specified *)

Section Rules.
Context (E : Env).

(** The six rules, in their fixed order. *)
Inductive Rule :=
| Discard | CurrencySuffix | Decade | InchPreposition | QuoteArtifact
| TimeCount.

Definition rule_order : list Rule :=
  [Discard; CurrencySuffix; Decade; InchPreposition; QuoteArtifact; TimeCount].

(** Whether a rule applies to the extracted unit, surface and span. *)
Definition applicable (text : str) (item : Match) (st : Locals E) (r : Rule)
  : res bool :=
  match r with
  | Discard => Ok (is_discarded E (l_surface st))
  | CurrencySuffix => Ok (is_currency (l_unit st))
  | Decade => Ok (re_decade E (l_surface st))
  | InchPreposition => is_inch_preposition E st
  | QuoteArtifact => Ok (is_quote_artifact E text (m_span item))
  | TimeCount => is_time_count E st
  end.

(** What a rule does; [None] is "no quantity". *)
Definition apply_rule (orig_text : str) (st : Locals E) (r : Rule)
  : res (option (Locals E)) :=
  match r with
  | Discard => Ok None
  | CurrencySuffix => st' ← currency_rule E orig_text st; Ok (Some st')
  | Decade =>
      unit ← getitem (l_NAMES E (py "dimensionless"));
      Ok (Some (trimmed E st unit 1))
  | InchPreposition =>
      unit ← demoted_unit E orig_text (l_unit st);
      Ok (Some (trimmed E st unit 3))
  | QuoteArtifact =>
      unit ← demoted_unit E orig_text (l_unit st);
      Ok (Some (trimmed E st unit 1))
  | TimeCount =>
      unit ← get_unit_from_dimensions E
               (slice_to (u_dimensions (l_unit st)) (-1)) orig_text;
      Ok (Some (trimmed E st unit 5))
  end.

(** The first rule of a list that applies, the guards tried in order. *)
Fixpoint first_applicable (text : str) (item : Match) (st : Locals E)
  (rules : list Rule) : res (option Rule) :=
  match rules with
  | [] => Ok None
  | r :: rules' =>
      b ← applicable text item st r;
      if b : bool then Ok (Some r) else first_applicable text item st rules'
  end.

(** Exactly the first applicable rule is applied, or none. *)
Definition first_rule_wins (orig_text text : str) (item : Match)
  (st : Locals E) : res (option (Locals E)) :=
  r ← first_applicable text item st rule_order;
  match r with
  | Some r => apply_rule orig_text st r
  | None => Ok (Some st)
  end.

(** What a rule leaves of the parsed values: the values themselves, or each
    scaled by the multiplier of a currency suffix. *)
Definition values_kept (values values' : list (pyfloat E)) : Prop :=
  values' = values
  \/ exists m, values' = map (fun i => fmul E i m) values.

(** The quantity of one value. *)
Definition quantity_of (st : Locals E) (uncert : option (pyfloat E))
  (value : pyfloat E) : Quantity E :=
  {| q_value := value; q_unit := l_unit st; q_surface := l_surface st;
     q_span := l_span st; q_uncertainty := uncert |}.

End Rules.

(** ** The annotated text, as specified *)

Section Annotated.
Context (E : Env).

(** The input from [pos] on, with the annotation of each quantity right
    after the end of its span. *)
Fixpoint interleave (text : str) (pos : Z) (parsed : list (Quantity E))
  : str :=
  match parsed with
  | [] => slice_from text pos
  | q :: parsed' =>
      slice text pos (snd (q_span q)) ++ to_add E q
      ++ interleave text (snd (q_span q)) parsed'
  end.

(** The span ends lie between [lo] and [hi] in ascending order. *)
Fixpoint ends_ascending (lo hi : Z) (parsed : list (Quantity E)) : Prop :=
  match parsed with
  | [] => True
  | q :: parsed' =>
      lo <= snd (q_span q) <= hi
      /\ ends_ascending (snd (q_span q)) hi parsed'
  end.

End Annotated.

(** ** A worked environment

    One concrete environment for the examples: IEEE doubles for the floats,
    a four-unit knowledge base, and the answers of the grammar and of [re] on
    the strings the examples meet. A table holds no other string: a
    [finditer] or [findall] finds nothing there, a substitution changes
    nothing, and [float] takes it for malformed. *)
Module Demo.

(** [d.get(k)] on an association list. *)
Fixpoint assoc {A} (tbl : list (str * A)) (k : str) : option A :=
  match tbl with
  | [] => None
  | (k', a) :: tbl' => if str_eqb k' k then Some a else assoc tbl' k
  end.

(** An int as a double; exact on the integers used here. *)
Definition of_Z (z : Z) : PrimFloat.float :=
  match z with
  | Zneg _ => PrimFloat.opp (PrimFloat.of_uint63 (Uint63.of_Z (- z)))
  | _ => PrimFloat.of_uint63 (Uint63.of_Z z)
  end.

(** A decimal literal [n / 10^k], correctly rounded. *)
Definition decimal (n : Z) (k : nat) : PrimFloat.float :=
  PrimFloat.div (of_Z n) (of_Z (10 ^ Z.of_nat k)).

(** [float(s)] on the literals of the examples. *)
Definition float_literals : list (str * PrimFloat.float) :=
  [(py "2", of_Z 2); (py "3", of_Z 3); (py "125.0", of_Z 125);
   (py "4.5 ", decimal 45 1); (py " 0.1", decimal 1 1);
   (py "10 ", of_Z 10); (py " 20", of_Z 20)].

(** [str(x)] and ['%g' % x] on the floats the examples format. *)
Definition str_of_float (x : PrimFloat.float) : str :=
  if PrimFloat.eqb x (of_Z 125) then py "125.0"
  else if PrimFloat.eqb x (of_Z 2) then py "2.0"
  else if PrimFloat.eqb x (of_Z 3) then py "3.0"
  else if PrimFloat.eqb x (of_Z 5) then py "5.0"
  else py "nan".

Definition g_of_float (x : PrimFloat.float) : str :=
  if PrimFloat.eqb x (of_Z 125) then py "125"
  else if PrimFloat.eqb x (of_Z 2) then py "2"
  else if PrimFloat.eqb x (of_Z 3000000000000) then py "3e+12"
  else py "nan".

(** The knowledge base. A unit of the knowledge base has itself as its
    only dimension; the currency entity is rooted in the currency
    dimension, which is what the guard of the currency rule reads. *)
Definition dim1 (b : string) : list Dim := [{| base := py b; power := 1 |}].

Definition entity (name : string) (dims : list Dim) : Entity :=
  {| e_name := py name; e_dimensions := dims; e_uri := None |}.

Definition currency : Entity := entity "currency" (dim1 "currency").
Definition length_ : Entity := entity "length" [].
Definition time_ : Entity := entity "time" [].
Definition flux_density : Entity := entity "magnetic flux density" [].

Definition kb_unit (name : string) (surfaces : list string) (e : Entity)
  : Unit :=
  {| u_name := py name; u_surfaces := Some (map py surfaces); u_entity := e;
     u_uri := None; u_symbols := Some []; u_dimensions := dim1 name |}.

Definition dollar : Unit := kb_unit "dollar" ["dollar"; "$"]%string currency.
Definition tesla : Unit := kb_unit "tesla" ["tesla"; "T"]%string flux_density.
Definition metre : Unit :=
  kb_unit "metre" ["metre"; "meters"; "m"]%string length_.
Definition second : Unit := kb_unit "second" ["second"; "s"]%string time_.
Definition dimensionless : Unit :=
  kb_unit "dimensionless" [] (entity "dimensionless" []).
Definition kb : list Unit := [dollar; tesla; metre; second; dimensionless].

(** A key of a dimension list: each base followed by its signed power. *)
Definition key_of (dims : list Dim) : str :=
  concat (map (fun d => base d
                        ++ (if power d <? 0 then py "^-" else py "^")
                        ++ [Z.to_N (48 + Z.abs (power d))]) dims).

(** The match objects. Group 1 is the currency prefix, group 2 the numeric
    literal, group 4 the first unit. *)
Definition absent : string := EmptyString.
Definition dim_match (whole prefix number unit1 : string) (span : Span)
  : Match :=
  let opt s := match s with EmptyString => None | _ => Some (py s) end in
  {| m_groups := [Some (py whole); opt prefix; opt number; None; opt unit1;
                  None; None; None; None; None; None];
     m_span := span |}.

(** The texts of the examples, and what the two compiled patterns find in
    them. "125.0 meters" is the spelled text after substitution. *)
Definition currency_text : str := py "$3T and $3".
Definition malformed_text : str := py "3x10^5 m".
Definition stale_text : str := py "2 m and 3x10^5 s".
Definition spelled_text : str := py "one hundred and twenty-five meters".
Definition comma_text : str := py "2,500 kg and five m".

Definition dim_matches : list (str * list Match) :=
  [(currency_text, [dim_match "$3T" "$" "3" "T" (0, 3);
                    dim_match "$3" "$" "3" absent (8, 10)]);
   (malformed_text, [dim_match "3x10^5 m" absent "3x10^5" "m" (0, 8)]);
   (stale_text, [dim_match "2 m" absent "2" "m" (0, 3);
                 dim_match "3x10^5 s" absent "3x10^5" "s" (8, 16)]);
   (py "125.0 meters",
    [dim_match "125.0 meters" absent "125.0" "meters" (0, 12)])].

Definition txt_matches : list (str * list Match) :=
  [(spelled_text,
    [{| m_groups := [Some (py "one hundred and twenty-five")];
        m_span := (0, 27) |}]);
   (comma_text,
    [{| m_groups := [Some (py "five")]; m_span := (13, 17) |}])].

(** What [re.finditer(r'\d+(,\d{3})+', text)] finds. *)
Definition comma_matches : list (str * list Match) :=
  [(comma_text,
    [{| m_groups := [Some (py "2,500"); Some (py ",500")];
        m_span := (0, 5) |}])].

Definition env : Env := {|
  pyfloat := PrimFloat.float;
  fzero := of_Z 0;
  fadd := PrimFloat.add;
  fmul := PrimFloat.mul;
  float_of_int := of_Z;
  py_float := fun s => match assoc float_literals s with
                       | Some x => Ok x
                       | None => Raise ValueError
                       end;
  py_fraction := fun _ => Raise ValueError;
  py_int := fun _ => Raise ValueError;
  str_float := str_of_float;
  fmt_g_float := g_of_float;
  fmt_g_int := fun _ => [];

  r_UNITS := map py ["zero"; "one"; "two"; "three"; "four"; "five"]%string;
  r_TENS := map py ["twenty"; "thirty"]%string;
  r_SCALES := map py ["hundred"; "thousand"; "million"]%string;
  r_NUMWORDS := assoc [(py "and", (1, 0)); (py "one", (1, 1));
                       (py "five", (1, 5)); (py "twenty", (1, 20));
                       (py "hundred", (100, 0)); (py "thousand", (1000, 0))];
  r_UNI_SUPER := fun _ => None;
  r_SUFFIXES := assoc [(py "K", of_Z 1000); (py "M", of_Z 1000000);
                       (py "B", of_Z 1000000000);
                       (py "T", of_Z 1000000000000)];
  REG_TXT_finditer := fun s => default [] (assoc txt_matches s);
  REG_DIM_finditer := fun s => default [] (assoc dim_matches s);

  re_comma_number := fun s => default [] (assoc comma_matches s);
  sub_multiplier := fun s =>
    if str_eqb s (py "3x10^5") then py "3e^5" else s;
  sub_fracs := fun s => s;
  re_range_separator := fun s =>
    if str_eqb s (py "10 to 20") then [py "to"] else [];
  re_uncer_separator := fun s =>
    if str_eqb s (py "4.5 +/- 0.1") then [py "+/-"] else [];
  re_fract_separator := fun _ => [];
  re_power := fun _ => [];
  sub_power := fun s => s;
  re_cubed := fun _ => [];
  sub_cubed := fun s => s;
  re_squared := fun _ => [];
  sub_squared := fun s => s;
  re_quote_spans := fun _ => [];
  re_ordinal := fun _ => false;
  re_code := fun _ => false;
  re_a_second := fun _ => false;
  re_suffix_tail := fun s =>
    if str_eqb s (py "$3T") then [(py "T", [])] else [];
  re_suffix_after := fun surface text =>
    if str_eqb surface (py "$3") && str_eqb text currency_text
    then [py "T"] else [];
  re_decade := fun _ => false;
  re_in_end := fun _ => false;
  re_time_end := fun _ => false;
  sub_genitive := fun s => s;

  l_NAMES := assoc (map (fun u => (u_name u, u)) kb);
  l_UNITS := fun s =>
    Some (List.filter (fun u => str_in s (default [] (u_surfaces u))) kb);
  l_DERIVED_UNI := assoc (map (fun u => (key_of (u_dimensions u), u)) kb);
  l_DERIVED_ENT := fun _ => Some [];
  get_key_from_dimensions := key_of;

  USE_CLF := false;
  disambiguate_entity := fun _ _ => Raise KeyError;
  disambiguate_unit := fun _ _ => Raise KeyError
|}.

End Demo.

(** ** Further specifications *)

(** The text from [pos] on with every replacement made: the text between
    the old spans, and each new surface in place of its old span. *)
Fixpoint spliced (text : str) (pos : Z) (values : list Replacement) : str :=
  match values with
  | [] => slice_from text pos
  | v :: values' =>
      slice text pos (fst (old_span v)) ++ new_surface v
      ++ spliced text (snd (old_span v)) values'
  end.

(** An index of the final text outside every new surface: before the
    adjusted start of the next replacement, or past its new surface and
    outside the new surfaces that follow. [S] is the cumulative shift before
    [values]. *)
Fixpoint untouched (S : Z) (values : list Replacement) (c : Z) : Prop :=
  match values with
  | [] => True
  | v :: values' =>
      c < fst (old_span v) + S
      \/ (fst (old_span v) + S + len (new_surface v) <= c
          /\ untouched (S + delta v) values' c)
  end.

Section Further.
Context (E : Env).

(** What a branch of the [if]/[elif] chain does to the span and the surface:
    the start stays, the end moves by at most one to the right, and only in
    the single-dimension currency branch; with the end unmoved the surface is
    unchanged. *)
Definition span_kept (orig_text : str) (st st' : Locals E) : Prop :=
  fst (l_span st') = fst (l_span st)
  /\ snd (l_span st') <= snd (l_span st) + 1
  /\ (snd (l_span st) < snd (l_span st') ->
      is_currency (l_unit st) = true
      /\ len (u_dimensions (l_unit st)) <= 1
      /\ exists suffix,
           head (re_suffix_after E (l_surface st) orig_text) = Some suffix
           /\ l_surface st' = l_surface st ++ suffix)
  /\ (snd (l_span st') = snd (l_span st) -> l_surface st' = l_surface st).

(** The body of the loop of [parse] for one match taken on its own: the
    values and the uncertainty are those of the match itself. *)
Definition item_quantities (orig_text text : str) (shifts : gmap Z Z)
  (item : Match) : res (list (Quantity E)) :=
  '(uncert, values) ← get_values E item;
  unit ← get_unit E item text;
  let '(surface, span) := get_surface shifts orig_text item in
  objs ← build_quantity E orig_text text item values unit surface span uncert;
  Ok (default [] objs).

(** The literal of a match does not make [get_values] raise [ValueError]. *)
Definition literal_parses (item : Match) : bool :=
  match get_values E item with
  | Raise ValueError => false
  | _ => true
  end.

(** The span of a quantity comes from the match [item]: it starts at or
    after the start of the match mapped back to the original text, and ends
    at most one character after its mapped end. *)
Definition span_from (shifts : gmap Z Z) (item : Match) (q : Quantity E)
  : Prop :=
  fst (real_span shifts (m_span item)) <= fst (q_span q)
  /\ snd (q_span q) <= snd (real_span shifts (m_span item)) + 1.

(** What [build_unit_name] writes for one dimension, before the space that
    follows it: nothing at all for the power 0. *)
Definition dim_term (d : Dim) : str :=
  (if power d <? 0 then py "per " else [])
  ++ (let p := Z.abs (power d) in
      if p =? 1 then base d
      else if p =? 2 then py "square " ++ base d
      else if p =? 3 then py "cubic " ++ base d
      else if 3 <? p then base d ++ py " to the " ++ fmt_g_int E p
      else []).

(** The element of the comprehension of [get_entity_from_dimensions]: the
    dimension with its base replaced by the name of the entity of the base
    unit. *)
Definition entity_dimension (i : Dim) : res Dim :=
  u ← getitem (l_NAMES E (base i));
  Ok {| base := e_name (u_entity u); power := power i |}.

(** The entity built in the [except IndexError] branch. *)
Definition unknown_entity (new_dimensions : list Dim) : Entity :=
  {| e_name := py "unknown"; e_dimensions := new_dimensions;
     e_uri := None |}.

(** A record of the first loop of [extract_spellout_values]: the residue
    of a candidate that is kept, with [str] of its value. *)
Definition spelled_record (item : Match) (v : Replacement) : Prop :=
  exists surface span x,
    clean_surface E (group_str item 0) (m_span item)
    = Ok (Some (surface, span))
    /\ str_in (lower surface) (r_SCALES E) = false
    /\ spellout_value E surface = Ok x
    /\ v = {| old_surface := surface; old_span := span;
              new_surface := str_float E x |}.

End Further.

(** A string that starts, or ends, with a character that [strip] keeps. *)
Definition starts_word (s : str) : bool :=
  match s with
  | c :: _ => negb (is_space c)
  | [] => false
  end.
Definition ends_word (s : str) : bool := starts_word (rev s).

(** A number and the number with its commas removed: every comma is
    dropped, every other character is kept, in order. *)
Inductive commas_removed : str -> str -> Prop :=
| commas_removed_nil : commas_removed [] []
| commas_removed_comma s t :
    commas_removed s t -> commas_removed (44%N :: s) t
| commas_removed_keep c s t :
    c <> 44%N -> commas_removed s t -> commas_removed (c :: s) (c :: t).

(** A record of the second loop of [extract_spellout_values]: the matched
    number at its span, to be replaced by the number without commas. *)
Definition comma_record (item : Match) (v : Replacement) : Prop :=
  old_surface v = group_str item 0
  /\ old_span v = m_span item
  /\ commas_removed (group_str item 0) (new_surface v).

(** The dict [maps] of [clean_text], as the list of its items, and the loop
    over it in a given order. *)
Definition maps : list (char * char) :=
  [(215, 120); (8211, 45); (8722, 45)]%N.
Definition replace_maps (order : list (char * char)) (text : str) : str :=
  foldl (fun text m => replace_char (fst m) (snd m) text) text order.

(** What [clean_text] does to one character before the genitives. *)
Definition fold_char (c : char) : char :=
  if (c =? 215)%N then 120%N
  else if ((c =? 8211) || (c =? 8722))%N then 45%N
  else c.

(** * Properties *)

(** ** Slices *)

Lemma len_nonneg {A} (s : list A) : 0 <= len s.
Proof. unfold len. lia. Qed.

Lemma len_app {A} (s t : list A) : len (s ++ t) = len s + len t.
Proof. unfold len. rewrite length_app. lia. Qed.

Lemma len_slice {A} (s : list A) (i j : Z) :
  0 <= i -> i <= j -> j <= len s -> len (slice s i j) = j - i.
Proof.
  intros Hi Hij Hj. unfold slice, clamp, len in *.
  destruct (Z.ltb_spec i 0), (Z.ltb_spec j 0); try lia.
  rewrite length_take, length_drop. lia.
Qed.

Lemma len_slice_from {A} (s : list A) (i : Z) :
  0 <= i -> i <= len s -> len (slice_from s i) = len s - i.
Proof.
  intros Hi Hj. unfold slice_from, clamp, len in *.
  destruct (Z.ltb_spec i 0); try lia.
  rewrite length_drop. lia.
Qed.

(** [text[0:i] + text[i:]] is [text] for every integer [i]. *)
Lemma slice_split {A} (s : list A) (i : Z) :
  slice s 0 i ++ slice_from s i = s.
Proof.
  unfold slice, slice_from, clamp.
  change (0 <? 0) with false. cbv iota.
  assert (H0 : Z.min 0 (len s) = 0) by (pose proof (len_nonneg s); lia).
  rewrite H0, Z.sub_0_r. change (Z.to_nat 0) with O. rewrite drop_0.
  apply take_drop.
Qed.

(** ** The table of [substitute_values] *)

Lemma record_shift_lookup m a sh c (n : nat) :
  shift_at (foldl (fun m c => <[c := sh]> m) m (seqZ a (Z.of_nat n))) c =
  if bool_decide (a <= c < a + Z.of_nat n) then sh else shift_at m c.
Proof.
  unfold shift_at. induction n as [|n IH].
  - rewrite seqZ_nil by lia. simpl.
    rewrite bool_decide_eq_false_2; [done|lia].
  - rewrite seqZ_S, foldl_snoc.
    destruct (decide (c = a + Z.of_nat n)) as [->|Hne].
    + rewrite lookup_insert_eq. simpl.
      rewrite bool_decide_eq_true_2; [done|lia].
    + rewrite lookup_insert_ne by done. rewrite IH.
      destruct (bool_decide_reflect (a <= c < a + Z.of_nat n));
        [rewrite bool_decide_eq_true_2 by lia; done
        |rewrite bool_decide_eq_false_2 by lia; done].
Qed.

Lemma shift_at_record m a b sh c :
  shift_at (record_shift m a b sh) c =
  if bool_decide (a <= c < b) then sh else shift_at m c.
Proof.
  unfold record_shift, range.
  destruct (Z.le_gt_cases (b - a) 0) as [Hle|Hgt].
  - rewrite seqZ_nil by lia. simpl. rewrite bool_decide_eq_false_2; [done|lia].
  - replace (b - a) with (Z.of_nat (Z.to_nat (b - a))) by lia.
    rewrite record_shift_lookup.
    destruct (bool_decide_reflect (a <= c < b));
      [rewrite bool_decide_eq_true_2 by lia; done
      |rewrite bool_decide_eq_false_2 by lia; done].
Qed.

Lemma table_after_same S values c :
  table_after S S values c = shift_after_start S values c.
Proof.
  revert S. induction values as [|v values IH]; intros S; simpl; [done|].
  destruct (_ <? _); [apply IH|done].
Qed.

Lemma substitute_step_len T st v lo :
  lo <= fst (old_span v) ->
  fst (old_span v) < snd (old_span v) ->
  snd (old_span v) <= T ->
  len (old_surface v) = snd (old_span v) - fst (old_span v) ->
  len (final_text st) = T + shift st ->
  0 <= lo + shift st ->
  len (final_text (substitute_step st v)) = T + (shift st + delta v).
Proof.
  intros Hlo Hab HbT Hold Hlen H0. unfold substitute_step, delta. simpl.
  rewrite !len_app, len_slice, len_slice_from by lia. lia.
Qed.

Lemma substitute_loop_table T values : forall lo st,
  replacements_from T lo values ->
  lo <= T ->
  len (final_text st) = T + shift st ->
  0 <= lo + shift st ->
  shift (substitute_loop st values) = shift st + total_delta values
  /\ len (final_text (substitute_loop st values))
     = T + shift (substitute_loop st values)
  /\ forall c, c < len (final_text (substitute_loop st values)) ->
       shift_at (shifts (substitute_loop st values)) c
       = table_after (shift st) (shift_at (shifts st) c) values c.
Proof.
  induction values as [|v values IH]; intros lo st Hwf HloT Hlen H0.
  - simpl. split; [lia|]. split; [done|]. done.
  - destruct Hwf as (Hlo & Hab & HbT & Hold & Hwf).
    pose proof (substitute_step_len T st v lo Hlo Hab HbT Hold Hlen H0) as Hlen1.
    assert (Hsh1 : shift (substitute_step st v) = shift st + delta v) by done.
    assert (H01 : 0 <= snd (old_span v) + shift (substitute_step st v)).
    { rewrite Hsh1. unfold delta. pose proof (len_nonneg (new_surface v)). lia. }
    rewrite <- Hsh1 in Hlen1.
    destruct (IH (snd (old_span v)) (substitute_step st v) Hwf HbT Hlen1 H01)
      as (IHs & IHl & IHt).
    change (substitute_loop st (v :: values))
      with (substitute_loop (substitute_step st v) values).
    split; [rewrite IHs, Hsh1; simpl; lia|]. split; [done|].
    intros c Hc. rewrite (IHt c Hc). cbn [table_after].
    assert (Htab : shift_at (shifts (substitute_step st v)) c =
      if bool_decide (fst (old_span v) + shift st + 1 <= c
                      < len (final_text (substitute_step st v)))
      then shift st + delta v else shift_at (shifts st) c).
    { unfold substitute_step at 1. simpl shifts. apply shift_at_record. }
    rewrite Htab, Hsh1.
    destruct (Z.ltb_spec (fst (old_span v) + shift st) c) as [Hlt|Hge].
    + destruct (bool_decide_reflect (fst (old_span v) + shift st + 1 <= c
                  < len (final_text (substitute_step st v)))) as [_|Hout];
        [done|].
      destruct values as [|v2 values];
        [unfold substitute_loop in Hc; cbn [foldl] in Hc; lia|].
      destruct Hwf as (Hlo2 & Hab2 & HbT2 & _). simpl.
      rewrite Hlen1, Hsh1 in Hout.
      destruct (Z.ltb_spec (fst (old_span v2) + (shift st + delta v)) c);
        [done|lia].
    + rewrite bool_decide_eq_false_2 by lia.
      destruct values as [|v2 values]; [done|].
      destruct Hwf as (Hlo2 & _). simpl.
      unfold delta in *. pose proof (len_nonneg (new_surface v)).
      destruct (Z.ltb_spec (fst (old_span v2)
                  + (shift st + (len (new_surface v) - len (old_surface v)))) c);
        [lia|done].
Qed.

Lemma substitute_values_table text values :
  replacements_of text values ->
  len (fst (substitute_values text values)) = len text + total_delta values
  /\ forall c, c < len (fst (substitute_values text values)) ->
       shift_at (snd (substitute_values text values)) c
       = shift_after_start 0 values c.
Proof.
  intros Hwf. unfold substitute_values. cbn [fst snd].
  destruct (substitute_loop_table (len text) values 0
              {| shift := 0; final_text := text; shifts := ∅ |} Hwf)
    as (Hs & Hl & Ht); cbn [shift final_text shifts];
    [apply len_nonneg|lia|lia|].
  cbn [shift] in Hs. split; [lia|].
  intros c Hc. rewrite (Ht c Hc). cbn [shift shifts].
  unfold shift_at at 1. rewrite lookup_empty. cbn [default].
  apply table_after_same.
Qed.

Lemma replacements_from_weaken T lo lo' values :
  replacements_from T lo values ->
  match values with
  | v :: _ => lo' <= fst (old_span v)
  | [] => True
  end ->
  replacements_from T lo' values.
Proof. destruct values; simpl; intuition. Qed.

(** The text keeps at least the characters from [lo] on. *)
Lemma total_delta_lower T values : forall lo,
  replacements_from T lo values -> lo <= T -> lo <= T + total_delta values.
Proof.
  induction values as [|v values IH]; intros lo Hwf HloT; simpl; [lia|].
  destruct Hwf as (Hlo & Hab & HbT & Hold & Hwf).
  specialize (IH _ Hwf HbT). unfold delta.
  pose proof (len_nonneg (new_surface v)). lia.
Qed.

Lemma prev_end_cons lo p pre :
  prev_end lo (p :: pre) = prev_end (snd (old_span p)) pre.
Proof. reflexivity. Qed.

Lemma total_delta_app pre rest :
  total_delta (pre ++ rest) = total_delta pre + total_delta rest.
Proof. induction pre as [|p pre IH]; simpl; lia. Qed.

Lemma prev_end_lower T rest pre : forall lo,
  replacements_from T lo (pre ++ rest) ->
  lo <= prev_end lo pre + total_delta pre.
Proof.
  induction pre as [|p pre IH]; intros lo Hwf.
  - simpl. lia.
  - destruct Hwf as (Hlo & Hab & HbT & Hold & Hwf).
    rewrite prev_end_cons. specialize (IH _ Hwf).
    cbn [total_delta foldr]. fold (total_delta pre). unfold delta.
    pose proof (len_nonneg (new_surface p)). lia.
Qed.

(** An index at or after the end of the last replacement of [pre] is past
    the start of every replacement of [pre]. *)
Lemma shift_after_start_app T rest c pre : forall S lo,
  replacements_from T lo (pre ++ rest) ->
  Forall (fun p => 1 <= len (new_surface p)) pre ->
  prev_end lo pre + (S + total_delta pre) <= c ->
  shift_after_start S (pre ++ rest) c
  = shift_after_start (S + total_delta pre) rest c.
Proof.
  induction pre as [|p pre IH]; intros S lo Hwf Hne Hc.
  - simpl. f_equal. lia.
  - destruct Hwf as (Hlo & Hab & HbT & Hold & Hwf).
    inversion Hne as [|? ? Hp Hne']; subst.
    rewrite prev_end_cons in Hc.
    cbn [total_delta foldr] in *. fold (total_delta pre) in *.
    pose proof (prev_end_lower T rest pre _ Hwf) as Hlow.
    cbn [app shift_after_start].
    destruct (Z.ltb_spec (fst (old_span p) + S) c) as [_|Hge];
      [|unfold delta in *; lia].
    rewrite (IH (S + delta p) (snd (old_span p)) Hwf Hne') by lia.
    f_equal. lia.
Qed.

Lemma replacements_from_app T rest pre : forall lo,
  replacements_from T lo (pre ++ rest) ->
  replacements_from T (prev_end lo pre) rest.
Proof.
  induction pre as [|p pre IH]; intros lo Hwf; [done|].
  destruct Hwf as (_ & _ & _ & _ & Hwf). simpl. by apply IH.
Qed.

Lemma prev_end_upper T rest pre : forall lo,
  replacements_from T lo (pre ++ rest) -> lo <= T -> prev_end lo pre <= T.
Proof.
  induction pre as [|p pre IH]; intros lo Hwf HloT; [done|].
  destruct Hwf as (_ & _ & HbT & _ & Hwf). simpl. by apply IH.
Qed.

Lemma prev_end_snoc pre v : forall lo,
  prev_end lo (pre ++ [v]) = snd (old_span v).
Proof. induction pre as [|p pre IH]; intros lo; [done|]. apply IH. Qed.

(** An index at or before the adjusted start of the next replacement holds
    the shift in effect before it. *)
Lemma shift_after_start_before S rest c :
  match rest with
  | v :: _ => c <= fst (old_span v) + S
  | [] => True
  end ->
  shift_after_start S rest c = S.
Proof.
  destruct rest as [|v rest]; [done|]. cbn [shift_after_start]. intros Hc.
  destruct (Z.ltb_spec (fst (old_span v) + S) c); [lia|done].
Qed.

(** An index after the adjusted start of the last replacement of
    [pre ++ [v]] is past the start of every replacement before it. *)
Lemma shift_after_start_app_last T rest c pre v : forall S lo,
  replacements_from T lo ((pre ++ [v]) ++ rest) ->
  Forall (fun p => 1 <= len (new_surface p)) pre ->
  fst (old_span v) + (S + total_delta pre) < c ->
  shift_after_start S ((pre ++ [v]) ++ rest) c
  = shift_after_start (S + total_delta (pre ++ [v])) rest c.
Proof.
  intros S lo Hwf Hne Hc. rewrite <- app_assoc in *. cbn [app] in *.
  pose proof (replacements_from_app _ _ _ _ Hwf) as (Hlo & _).
  rewrite (shift_after_start_app T (v :: rest) c pre S lo Hwf Hne) by lia.
  cbn [shift_after_start].
  destruct (Z.ltb_spec (fst (old_span v) + (S + total_delta pre)) c); [|lia].
  rewrite total_delta_app. cbn [total_delta foldr]. f_equal. lia.
Qed.

(** A span of the final text that cuts no new surface: it lies after the
    replacements [pre], covers the replacements [mid] (none, one or several)
    and lies before the replacements [post]. It is mapped back to the span
    [(s', e')] of the text before substitution from which it came. *)
Lemma real_span_covering text pre mid post s' e' :
  replacements_of text (pre ++ mid ++ post) ->
  Forall (fun p => 1 <= len (new_surface p)) (pre ++ mid) ->
  (forall v, last mid = Some v ->
             snd (old_span v) < e' \/ 2 <= len (new_surface v)) ->
  prev_end 0 pre <= s' ->
  s' <= next_start e' mid ->
  s' < e' ->
  prev_end s' mid <= e' ->
  e' <= next_start (len text) post ->
  real_span (snd (substitute_values text (pre ++ mid ++ post)))
    (s' + total_delta pre, e' + total_delta pre + total_delta mid)
  = (s', e').
Proof.
  intros Hwf Hne Hlast Hs Hsm Hse Hme He.
  destruct (substitute_values_table text _ Hwf) as (Hlen & Htab).
  apply Forall_app in Hne as [Hpre Hmid].
  pose proof (replacements_from_app _ _ _ _ Hwf) as Hwf_mid.
  pose proof (replacements_from_app _ _ _ _ Hwf_mid) as Hwf_post.
  assert (Hroom : next_start (len text) post <= len text + total_delta post).
  { destruct post as [|q post]; cbn [next_start]; [cbn; lia|].
    apply (total_delta_lower (len text) (q :: post)).
    - eapply replacements_from_weaken; [exact Hwf_post|cbn; lia].
    - destruct Hwf_post as (_ & ? & ? & _). lia. }
  rewrite !total_delta_app in Hlen.
  assert (Hwf_s : replacements_from (len text) s' (mid ++ post)).
  { eapply replacements_from_weaken; [exact Hwf_mid|].
    destruct mid as [|m mid]; [|exact Hsm].
    destruct post as [|q post]; [done|]. cbn in He |- *. lia. }
  assert (Hstart : shift_after_start 0 (pre ++ mid ++ post)
                     (s' + total_delta pre) = total_delta pre).
  { rewrite (shift_after_start_app (len text) (mid ++ post) _ pre 0 0 Hwf Hpre)
      by lia.
    apply shift_after_start_before.
    destruct mid as [|m mid]; [|cbn in Hsm |- *; lia].
    destruct post as [|q post]; [done|]. cbn in He |- *. lia. }
  assert (Hend : shift_after_start 0 (pre ++ mid ++ post)
                   (e' + total_delta pre + total_delta mid - 1)
                 = total_delta pre + total_delta mid
                 /\ s' + total_delta pre
                    <= e' + total_delta pre + total_delta mid - 1).
  { induction mid as [|v mid _] using rev_ind.
    - cbn [app total_delta foldr] in *. split; [|lia].
      rewrite (shift_after_start_app (len text) post _ pre 0 0 Hwf Hpre)
        by lia.
      rewrite shift_after_start_before; [lia|].
      destruct post as [|q post]; [done|]. cbn in He. lia.
    - rewrite prev_end_snoc in Hme.
      apply Forall_app in Hmid as [Hmid Hv].
      inversion Hv as [|? ? Hv1 _]; subst.
      destruct (Hlast v (last_snoc _ _)) as [Hy|Hv2].
      all: pose proof (prev_end_lower _ _ _ _ Hwf_s) as Hlow.
      all: rewrite <- app_assoc in Hwf_s.
      all: pose proof (prev_end_lower _ _ _ _ Hwf_s) as Hlow'.
      all: pose proof (replacements_from_app _ _ _ _ Hwf_s)
             as (Hav & Hab & _ & Hold & _).
      all: rewrite total_delta_app in *; cbn [total_delta foldr] in *.
      all: unfold delta in *.
      all: assert (Hc : fst (old_span v) + (0 + total_delta (pre ++ mid))
                        < e' + total_delta pre
                          + (total_delta mid
                             + (len (new_surface v) - len (old_surface v) + 0))
                          - 1) by (rewrite total_delta_app; lia).
      all: split; [|lia].
      all: rewrite (app_assoc pre (mid ++ [v]) post), (app_assoc pre mid [v]).
      all: rewrite (app_assoc pre (mid ++ [v]) post),
             (app_assoc pre mid [v]) in Hwf.
      all: rewrite (shift_after_start_app_last (len text) post _ (pre ++ mid)
                      v 0 0 Hwf (proj2 (Forall_app _ _ _) (conj Hpre Hmid)) Hc).
      all: rewrite !total_delta_app; cbn [total_delta foldr]; unfold delta.
      all: rewrite shift_after_start_before; [lia|].
      all: destruct post as [|q post]; [done|]; cbn in He; lia. }
  destruct Hend as [Hend Hle].
  unfold real_span. cbn [fst snd].
  rewrite !Htab by lia. rewrite Hstart, Hend. f_equal; lia.
Qed.

(** C3, as stated: the updated cumulative shift is recorded from each
    replacement's adjusted start onward. Refuted on the text "three m" with
    "three" replaced by "3.0": index 0, the adjusted start, keeps the shift 0
    that was in effect before the replacement, where the claim has -2. *)
Lemma shift_from_start_refuted :
  let text := py "three m" in
  let values := [{| old_surface := py "three"; old_span := (0, 5);
                    new_surface := py "3.0" |}] in
  replacements_of text values
  /\ fst (substitute_values text values) = py "3.0 m"
  /\ shift_at (snd (substitute_values text values)) 0 = 0
  /\ shift_from_start 0 values 0 = -2
  /\ ~ Forall (fun c => shift_at (snd (substitute_values text values)) c
                        = shift_from_start 0 values c)
              (range 0 (len (fst (substitute_values text values)))).
Proof.
  cbv zeta. split; [|split; [|split; [|split]]].
  - unfold replacements_of. simpl. vm_compute. intuition congruence.
  - vm_compute. reflexivity.
  - vm_compute. reflexivity.
  - vm_compute. reflexivity.
  - intros H. rewrite Forall_forall in H.
    specialize (H 0). discriminate H.
    vm_compute. left.
Qed.

(** C3, amended: for a replacement list of the text (spans in ascending
    order, not overlapping, not empty, inside the text), [substitute_values]
    records at every index of the final text the cumulative shift of the
    replacements whose adjusted start lies strictly before that index, 0
    when there is none. With new surfaces that are not empty, every span of
    the final text that cuts no new surface (it lies after the replacements
    [pre], covers the replacements [mid], none, one or several, and lies
    before the replacements [post]; where it ends with the last new surface
    it covers, that surface has two or more characters) is mapped back by
    [start - shifts[start]] and [end - shifts[end - 1]] to the span of the
    text before substitution it came from, and [get_surface] extracts there
    what it extracts from the text before substitution with no shift at
    all. *)
Theorem substitute_values_shifts (text : str) (values : list Replacement) :
  replacements_of text values ->
  Forall (fun c => shift_at (snd (substitute_values text values)) c
                   = shift_after_start 0 values c)
         (range 0 (len (fst (substitute_values text values))))
  /\ forall pre mid post s' e',
       values = pre ++ mid ++ post ->
       Forall (fun p => 1 <= len (new_surface p)) (pre ++ mid) ->
       (forall v, last mid = Some v ->
                  snd (old_span v) < e' \/ 2 <= len (new_surface v)) ->
       prev_end 0 pre <= s' ->
       s' <= next_start e' mid ->
       s' < e' ->
       prev_end s' mid <= e' ->
       e' <= next_start (len text) post ->
       let span := (s' + total_delta pre,
                    e' + total_delta pre + total_delta mid) in
       real_span (snd (substitute_values text values)) span = (s', e')
       /\ forall orig_text groups,
            get_surface (snd (substitute_values text values)) orig_text
                        {| m_groups := groups; m_span := span |}
            = get_surface ∅ orig_text
                          {| m_groups := groups; m_span := (s', e') |}.
Proof.
  intros Hwf. split.
  - rewrite Forall_forall. intros c Hc. unfold range in Hc.
    apply elem_of_seqZ in Hc.
    apply (substitute_values_table text values Hwf). lia.
  - intros pre mid post s' e' -> Hne Hlast Hs Hsm Hse Hme He span.
    assert (Hreal : real_span
                      (snd (substitute_values text (pre ++ mid ++ post)))
                      span = (s', e'))
      by (by apply real_span_covering).
    split; [exact Hreal|].
    intros orig_text groups. unfold get_surface. cbn [m_span].
    rewrite Hreal. unfold real_span, shift_at. rewrite !lookup_empty.
    cbn [default]. rewrite !Z.sub_0_r. reflexivity.
Qed.

Lemma substitute_values_shifts_witness :
  let text := py "three m and 2 kg" in
  let values := [{| old_surface := py "three"; old_span := (0, 5);
                    new_surface := py "3.0" |}] in
  let text2 := py "ten to twenty m" in
  let values2 := [{| old_surface := py "ten"; old_span := (0, 3);
                     new_surface := py "10.0" |};
                  {| old_surface := py "twenty"; old_span := (7, 13);
                     new_surface := py "20.0" |}] in
  replacements_of text values
  /\ fst (substitute_values text values) = py "3.0 m and 2 kg"
  /\ real_span (snd (substitute_values text values)) (0, 5) = (0, 7)
  /\ real_span (snd (substitute_values text values)) (10, 14) = (12, 16)
  /\ replacements_of text2 values2
  /\ fst (substitute_values text2 values2) = py "10.0 to 20.0 m"
  /\ real_span (snd (substitute_values text2 values2)) (0, 14) = (0, 15).
Proof.
  cbv zeta.
  assert (Hwf : replacements_of (py "three m and 2 kg")
                  [{| old_surface := py "three"; old_span := (0, 5);
                      new_surface := py "3.0" |}])
    by (unfold replacements_of; simpl; vm_compute; intuition congruence).
  assert (Hwf2 : replacements_of (py "ten to twenty m")
                   [{| old_surface := py "ten"; old_span := (0, 3);
                       new_surface := py "10.0" |};
                    {| old_surface := py "twenty"; old_span := (7, 13);
                       new_surface := py "20.0" |}])
    by (unfold replacements_of; simpl; vm_compute; intuition congruence).
  split; [exact Hwf|]. split; [vm_compute; reflexivity|].
  destruct (substitute_values_shifts _ _ Hwf) as [_ Hmap].
  destruct (substitute_values_shifts _ _ Hwf2) as [_ Hmap2].
  split; [|split; [|split; [exact Hwf2|split; [vm_compute; reflexivity|]]]].
  - refine (proj1 (Hmap [] [_] [] 0 7 eq_refl _ _ _ _ _ _ _)).
    + repeat constructor. vm_compute. congruence.
    + intros v [= <-]. right. vm_compute. congruence.
    + vm_compute. congruence.
    + vm_compute. congruence.
    + lia.
    + vm_compute. congruence.
    + vm_compute. congruence.
  - refine (proj1 (Hmap [_] [] [] 12 16 eq_refl _ _ _ _ _ _ _)).
    + repeat constructor. vm_compute. congruence.
    + intros v [=].
    + vm_compute. congruence.
    + vm_compute. congruence.
    + lia.
    + vm_compute. congruence.
    + vm_compute. congruence.
  - refine (proj1 (Hmap2 [] [_; _] [] 0 15 eq_refl _ _ _ _ _ _ _)).
    + repeat constructor; vm_compute; congruence.
    + intros v [= <-]. left. vm_compute. reflexivity.
    + vm_compute. congruence.
    + vm_compute. congruence.
    + lia.
    + vm_compute. congruence.
    + vm_compute. congruence.
Defined.

(** ** The loop of [parse] after a malformed literal *)

Section ParseLoop.
Context (E : Env).

(** Before any literal was parsed, a malformed literal leaves [uncert]
    unbound, and the call of [build_quantity] reads it. *)
Lemma parse_item_unbound orig_text text shifts quantities item unit :
  get_values E item = Raise ValueError ->
  get_unit E item text = Ok unit ->
  parse_item E orig_text text shifts (quantities, None) item
  = Raise UnboundLocalError.
Proof.
  intros Hv Hu. unfold parse_item. rewrite Hv, Hu. simpl.
  destruct (get_surface shifts orig_text item). reflexivity.
Qed.

(** After a literal was parsed, a malformed literal leaves [uncert] and
    [values] as the earlier match bound them, and the quantities of this
    match are built from them. *)
Lemma parse_item_stale orig_text text shifts quantities item unit uncert values :
  get_values E item = Raise ValueError ->
  get_unit E item text = Ok unit ->
  parse_item E orig_text text shifts (quantities, Some (uncert, values)) item
  = objs ← build_quantity E orig_text text item values unit
             (fst (get_surface shifts orig_text item))
             (snd (get_surface shifts orig_text item)) uncert;
    Ok (quantities ++ default [] objs, Some (uncert, values)).
Proof.
  intros Hv Hu. unfold parse_item. rewrite Hv, Hu. simpl.
  destruct (get_surface shifts orig_text item) as [surface span]. simpl.
  destruct (build_quantity _ _ _ _ _ _ _ _ _) as [[objs|]|e]; simpl;
    [reflexivity| |reflexivity].
  by rewrite app_nil_r.
Qed.

(** A unit without dimensions that reaches the inch branch: the guard
    reads [unit.dimensions[-1]]. *)
Lemma correct_empty_dimensions orig_text text item st :
  is_discarded E (l_surface st) = false ->
  is_currency (l_unit st) = false ->
  re_decade E (l_surface st) = false ->
  u_dimensions (l_unit st) = [] ->
  correct E orig_text text item st = Raise IndexError.
Proof.
  intros Hd Hc Hdec Hdims. unfold correct, is_inch_preposition.
  rewrite Hd, Hc, Hdec, Hdims. reflexivity.
Qed.

End ParseLoop.

(** C1: [parse] returns normally on every input, also when the literal of
    the first match is malformed and when a unit has no dimensions. The code
    does not: on the text "3x10^5 m", whose only match has the literal
    "3x10^5" (rewritten to "3e^5", which [float] rejects), [uncert] is still
    unbound when [build_quantity] is called; and [build_quantity] on a unit
    with an empty dimension list raises [IndexError] at the inch guard. *)
Theorem parse_raises_on_malformed_first_literal :
  parse Demo.env Demo.malformed_text = Raise UnboundLocalError
  /\ build_quantity Demo.env (py "3") (py "3")
       {| m_groups := [Some (py "3"); None; Some (py "3")]; m_span := (0, 1) |}
       [Demo.of_Z 3]
       {| u_name := py "dimensionless"; u_surfaces := None;
          u_entity := Demo.entity "dimensionless" []; u_uri := None;
          u_symbols := None; u_dimensions := [] |}
       (py "3") (0, 1) None
     = Raise IndexError.
Proof. split; vm_compute; reflexivity. Qed.

(** C2: a match whose literal is malformed emits nothing and never uses the
    values of an earlier match. The code does: on "2 m and 3x10^5 s" the
    second match, whose literal [get_values] rejects, is emitted with the
    value 2.0 of the first. *)
Theorem parse_reuses_stale_values :
  exists q1 q2,
    parse Demo.env Demo.stale_text = Ok [q1; q2]
    /\ map (get_values Demo.env) (REG_DIM_finditer Demo.env Demo.stale_text)
       = [Ok (None, [Demo.of_Z 2]); Raise ValueError]
    /\ q_surface q1 = py "2 m" /\ q_value q1 = Demo.of_Z 2
    /\ q_surface q2 = py "3x10^5 s" /\ q_value q2 = Demo.of_Z 2
    /\ q_unit q2 = Demo.second.
Proof.
  do 2 eexists. split; [vm_compute; reflexivity|].
  repeat split; vm_compute; reflexivity.
Qed.

(** C4: every span of [parse] is a sub-range of the input. The code breaks
    this in the currency-suffix rule, which looks for the surface followed
    by K, M, B or T anywhere in the text: on "$3T and $3", of length 10, the
    second match "$3" at (8, 10) finds the "T" of the first and is given the
    span (8, 11). *)
Theorem parse_span_beyond_input :
  exists qs,
    parse Demo.env Demo.currency_text = Ok qs
    /\ map q_span qs = [(0, 3); (8, 11)]
    /\ map q_surface qs = [py "$3T"; py "$3T"]
    /\ len Demo.currency_text = 10.
Proof.
  eexists. split; [vm_compute; reflexivity|].
  repeat split; vm_compute; reflexivity.
Qed.

(** ** [inline_parse] *)

Lemma slice_in_range {A} (s : list A) (i j : Z) :
  0 <= i -> i <= j -> j <= len s ->
  slice s i j = take (Z.to_nat (j - i)) (drop (Z.to_nat i) s).
Proof.
  intros Hi Hij Hj. unfold slice, clamp, len in *.
  destruct (Z.ltb_spec i 0), (Z.ltb_spec j 0); try lia.
  by rewrite !Z.min_l by lia.
Qed.

Lemma slice_from_in_range {A} (s : list A) (i : Z) :
  0 <= i -> slice_from s i = drop (Z.to_nat i) s.
Proof.
  intros Hi. unfold slice_from, clamp, len.
  destruct (Z.ltb_spec i 0); [lia|].
  destruct (Z.le_gt_cases i (Z.of_nat (length s))).
  - by rewrite Z.min_l by lia.
  - rewrite Z.min_r by lia. rewrite !drop_ge; [done|lia|lia].
Qed.

Section Inline.
Context (E : Env).

Lemma inline_step_sublist st q :
  fst st `sublist_of` fst (inline_step E st q).
Proof.
  destruct st as [text sh]. cbn [inline_step fst].
  rewrite <- (slice_split text (snd (q_span q) + sh)) at 1.
  apply sublist_app; [done|]. by apply sublist_inserts_l.
Qed.

Lemma inline_step_len st q :
  len (fst (inline_step E st q)) = len (fst st) + len (to_add E q).
Proof.
  destruct st as [text sh]. cbn [inline_step fst].
  rewrite <- (slice_split text (snd (q_span q) + sh)) at 3.
  rewrite !len_app. lia.
Qed.

Lemma inline_loop_sublist parsed : forall st,
  fst st `sublist_of` fst (foldl (inline_step E) st parsed).
Proof.
  induction parsed as [|q parsed IH]; intros st; [done|]. simpl.
  etrans; [apply (inline_step_sublist st q)|apply IH].
Qed.

Lemma inline_loop_len parsed : forall st,
  len (fst (foldl (inline_step E) st parsed))
  = len (fst st) + foldr (fun q acc => len (to_add E q) + acc) 0 parsed.
Proof.
  induction parsed as [|q parsed IH]; intros st; simpl; [lia|].
  rewrite IH, inline_step_len. lia.
Qed.

(** One insertion, on a text already annotated up to [pos]: [done] is the
    annotated part, [shift] the length of the insertions so far. *)
Lemma inline_step_interleave text done pos shift q :
  0 <= pos -> pos <= snd (q_span q) -> snd (q_span q) <= len text ->
  len done = pos + shift ->
  inline_step E (done ++ slice_from text pos, shift) q
  = ((done ++ slice text pos (snd (q_span q)) ++ to_add E q)
     ++ slice_from text (snd (q_span q)),
     shift + len (to_add E q)).
Proof.
  intros Hpos Hpe HeT Hdone. unfold inline_step. f_equal.
  set (e := snd (q_span q)) in *.
  assert (Hrest : len (slice_from text pos) = len text - pos)
    by (apply len_slice_from; lia).
  pose proof (len_nonneg done) as Hnn.
  rewrite (slice_in_range (done ++ slice_from text pos) 0 (e + shift))
    by (rewrite ?len_app; lia).
  rewrite (slice_from_in_range (done ++ slice_from text pos) (e + shift))
    by lia.
  rewrite (slice_from_in_range text pos), (slice_from_in_range text e) by lia.
  rewrite Z.sub_0_r. change (Z.to_nat 0) with O. rewrite drop_0.
  unfold len in Hdone, Hnn.
  rewrite take_app_ge, drop_app_ge by lia.
  rewrite drop_drop, (slice_in_range text pos e) by lia.
  rewrite <- !app_assoc. do 2 f_equal.
  - f_equal. lia.
  - do 2 f_equal. lia.
Qed.

Lemma inline_loop_interleave text parsed : forall done pos shift,
  0 <= pos -> pos <= len text ->
  len done = pos + shift ->
  ends_ascending E pos (len text) parsed ->
  fst (foldl (inline_step E) (done ++ slice_from text pos, shift) parsed)
  = done ++ interleave E text pos parsed.
Proof.
  induction parsed as [|q parsed IH]; intros done pos shift Hpos HpT Hdone Hasc.
  - done.
  - destruct Hasc as [[Hpe HeT] Hasc]. cbn [foldl interleave].
    rewrite inline_step_interleave by done.
    rewrite IH; [by rewrite <- !app_assoc|lia|lia| |done].
    rewrite !len_app, len_slice by lia. lia.
Qed.

(** C9: the text that [inline_parse] returns contains the input as a
    subsequence: it is the input with the annotation of every parsed
    quantity inserted, each at its span end plus the length of the earlier
    insertions, and nothing removed, so its length is the length of the
    input plus the lengths of the annotations; where the span ends are in
    ascending order inside the input, each annotation stands right after
    the end of its quantity's span. *)
Theorem inline_parse_keeps_text (text out : str) :
  inline_parse E text = Ok out ->
  text `sublist_of` out
  /\ exists parsed,
       parse E text = Ok parsed
       /\ out = fst (foldl (inline_step E) (text, 0) parsed)
       /\ len out
          = len text + foldr (fun q acc => len (to_add E q) + acc) 0 parsed
       /\ (ends_ascending E 0 (len text) parsed ->
           out = interleave E text 0 parsed).
Proof.
  unfold inline_parse. destruct (parse E text) as [parsed|e]; [|done].
  simpl. intros [= <-]. unfold annotate. split.
  - apply (inline_loop_sublist parsed (text, 0)).
  - exists parsed. split; [done|]. split; [done|]. split.
    + apply (inline_loop_len parsed (text, 0)).
    + intros Hasc.
      pose proof (inline_loop_interleave text parsed [] 0 0) as H.
      rewrite slice_from_in_range in H by lia. cbn in H.
      apply H; [lia|apply len_nonneg|done|done].
Qed.

(** C10: where [parse] finds no quantity, [inline_parse] returns the input
    unchanged. *)
Theorem inline_parse_nothing_found (text : str) :
  parse E text = Ok [] -> inline_parse E text = Ok text.
Proof. intros H. unfold inline_parse. rewrite H. reflexivity. Qed.

End Inline.

Lemma inline_parse_keeps_text_witness :
  inline_parse Demo.env Demo.spelled_text
  = Ok (Demo.spelled_text ++ py " {Quantity(125, " ++ [34%N] ++ py "metre"
        ++ [34%N] ++ py ")}")
  /\ Demo.spelled_text
     `sublist_of` Demo.spelled_text ++ py " {Quantity(125, " ++ [34%N]
        ++ py "metre" ++ [34%N] ++ py ")}".
Proof.
  assert (H : inline_parse Demo.env Demo.spelled_text
    = Ok (Demo.spelled_text ++ py " {Quantity(125, " ++ [34%N] ++ py "metre"
          ++ [34%N] ++ py ")}"))
    by (vm_compute; reflexivity).
  split; [exact H|].
  exact (proj1 (inline_parse_keeps_text Demo.env _ _ H)).
Defined.

Lemma inline_parse_nothing_found_witness :
  parse Demo.env (py "no number here") = Ok []
  /\ inline_parse Demo.env (py "no number here") = Ok (py "no number here").
Proof.
  assert (H : parse Demo.env (py "no number here") = Ok [])
    by (vm_compute; reflexivity).
  split; [exact H|].
  exact (inline_parse_nothing_found Demo.env _ H).
Defined.

(** ** Spelled-out numbers *)

Lemma elem_of_insert_by {A K} (leb : K -> K -> bool) (key : A -> K) x y l :
  x ∈ insert_by leb key y l <-> x = y \/ x ∈ l.
Proof.
  induction l as [|z l IH]; simpl.
  - rewrite list_elem_of_singleton, elem_of_nil. tauto.
  - destruct (leb (key y) (key z)).
    + rewrite !elem_of_cons. tauto.
    + rewrite !elem_of_cons, IH. tauto.
Qed.

Lemma elem_of_sorted_by {A K} (leb : K -> K -> bool) (key : A -> K) x l :
  x ∈ sorted_by leb key l <-> x ∈ l.
Proof.
  unfold sorted_by. induction l as [|y l IH]; simpl; [done|].
  rewrite elem_of_insert_by, IH, elem_of_cons. tauto.
Qed.

Section Spellout.
Context (E : Env).

Lemma scale_increment_resolves word token :
  resolves E word token -> scale_increment E word = Ok token.
Proof.
  intros [w x Hx|w scale increment Hx Hw]; unfold scale_increment.
  - by rewrite Hx.
  - by rewrite Hx, Hw.
Qed.

Lemma spellout_step_accumulate acc word token :
  resolves E word token ->
  spellout_step E acc word = Ok (accumulate E acc token).
Proof.
  intros Hw. destruct acc as [curr result], token as [scale increment].
  unfold spellout_step, accumulate.
  rewrite (scale_increment_resolves _ _ Hw). cbn.
  by destruct (100 <? scale).
Qed.

Lemma spellout_loop_accumulate words : forall tokens acc,
  Forall2 (resolves E) words tokens ->
  for_each (spellout_step E) words acc
  = Ok (foldl (accumulate E) acc tokens).
Proof.
  induction words as [|w words IH]; intros tokens acc Hres.
  - by inversion Hres.
  - inversion Hres as [|? token ? tokens' Hw Hws]; subst.
    cbn [for_each foldl].
    rewrite (spellout_step_accumulate _ _ _ Hw). cbn [mbind res_bind].
    by apply IH.
Qed.

Lemma spellout_value_spelled surface tokens :
  Forall2 (resolves E) (split_ws surface) tokens ->
  spellout_value E surface = Ok (spelled_value E tokens).
Proof.
  intros Hres. unfold spellout_value, spelled_value.
  rewrite (spellout_loop_accumulate _ _ _ Hres). cbn [mbind res_bind].
  by destruct (foldl _ _ _).
Qed.

Lemma spellout_item_grows values item values' :
  spellout_item E values item = Ok values' ->
  forall v, v ∈ values -> v ∈ values'.
Proof.
  unfold spellout_item.
  destruct (clean_surface E _ _) as [[[surface span]|]|e]; cbn [mbind res_bind];
    [|by intros [= <-]|done].
  destruct (str_in _ _); [by intros [= <-]|].
  destruct (spellout_value E surface) as [x|e]; cbn [mbind res_bind]; [|done].
  intros [= <-] v Hv. apply elem_of_app. by left.
Qed.

Lemma spellout_loop_grows items : forall values values',
  for_each (spellout_item E) items values = Ok values' ->
  forall v, v ∈ values -> v ∈ values'.
Proof.
  induction items as [|item items IH]; intros values values' H v Hv.
  - by injection H as <-.
  - cbn [for_each] in H.
    destruct (spellout_item E values item) as [values1|e] eqn:H1;
      cbn [mbind res_bind] in H; [|done].
    eapply IH; [exact H|]. by eapply spellout_item_grows.
Qed.

Lemma spellout_loop_converts items item surface span x : forall values values',
  item ∈ items ->
  clean_surface E (group_str item 0) (m_span item) = Ok (Some (surface, span)) ->
  str_in (lower surface) (r_SCALES E) = false ->
  spellout_value E surface = Ok x ->
  for_each (spellout_item E) items values = Ok values' ->
  {| old_surface := surface; old_span := span;
     new_surface := str_float E x |} ∈ values'.
Proof.
  induction items as [|item' items IH]; intros values values' Hin Hc Hs Hx H.
  - by apply elem_of_nil in Hin.
  - cbn [for_each] in H.
    destruct (spellout_item E values item') as [values1|e] eqn:H1;
      cbn [mbind res_bind] in H; [|done].
    apply elem_of_cons in Hin as [<-|Hin].
    + eapply spellout_loop_grows; [exact H|].
      unfold spellout_item in H1. rewrite Hc in H1. cbn [mbind res_bind] in H1.
      rewrite Hs, Hx in H1. cbn [mbind res_bind] in H1.
      injection H1 as <-. apply elem_of_app. right. by apply list_elem_of_singleton.
    + by eapply IH.
Qed.

Lemma comma_loop_grows items : forall values v,
  v ∈ values -> v ∈ foldl comma_item values items.
Proof.
  induction items as [|item items IH]; intros values v Hv; [done|].
  simpl. apply IH. unfold comma_item. apply elem_of_app. by left.
Qed.

(** C7: the replacement value of a trimmed spelled-number residue. For a
    candidate of the spelled-number pattern whose residue after
    [clean_surface] is kept (not empty, not a bare scale word) and whose
    whitespace tokens resolve (a digit literal with scale 1, any other word
    through the number-word table), the record that
    [extract_spellout_values] returns for it carries [str] of the value
    computed with the two accumulators [curr] and [result]: both start at 0,
    each token sets [curr = curr * scale + increment] and flushes [curr] into
    [result] when its scale exceeds 100, and the value is [result + curr]. *)
Theorem extract_spellout_values_converts (text : str) (item : Match)
  (surface : str) (span : Span) (tokens : list (Z * pyfloat E))
  (values : list Replacement) :
  item ∈ REG_TXT_finditer E text ->
  clean_surface E (group_str item 0) (m_span item) = Ok (Some (surface, span)) ->
  str_in (lower surface) (r_SCALES E) = false ->
  Forall2 (resolves E) (split_ws surface) tokens ->
  extract_spellout_values E text = Ok values ->
  spellout_value E surface = Ok (spelled_value E tokens)
  /\ {| old_surface := surface; old_span := span;
        new_surface := str_float E (spelled_value E tokens) |} ∈ values.
Proof.
  intros Hin Hc Hs Hres H.
  pose proof (spellout_value_spelled _ _ Hres) as Hx.
  split; [exact Hx|].
  unfold extract_spellout_values in H.
  destruct (for_each (spellout_item E) _ _) as [values1|e] eqn:H1;
    cbn [mbind res_bind] in H; [|done].
  injection H as <-. apply elem_of_sorted_by. apply comma_loop_grows.
  by eapply spellout_loop_converts.
Qed.

End Spellout.

Lemma extract_spellout_values_converts_witness :
  let E := Demo.env in
  let surface := py "one hundred and twenty five" in
  let tokens := [(1, float_of_int E 1); (100, float_of_int E 0);
                 (1, float_of_int E 0); (1, float_of_int E 20);
                 (1, float_of_int E 5)] in
  let v := {| old_surface := surface; old_span := (0, 27);
              new_surface := py "125.0" |} in
  extract_spellout_values E Demo.spelled_text = Ok [v]
  /\ str_float E (spelled_value E tokens) = py "125.0"
  /\ spellout_value E surface = Ok (spelled_value E tokens)
  /\ {| old_surface := surface; old_span := (0, 27);
        new_surface := str_float E (spelled_value E tokens) |} ∈ [v].
Proof.
  intros E surface tokens v.
  pose (item := {| m_groups := [Some (py "one hundred and twenty-five")];
                   m_span := (0, 27) |}).
  assert (Hin : item ∈ REG_TXT_finditer E Demo.spelled_text)
    by (vm_compute; left).
  assert (Hc : clean_surface E (group_str item 0) (m_span item)
               = Ok (Some (surface, (0, 27))))
    by (vm_compute; reflexivity).
  assert (Hs : str_in (lower surface) (r_SCALES E) = false)
    by (vm_compute; reflexivity).
  assert (Hwords : split_ws surface
            = [py "one"; py "hundred"; py "and"; py "twenty"; py "five"])
    by (vm_compute; reflexivity).
  assert (Hres : Forall2 (resolves E) (split_ws surface) tokens).
  { rewrite Hwords. unfold tokens.
    constructor;
      [apply (resolves_numword E _ 1 1); vm_compute; reflexivity|].
    constructor;
      [apply (resolves_numword E _ 100 0); vm_compute; reflexivity|].
    constructor;
      [apply (resolves_numword E _ 1 0); vm_compute; reflexivity|].
    constructor;
      [apply (resolves_numword E _ 1 20); vm_compute; reflexivity|].
    constructor;
      [apply (resolves_numword E _ 1 5); vm_compute; reflexivity|].
    constructor. }
  assert (H : extract_spellout_values E Demo.spelled_text = Ok [v])
    by (vm_compute; reflexivity).
  split; [exact H|]. split; [vm_compute; reflexivity|].
  exact (extract_spellout_values_converts E _ item surface (0, 27)
           tokens _ Hin Hc Hs Hres H).
Defined.

(** ** The slash flag of [get_unit] *)

Lemma startswith_prefix s : forall w,
  startswith s w = true <-> exists b, s = w ++ b.
Proof.
  induction s as [|d s IH]; intros [|c w]; cbn [startswith].
  - split; [by exists []|done].
  - split; [done|]. by intros (b & ?).
  - split; [by eexists|done].
  - rewrite andb_true_iff, IH. split.
    + intros [Hc (b & ->)]. apply N.eqb_eq in Hc as ->. by exists b.
    + intros (b & [= -> ->]). split; [apply N.eqb_refl|by exists b].
Qed.

(** [w in s] holds exactly when [w] occurs in [s]. *)
Lemma contains_occurs w s : contains s w = true <-> occurs w s.
Proof.
  unfold occurs. induction s as [|d s IH]; cbn [contains].
  - rewrite orb_false_r, startswith_prefix. split.
    + intros (b & ->). by exists [], b.
    + intros (a & b & H). destruct a as [|x a]; [by exists b|done].
  - rewrite orb_true_iff, startswith_prefix, IH. split.
    + intros [(b & ->)|(a & b & ->)]; [by exists [], b|by exists (d :: a), b].
    + intros (a & b & H). destruct a as [|x a].
      * left. by exists b.
      * right. injection H as -> ->. by exists a, b.
Qed.

(** The test of the loop, [any(i in s for i in ['/', ' per '])], is the
    specified marker. *)
Lemma is_division_marks s : is_division s = marks_division s.
Proof.
  unfold is_division, marks_division. cbn [existsb].
  by rewrite orb_false_r.
Qed.

Section GetUnit.
Context (E : Env).

Lemma flag_after_snoc item done g :
  flag_after item (done ++ [g])
  = flag_after item done
    || (negb (existsb (Nat.eqb g) group_units) && divides item g).
Proof.
  unfold flag_after. rewrite List.filter_app, existsb_app. f_equal.
  cbn [List.filter]. destruct (negb _); cbn; [apply orb_false_r|done].
Qed.

Lemma unit_step_flag item text dims done g :
  unit_step E item text (dims, flag_after item done) g
  = if existsb (Nat.eqb g) group_units && truthy (group item g)
    then d ← unit_dimension E item text g (flag_after item done);
         Ok (dims ++ [d], flag_after item (done ++ [g]))
    else Ok (dims, flag_after item (done ++ [g])).
Proof.
  rewrite flag_after_snoc. unfold unit_step, divides, unit_dimension.
  rewrite is_division_marks.
  destruct (truthy (group item g)); cbn [negb andb].
  - destruct (existsb (Nat.eqb g) group_units); cbn [negb andb].
    + rewrite orb_false_r.
      destruct (parse_unit E item g _) as [[surface p]|e]; cbn; [|done].
      destruct (USE_CLF E).
      * destruct (disambiguate_unit E surface text); cbn; done.
      * destruct (l_UNITS E surface) as [[|u us]|]; cbn; done.
    + destruct (flag_after item done); cbn; done.
  - rewrite !andb_false_r, orb_false_r. done.
Qed.

Lemma unit_loop_flagged item text gs : forall done dims,
  for_each (unit_step E item text) gs (dims, flag_after item done)
  = ds ← map_res (fun gf => unit_dimension E item text (fst gf) (snd gf))
                 (flagged item done gs);
    Ok (dims ++ ds, flag_after item (done ++ gs)).
Proof.
  induction gs as [|g gs IH]; intros done dims.
  - cbn. by rewrite !app_nil_r.
  - cbn [for_each flagged]. rewrite unit_step_flag.
    replace (done ++ g :: gs) with ((done ++ [g]) ++ gs)
      by (by rewrite <- app_assoc).
    destruct (existsb (Nat.eqb g) group_units && truthy (group item g)).
    + cbn [map_res fst snd].
      destruct (unit_dimension E item text g _) as [d|e]; cbn; [|done].
      rewrite IH.
      destruct (map_res _ _) as [ds|e]; cbn; [|done].
      by rewrite <- app_assoc.
    + cbn. apply IH.
Qed.

(** On the group order of the source, the flag the loop holds at a unit
    group is the specified one. *)
Lemma flagged_sorted item :
  flagged item [] (sorted_by Nat.leb id (group_units ++ group_operators))
  = map (fun g => (g, slash_at item g))
        (List.filter (fun g => truthy (group item g)) group_units).
Proof.
  cbn -[truthy group divides slash_at].
  destruct (truthy (group item 1)), (truthy (group item 4)),
    (truthy (group item 6)), (truthy (group item 8)),
    (truthy (group item 10)); reflexivity.
Qed.

Lemma map_res_map {A B C} (f : B -> res C) (g : A -> B) l :
  map_res f (map g l) = map_res (fun a => f (g a)) l.
Proof. induction l as [|a l IH]; cbn; [done|]. by rewrite IH. Qed.

Lemma parse_unit_negated item g :
  parse_unit E item g true
  = sp ← parse_unit E item g false; Ok (fst sp, - snd sp).
Proof.
  unfold parse_unit. destruct (re_power E _); cbn.
  - destruct (re_cubed E _); cbn; [|done].
    destruct (re_squared E _); cbn; done.
  - destruct (py_int E _) as [n|e]; cbn; [|done].
    by destruct n.
Qed.

(** C5: the slash flag of unit extraction. The loop of [get_unit] starts
    with the flag false and yields, for the unit-surface groups that took part
    in left-to-right order, the dimension of each under the flag "some
    operator group to its left holds a division marker" (so a group that is
    not a division marker never changes it, and once set it stays set), where
    a group holds a division marker exactly when it took part in the match
    and "/" or " per " occurs in its text; under a set flag [parse_unit]
    returns the negated power; and with no unit-surface group the unit is the
    canonical dimensionless one. *)
Theorem get_unit_slash_flag (item : Match) (text : str) :
  for_each (unit_step E item text)
           (sorted_by Nat.leb id (group_units ++ group_operators)) ([], false)
  = (dims ← slash_dimensions E item text; Ok (dims, slash_at item 11))
  /\ slash_at item 1 = false
  /\ (forall g, divides item g = true
                <-> truthy (group item g) = true
                    /\ (occurs (py "/") (group_str item g)
                        \/ occurs (py " per ") (group_str item g)))
  /\ (forall g, parse_unit E item g true
                = sp ← parse_unit E item g false; Ok (fst sp, - snd sp))
  /\ get_unit E item text
     = if forallb (fun g => negb (truthy (group item g))) group_units
       then getitem (l_NAMES E (py "dimensionless"))
       else dims ← slash_dimensions E item text;
            get_unit_from_dimensions E dims text.
Proof.
  assert (Hloop :
    for_each (unit_step E item text)
             (sorted_by Nat.leb id (group_units ++ group_operators)) ([], false)
    = (dims ← slash_dimensions E item text; Ok (dims, slash_at item 11))).
  { change false with (flag_after item []) at 1.
    rewrite unit_loop_flagged, flagged_sorted, map_res_map.
    unfold slash_dimensions. cbn [fst snd].
    destruct (map_res _ _); reflexivity. }
  split; [exact Hloop|]. split; [reflexivity|].
  split.
  { intros g. unfold divides, marks_division.
    by rewrite andb_true_iff, orb_true_iff, !contains_occurs. }
  split; [intros g; apply parse_unit_negated|].
  unfold get_unit. rewrite Hloop. unfold slash_dimensions.
  cbn -[truthy group divides slash_at unit_dimension].
  destruct (truthy (group item 1)), (truthy (group item 4)),
    (truthy (group item 6)), (truthy (group item 8)),
    (truthy (group item 10)); cbn; try reflexivity;
    repeat (match goal with
            | |- context [unit_dimension E item text ?g ?f] =>
                destruct (unit_dimension E item text g f); cbn
            end); reflexivity.
Qed.

End GetUnit.

Lemma get_unit_slash_flag_witness :
  let item := {| m_groups := [Some (py "3 m/s"); None; Some (py "3"); None;
                              Some (py "m"); Some (py "/"); Some (py "s")];
                 m_span := (0, 5) |} in
  for_each (unit_step Demo.env item (py "3 m/s"))
           (sorted_by Nat.leb id (group_units ++ group_operators)) ([], false)
  = Ok ([{| base := py "metre"; power := 1 |};
         {| base := py "second"; power := -1 |}], true)
  /\ divides item 5 = true
  /\ occurs (py "/") (group_str item 5)
  /\ slash_at item 4 = false
  /\ slash_at item 6 = true.
Proof.
  intros item.
  destruct (get_unit_slash_flag Demo.env item (py "3 m/s"))
    as (Hloop & _ & Hdiv & _).
  assert (Hd : divides item 5 = true) by (vm_compute; reflexivity).
  split; [rewrite Hloop; vm_compute; reflexivity|].
  split; [exact Hd|].
  split.
  - destruct (proj1 (Hdiv 5%nat) Hd) as [_ [Hslash|Hper]]; [exact Hslash|].
    destruct Hper as (a & b & Hper). exfalso.
    vm_compute in Hper. by destruct a as [|x [|y a]].
  - split; vm_compute; reflexivity.
Defined.

(** ** [str.split] on a literal with one separator *)

Lemma startswith_app w s : startswith (w ++ s) w = true.
Proof.
  induction w as [|c w IH]; cbn; [by destruct s|]. by rewrite N.eqb_refl.
Qed.

Lemma split_go_before c sep a : forall rest cur,
  c ∉ a ->
  split_sep_go (c :: sep) (a ++ rest) O cur
  = split_sep_go (c :: sep) rest O (rev a ++ cur).
Proof.
  induction a as [|x a IH]; intros rest cur Hc; [done|].
  apply not_elem_of_cons in Hc as [Hx Ha].
  cbn [app split_sep_go startswith].
  destruct (N.eqb_spec c x) as [->|_]; [done|]. cbn [andb].
  rewrite IH by done. cbn [rev]. by rewrite <- app_assoc.
Qed.

Lemma split_go_skip sep x : forall rest cur,
  split_sep_go sep (x ++ rest) (length x) cur = split_sep_go sep rest O cur.
Proof.
  induction x as [|y x IH]; intros rest cur; [done|]. cbn. apply IH.
Qed.

Lemma split_go_after sep b : forall cur,
  sep <> [] ->
  contains b sep = false ->
  split_sep_go sep b O cur = [rev cur ++ b].
Proof.
  induction b as [|x b IH]; intros cur Hsep Hb.
  - cbn. by rewrite app_nil_r.
  - cbn [contains] in Hb. apply orb_false_elim in Hb as [Hs Hb].
    cbn [split_sep_go]. rewrite Hs, IH by done.
    cbn [rev]. by rewrite <- app_assoc.
Qed.

(** A literal [a sep b] with no other place for the separator is cut in
    two. *)
Lemma split_sep_two a b c sep :
  c ∉ a ->
  contains b (c :: sep) = false ->
  split_sep (a ++ (c :: sep) ++ b) (c :: sep) = [a; b].
Proof.
  intros Ha Hb. unfold split_sep.
  rewrite split_go_before by done. rewrite app_nil_r.
  cbn [app split_sep_go]. 
  change (c :: sep ++ b) with ((c :: sep) ++ b).
  rewrite startswith_app. cbn [length Nat.pred].
  rewrite split_go_skip, split_go_after by done.
  by rewrite rev_involutive.
Qed.

(** ** [get_values] *)

(** [re.sub(r'-$', '', s)] drops the trailing dangling hyphen. *)
Lemma sub_dangling_hyphen_stripped s :
  hyphen_stripped s (sub_dangling_hyphen s).
Proof.
  unfold sub_dangling_hyphen.
  assert (Hs : s = rev (rev s)) by (by rewrite rev_involutive).
  destruct (rev s) as [|c r] eqn:Hrev.
  { cbn in Hs. subst s. apply stripped_none; intros [|? ?]; done. }
  assert (Hnone : forall c0 r0, rev s = c0 :: r0 ->
            c0 <> 45%N ->
            (c0 = 10%N -> forall r1, r0 <> 45%N :: r1) ->
            hyphen_stripped s s).
  { intros c0 r0 H0 H45 H10. apply stripped_none; intros r1 Hr1.
    - rewrite Hr1, rev_app_distr in H0. cbn in H0. congruence.
    - rewrite Hr1, rev_app_distr in H0. cbn in H0.
      injection H0 as <- <-. by eapply H10. }
  destruct (N.eqb_spec c 45) as [->|H45].
  { rewrite Hs. cbn [rev]. apply stripped_end. }
  destruct (N.eqb_spec c 10) as [->|H10].
  - destruct r as [|d r].
    { by apply (Hnone _ _ Hrev). }
    destruct (N.eqb_spec d 45) as [->|Hd].
    + rewrite Hs. cbn [rev]. rewrite <- app_assoc. apply stripped_before_newline.
    + assert (Hkeep : hyphen_stripped s s).
      { apply (Hnone _ _ Hrev); [done|]. intros _ r1 [= ? _]. done. }
      clear -Hkeep Hd.
      repeat match goal with
             | |- context [match ?x with _ => _ end] => is_var x; destruct x
             end; done.
  - assert (Hkeep : hyphen_stripped s s).
    { apply (Hnone _ _ Hrev); [done|]. intros ?. done. }
    clear -Hkeep H45 H10.
    repeat match goal with
           | |- context [match ?x with _ => _ end] => is_var x; destruct x
           end; done.
Qed.

Lemma map_res_Forall2 {A B} (f : A -> res B) l : forall l',
  map_res f l = Ok l' -> Forall2 (fun a b => f a = Ok b) l l'.
Proof.
  induction l as [|a l IH]; intros l'; cbn [map_res].
  - intros [= <-]. constructor.
  - destruct (f a) as [b|e] eqn:Ha; cbn [mbind res_bind]; [|done].
    destruct (map_res f l) as [bs|e]; cbn [mbind res_bind]; [|done].
    intros [= <-]. constructor; [done|by apply IH].
Qed.

Section GetValues.
Context (E : Env).

Lemma py_float_stripped literal x :
  py_float E (sub_dangling_hyphen literal) = Ok x ->
  stripped_float E literal x.
Proof.
  intros H. exists (sub_dangling_hyphen literal).
  split; [apply sub_dangling_hyphen_stripped|done].
Qed.

Lemma map_res_nonempty {A B} (f : A -> res B) l l' :
  map_res f l = Ok l' -> l <> [] -> l' <> [].
Proof.
  destruct l as [|a l]; [done|]. cbn.
  destruct (f a); cbn; [|done]. destruct (map_res f l); cbn; [|done].
  by intros [= <-].
Qed.

Lemma split_sep_go_nonempty sep s : forall skip cur,
  split_sep_go sep s skip cur <> [].
Proof.
  induction s as [|c s IH]; intros skip cur; [done|].
  destruct skip; [|cbn; apply IH].
  destruct (startswith (c :: s) sep) eqn:Hs.
  - cbn [split_sep_go] in *. unfold split_sep_go; fold split_sep_go.
    rewrite Hs. done.
  - unfold split_sep_go; fold split_sep_go. rewrite Hs. apply IH.
Qed.

Lemma get_values_classified item uncertainty values :
  get_values E item = Ok (uncertainty, values) ->
  literal_result E (normalized_literal E item)
                 (classify E (normalized_literal E item)) uncertainty values.
Proof.
  unfold get_values, classify, normalized_literal, group_str.
  destruct (group item 2) as [literal|];
    cbn [mbind res_bind default from_option id]; [|done].
  set (value := collapse_spaces (sub_fracs E (sub_multiplier E literal))).
  destruct (re_range_separator E value) as [|sep seps] eqn:Hr.
  - destruct (re_uncer_separator E value) as [|sep seps] eqn:Hu.
    + destruct (re_fract_separator E value) as [|sep seps] eqn:Hf.
      * cbn. destruct (py_float E _) as [v|e] eqn:Hv; cbn; [|done].
        intros [= <- <-]. split; [done|]. exists v.
        split; [by apply py_float_stripped|done].
      * unfold literal_result.
        destruct (split_ws value) as [|w0 [|w1 ws]] eqn:Hw.
        -- done.
        -- cbn. destruct (py_fraction E w0) as [f|e]; cbn; [|done].
           intros [= <- <-]. split; [done|]. by exists f.
        -- assert (Hlen : (1 <? len (w0 :: w1 :: ws)) = true)
             by (apply Z.ltb_lt; unfold len; cbn [length]; lia).
           rewrite Hlen. cbn.
           destruct (py_float E w0) as [w|e]; cbn; [|done].
           destruct (py_fraction E w1) as [f|e]; cbn; [|done].
           intros [= <- <-]. split; [done|]. by exists w, f.
    + cbn. destruct (py_split value sep) as [pieces|e] eqn:Hp; cbn; [|done].
      destruct (map_res (py_float E) pieces) as [[|base [|u rest]]|e] eqn:Hm;
        cbn; try done.
      intros [= <- <-]. exists sep, pieces, base, u, rest.
      rewrite Hu. by repeat split.
  - cbn. destruct (py_split value sep) as [pieces|e] eqn:Hp; cbn; [|done].
    destruct (map_res _ pieces) as [vs|e] eqn:Hm; cbn; [|done].
    intros [= <- <-]. split; [done|]. exists sep, pieces.
    rewrite Hr. split; [done|]. split; [done|].
    apply map_res_Forall2 in Hm.
    eapply Forall2_impl; [exact Hm|]. cbn. intros piece x.
    apply py_float_stripped.
Qed.

Lemma literal_result_nonempty value kind uncertainty values :
  literal_result E value kind uncertainty values -> values <> [].
Proof.
  destruct kind; cbn.
  - intros (_ & sep & pieces & _ & Hp & Hm).
    assert (Hpieces : pieces <> []).
    { unfold py_split in Hp. destruct sep; [done|]. injection Hp as <-.
      apply split_sep_go_nonempty. }
    destruct Hm; done.
  - by intros (? & ? & ? & ? & ? & _ & _ & _ & _ & ->).
  - intros (_ & H). destruct (split_ws value) as [|w0 [|w1 ws]]; [done| |].
    + by destruct H as (? & _ & ->).
    + by destruct H as (? & ? & _ & _ & ->).
  - by intros (_ & ? & _ & ->).
Qed.

Lemma literal_result_uncertainty value kind uncertainty values :
  literal_result E value kind uncertainty values ->
  is_Some uncertainty <-> kind = Uncertainty.
Proof.
  destruct kind; cbn.
  - intros (-> & _). split; [by intros [? ?]|done].
  - intros (? & ? & ? & ? & ? & _ & _ & _ & -> & _). split; [done|by eexists].
  - intros (-> & _). split; [by intros [? ?]|done].
  - intros (-> & _). split; [by intros [? ?]|done].
Qed.

(** C6: [get_values] classifies the rewritten literal in the priority order
    range separator, uncertainty separator, fraction, single float, and
    returns what that kind prescribes: for a range the floats of the pieces
    around the separator, each without a trailing hyphen (two floats for a
    literal of the shape [a sep b] with no other place for the separator);
    for an uncertainty the base value and the uncertainty; for a fraction
    the whole part, if any, plus the fraction; otherwise the literal without
    a trailing hyphen as one float. A trailing hyphen is a hyphen at the
    very end of the piece or right before its final line break. The
    uncertainty is set exactly in the uncertainty case, and the values are
    never empty. *)
Theorem get_values_priority (item : Match) (uncertainty : option (pyfloat E))
  (values : list (pyfloat E)) :
  get_values E item = Ok (uncertainty, values) ->
  let value := normalized_literal E item in
  literal_result E value (classify E value) uncertainty values
  /\ values <> []
  /\ (is_Some uncertainty <-> classify E value = Uncertainty)
  /\ forall a b c sep,
       value = a ++ (c :: sep) ++ b ->
       head (re_range_separator E value) = Some (c :: sep) ->
       c ∉ a ->
       contains b (c :: sep) = false ->
       exists x y,
         stripped_float E a x /\ stripped_float E b y /\ values = [x; y].
Proof.
  intros H value. pose proof (get_values_classified _ _ _ H) as Hres.
  fold value in Hres.
  split; [exact Hres|]. split; [by eapply literal_result_nonempty|].
  split; [by eapply literal_result_uncertainty|].
  intros a b c sep Hval Hsep Ha Hb.
  unfold classify in Hres.
  destruct (re_range_separator E value) as [|sep' seps] eqn:Hr; [done|].
  cbn in Hsep. injection Hsep as ->. cbn in Hres.
  destruct Hres as (_ & sep' & pieces & Hs & Hp & Hm).
  rewrite Hr in Hs. cbn in Hs. injection Hs as <-.
  cbn in Hp. injection Hp as <-.
  rewrite Hval, split_sep_two in Hm by done.
  inversion Hm as [|? x ? vs Ha' Hrest]; subst.
  inversion Hrest as [|? y ? vs' Hb' Hnil]; subst.
  inversion Hnil; subst. by exists x, y.
Qed.

End GetValues.

Lemma get_values_priority_witness :
  let E := Demo.env in
  let range_item := {| m_groups := [None; None; Some (py "10 to 20")];
                       m_span := (0, 8) |} in
  let uncer_item := {| m_groups := [None; None; Some (py "4.5 +/- 0.1")];
                       m_span := (0, 11) |} in
  let hyphen_item := {| m_groups := [None; None; Some (py "3-")];
                        m_span := (0, 2) |} in
  get_values E range_item = Ok (None, [Demo.of_Z 10; Demo.of_Z 20])
  /\ get_values E uncer_item
     = Ok (Some (Demo.decimal 1 1), [Demo.decimal 45 1])
  /\ classify E (normalized_literal E range_item) = Range
  /\ classify E (normalized_literal E uncer_item) = Uncertainty
  /\ [Demo.of_Z 10; Demo.of_Z 20] <> []
  /\ is_Some (Some (Demo.decimal 1 1))
  /\ get_values E hyphen_item = Ok (None, [Demo.of_Z 3])
  /\ hyphen_stripped (py "3-") (py "3")
  /\ exists v, stripped_float E (normalized_literal E hyphen_item) v
               /\ [Demo.of_Z 3] = [v].
Proof.
  intros E range_item uncer_item hyphen_item.
  assert (Hr : get_values E range_item
               = Ok (None, [Demo.of_Z 10; Demo.of_Z 20]))
    by (vm_compute; reflexivity).
  assert (Hu : get_values E uncer_item
               = Ok (Some (Demo.decimal 1 1), [Demo.decimal 45 1]))
    by (vm_compute; reflexivity).
  assert (Hkr : classify E (normalized_literal E range_item) = Range)
    by (vm_compute; reflexivity).
  assert (Hku : classify E (normalized_literal E uncer_item) = Uncertainty)
    by (vm_compute; reflexivity).
  destruct (get_values_priority E range_item _ _ Hr) as (_ & Hne & _ & _).
  destruct (get_values_priority E uncer_item _ _ Hu) as (_ & _ & Hsome & _).
  assert (Hh : get_values E hyphen_item = Ok (None, [Demo.of_Z 3]))
    by (vm_compute; reflexivity).
  assert (Hkh : classify E (normalized_literal E hyphen_item) = Single)
    by (vm_compute; reflexivity).
  destruct (get_values_priority E hyphen_item _ _ Hh) as (Hsingle & _).
  rewrite Hkh in Hsingle.
  split; [exact Hr|]. split; [exact Hu|]. split; [exact Hkr|].
  split; [exact Hku|]. split; [exact Hne|].
  split; [exact (proj2 Hsome Hku)|].
  split; [exact Hh|].
  split; [apply (stripped_end (py "3"))|].
  exact (proj2 Hsingle).
Defined.

(** ** [build_quantity] *)

Section BuildQuantity.
Context (E : Env).

Lemma correct_first_rule_wins orig_text text item st :
  correct E orig_text text item st = first_rule_wins E orig_text text item st.
Proof.
  unfold correct, first_rule_wins, rule_order.
  cbn [first_applicable applicable apply_rule mbind res_bind].
  destruct (is_discarded E (l_surface st)); [done|].
  destruct (is_currency (l_unit st)); [done|].
  destruct (re_decade E (l_surface st)); [done|].
  destruct (is_inch_preposition E st) as [[|]|e];
    cbn [mbind res_bind]; [done| |done].
  destruct (is_quote_artifact E text (m_span item)); [done|].
  destruct (is_time_count E st) as [[|]|e]; cbn [mbind res_bind]; done.
Qed.

Lemma emit_map st uncert :
  emit E st uncert = map (quantity_of E st uncert) (l_values st).
Proof.
  unfold emit.
  assert (Hgen : forall vs acc,
    foldl (fun objs value =>
             objs ++ [{| q_value := value; q_unit := l_unit st;
                         q_surface := l_surface st; q_span := l_span st;
                         q_uncertainty := uncert |}]) acc vs
    = acc ++ map (quantity_of E st uncert) vs).
  { induction vs as [|v vs IH]; intros acc; cbn; [by rewrite app_nil_r|].
    rewrite IH, <- app_assoc. done. }
  apply (Hgen (l_values st) []).
Qed.

Lemma map_res_length {A B} (f : A -> res B) l l' :
  map_res f l = Ok l' -> length l' = length l.
Proof.
  revert l'. induction l as [|a l IH]; intros l'; cbn.
  - by intros [= <-].
  - destruct (f a); cbn; [|done]. destruct (map_res f l); cbn; [|done].
    intros [= <-]. cbn. f_equal. by apply IH.
Qed.

(** The values are scaled one by one, by the multiplier of the suffix. *)
Lemma scale_values_map k values values' :
  scale_values E k values = Ok values' ->
  values' = values
  \/ exists m, r_SUFFIXES E k = Some m
               /\ values' = map (fun i => fmul E i m) values.
Proof.
  unfold scale_values. destruct (r_SUFFIXES E k) as [m|]; cbn.
  - intros H. right. exists m. split; [done|].
    revert values' H. induction values as [|v values IH]; intros values'; cbn.
    + by intros [= <-].
    + destruct (map_res _ values) as [vs|e]; cbn; [|done].
      intros [= <-]. f_equal. by apply IH.
  - destruct values; cbn; [|done]. intros [= <-]. by left.
Qed.

Lemma currency_rule_values orig_text st st' :
  currency_rule E orig_text st = Ok st' ->
  values_kept E (l_values st) (l_values st').
Proof.
  unfold currency_rule, values_kept.
  destruct (1 <? len (u_dimensions (l_unit st))).
  - destruct (re_suffix_tail E (l_surface st)) as [|suffix tails].
    { intros [= <-]. by left. }
    destruct (scale_values E (fst suffix) (l_values st)) as [vs|e] eqn:Hs;
      cbn; [|done].
    apply scale_values_map in Hs.
    assert (Hk : vs = l_values st
                 \/ exists m, vs = map (fun i => fmul E i m) (l_values st)).
    { destruct Hs as [->|(m & _ & ->)]; [by left|right; by exists m]. }
    destruct (u_dimensions (l_unit st)) as [|d0 ds]; cbn;
      [by intros [= <-]|].
    destruct (l_UNITS E (base d0)) as [[|u us]|]; cbn; [| |done].
    + by intros [= <-].
    + destruct (snd suffix); by intros [= <-].
  - destruct (re_suffix_after E (l_surface st) orig_text) as [|suffix tails].
    { intros [= <-]. by left. }
    destruct (scale_values E suffix (l_values st)) as [vs|e] eqn:Hs;
      cbn; [|done].
    apply scale_values_map in Hs. intros [= <-]. cbn.
    destruct Hs as [->|(m & _ & ->)]; [by left|right; by exists m].
Qed.

Lemma apply_rule_values orig_text st r st' :
  apply_rule E orig_text st r = Ok (Some st') ->
  values_kept E (l_values st) (l_values st').
Proof.
  destruct r; cbn.
  - done.
  - destruct (currency_rule E orig_text st) as [st1|e] eqn:Hc; cbn; [|done].
    intros [= <-]. by eapply currency_rule_values.
  - destruct (getitem _); cbn; [|done]. intros [= <-]. by left.
  - destruct (demoted_unit _ _ _); cbn; [|done]. intros [= <-]. by left.
  - destruct (demoted_unit _ _ _); cbn; [|done]. intros [= <-]. by left.
  - destruct (get_unit_from_dimensions _ _ _); cbn; [|done].
    intros [= <-]. by left.
Qed.

Lemma values_kept_length values values' :
  values_kept E values values' -> length values' = length values.
Proof. intros [->|(m & ->)]; [done|]. by rewrite length_map. Qed.

(** C8: [build_quantity] applies at most one correction rule, the first of
    discard, currency suffix, decade, inch/preposition, quote artifact and
    "time" whose guard holds. When it returns no list, that rule is the
    discard rule; otherwise it returns one quantity per parsed value, in the
    order of the values, all with the unit, surface and span the rule left
    and with the uncertainty it was given, each value kept or scaled by the
    multiplier of the currency suffix. *)
Theorem build_quantity_first_rule (orig_text text : str) (item : Match)
  (values : list (pyfloat E)) (unit : Unit) (surface : str) (span : Span)
  (uncert : option (pyfloat E)) (result : option (list (Quantity E))) :
  let st := {| l_values := values; l_unit := unit;
               l_surface := surface; l_span := span |} in
  build_quantity E orig_text text item values unit surface span uncert
  = Ok result ->
  correct E orig_text text item st = first_rule_wins E orig_text text item st
  /\ match result with
     | None =>
         first_applicable E text item st rule_order = Ok (Some Discard)
     | Some objs =>
         exists rule st',
           first_applicable E text item st rule_order = Ok rule
           /\ rule <> Some Discard
           /\ match rule with
              | Some r => apply_rule E orig_text st r = Ok (Some st')
              | None => st' = st
              end
           /\ values_kept E values (l_values st')
           /\ objs = map (quantity_of E st' uncert) (l_values st')
           /\ length objs = length values
     end.
Proof.
  intros st. unfold build_quantity. fold st.
  rewrite correct_first_rule_wins. intros H. split; [done|].
  unfold first_rule_wins in H.
  destruct (first_applicable E text item st rule_order) as [rule|e] eqn:Hr;
    cbn [mbind res_bind] in H; [|done].
  destruct rule as [r|].
  - destruct (apply_rule E orig_text st r) as [[st'|]|e] eqn:Ha;
      cbn [mbind res_bind] in H; [| |done].
    + injection H as <-. exists (Some r), st'.
      pose proof (apply_rule_values _ _ _ _ Ha) as Hk.
      split; [done|]. split; [by destruct r|]. split; [done|].
      split; [exact Hk|]. split; [apply emit_map|].
      rewrite emit_map, length_map. by apply values_kept_length.
    + injection H as <-. destruct r; cbn in Ha; try done.
      * destruct (currency_rule _ _ _); cbn in Ha; done.
      * destruct (getitem _); cbn in Ha; done.
      * destruct (demoted_unit _ _ _); cbn in Ha; done.
      * destruct (demoted_unit _ _ _); cbn in Ha; done.
      * destruct (get_unit_from_dimensions _ _ _); cbn in Ha; done.
  - cbn [mbind res_bind] in H. injection H as <-. exists None, st.
    split; [done|]. split; [done|]. split; [done|].
    split; [by left|]. split; [apply emit_map|].
    by rewrite emit_map, length_map.
Qed.

End BuildQuantity.

Lemma build_quantity_first_rule_witness :
  let E := Demo.env in
  let item := Demo.dim_match "$3" "$" "3" Demo.absent (8, 10) in
  let st := Build_Locals E [Demo.of_Z 3] Demo.dollar (py "$3") (8, 10) in
  build_quantity E Demo.currency_text Demo.currency_text item
                 [Demo.of_Z 3] Demo.dollar (py "$3") (8, 10) None
  = Ok (Some [Build_Quantity E (Demo.of_Z 3000000000000) Demo.dollar
                             (py "$3T") (8, 11) None])
  /\ first_applicable E Demo.currency_text item st (rule_order)
     = Ok (Some CurrencySuffix)
  /\ correct E Demo.currency_text Demo.currency_text item st
     = first_rule_wins E Demo.currency_text Demo.currency_text item st.
Proof.
  intros E item st.
  assert (H : build_quantity E Demo.currency_text Demo.currency_text item
                [Demo.of_Z 3] Demo.dollar (py "$3") (8, 10) None
    = Ok (Some [Build_Quantity E (Demo.of_Z 3000000000000) Demo.dollar
                               (py "$3T") (8, 11) None]))
    by (vm_compute; reflexivity).
  split; [exact H|]. split; [vm_compute; reflexivity|].
  exact (proj1 (build_quantity_first_rule E _ _ item _ _ _ _ _ _ H)).
Defined.

(** ** The [while found] loop of [clean_surface] ends *)

Lemma startswith_length s w : startswith s w = true -> (length w <= length s)%nat.
Proof.
  revert s. induction w as [|c w IH]; intros s; cbn; [lia|].
  destruct s as [|d s]; [done|]. cbn.
  intros [_ H]%andb_true_iff. apply IH in H. lia.
Qed.

Lemma length_lower s : length (lower s) = length s.
Proof. unfold lower. apply length_map. Qed.

Lemma strip_start_shrinks s sp f w s' sp' f' :
  w <> [] ->
  strip_start (s, sp, f) w = (s', sp', f') ->
  (s' = s /\ sp' = sp /\ f' = f)
  \/ (f' = true /\ (length s' < length s)%nat).
Proof.
  intros Hw. unfold strip_start.
  destruct (startswith (lower s) w) eqn:Hs; [|intros [= <- <- <-]; by left].
  intros [= <- <- <-]. right. split; [done|].
  apply startswith_length in Hs. rewrite length_lower in Hs.
  assert (0 < length w)%nat by (destruct w; [done|cbn; lia]).
  unfold slice_from, clamp, len.
  destruct (Z.ltb_spec (Z.of_nat (length w)) 0); [lia|].
  rewrite length_drop. lia.
Qed.

Lemma strip_end_shrinks s sp f w s' sp' f' :
  w <> [] ->
  strip_end (s, sp, f) w = (s', sp', f') ->
  (s' = s /\ sp' = sp /\ f' = f)
  \/ (f' = true /\ (length s' < length s)%nat).
Proof.
  intros Hw. unfold strip_end.
  destruct (endswith (lower s) w) eqn:Hs; [|intros [= <- <- <-]; by left].
  intros [= <- <- <-]. right. split; [done|].
  unfold endswith in Hs. apply startswith_length in Hs.
  rewrite !length_rev, length_lower in Hs.
  assert (0 < length w)%nat by (destruct w; [done|cbn; lia]).
  unfold slice_to, slice, clamp, len.
  destruct (Z.ltb_spec (- Z.of_nat (length w)) 0); [|lia].
  change (0 <? 0) with false. cbv iota.
  rewrite length_take, length_drop. lia.
Qed.

(** A round that leaves [found] false changes nothing; a round that sets it
    removes at least one character. *)
Lemma clean_round_shrinks s sp s' sp' found :
  clean_round s sp = (s', sp', found) ->
  if found then (length s' < length s)%nat else s' = s /\ sp' = sp.
Proof.
  unfold clean_round, no_start, no_end. cbn [foldl].
  destruct (strip_start (s, sp, false) (py "and")) as [[s1 sp1] f1] eqn:H1.
  destruct (strip_start (s1, sp1, f1) (py " ")) as [[s2 sp2] f2] eqn:H2.
  destruct (strip_end (s2, sp2, f2) (py " and")) as [[s3 sp3] f3] eqn:H3.
  intros H4.
  apply strip_start_shrinks in H1; [|done].
  apply strip_start_shrinks in H2; [|done].
  apply strip_end_shrinks in H3; [|done].
  apply strip_end_shrinks in H4; [|done].
  destruct found.
  - destruct H1 as [(-> & -> & ->)|[-> ?]], H2 as [(-> & -> & ->)|[-> ?]],
      H3 as [(-> & -> & ->)|[-> ?]], H4 as [(-> & -> & ?)|[_ ?]];
      try done; lia.
  - destruct H1 as [(-> & -> & ->)|[-> ?]], H2 as [(-> & -> & ->)|[-> ?]],
      H3 as [(-> & -> & ->)|[-> ?]], H4 as [(-> & -> & ?)|[? ?]];
      done.
Qed.

(** The fuel of [clean_surface] is enough: with more rounds allowed the loop
    returns the same. *)
Lemma clean_loop_fuel fuel1 : forall fuel2 s sp,
  (length s < fuel1)%nat -> (length s < fuel2)%nat ->
  clean_loop fuel1 s sp = clean_loop fuel2 s sp.
Proof.
  induction fuel1 as [|fuel1 IH]; intros fuel2 s sp H1 H2; [lia|].
  destruct fuel2 as [|fuel2]; [lia|]. cbn [clean_loop].
  destruct (clean_round s sp) as [[s' sp'] found] eqn:Hr.
  pose proof (clean_round_shrinks _ _ _ _ _ Hr) as Hs.
  destruct found; [|done]. apply IH; lia.
Qed.

(** What the loop returns is left by a round with [found] false. *)
Lemma clean_loop_ends fuel : forall s sp,
  (length s < fuel)%nat ->
  clean_round (fst (clean_loop fuel s sp)) (snd (clean_loop fuel s sp))
  = (clean_loop fuel s sp, false).
Proof.
  induction fuel as [|fuel IH]; intros s sp Hlt; [lia|].
  cbn [clean_loop].
  destruct (clean_round s sp) as [[s' sp'] found] eqn:Hr.
  pose proof (clean_round_shrinks _ _ _ _ _ Hr) as Hs.
  destruct found.
  - apply IH. lia.
  - destruct Hs as [-> ->]. cbn [fst snd]. exact Hr.
Qed.

(** ** The worked environment, end to end *)

(** "one hundred and twenty-five meters": one quantity, 125 metres, with the
    spelled phrase as surface and its span in the original text. *)
Example parse_spelled_number :
  parse Demo.env Demo.spelled_text
  = Ok [Build_Quantity Demo.env (Demo.of_Z 125) Demo.metre Demo.spelled_text
                       (0, 34) None].
Proof. vm_compute. reflexivity. Qed.

(** "3 m/s": the division marker in operator group 5 negates the power of
    the unit of group 6, and the unit is named from its dimensions. *)
Example get_unit_metre_per_second :
  let item := {| m_groups := [Some (py "3 m/s"); None; Some (py "3"); None;
                              Some (py "m"); Some (py "/"); Some (py "s")];
                 m_span := (0, 5) |} in
  exists unit,
    get_unit Demo.env item (py "3 m/s") = Ok unit
    /\ u_name unit = py "metre per second"
    /\ u_dimensions unit = [{| base := py "metre"; power := 1 |};
                            {| base := py "second"; power := -1 |}]
    /\ e_name (u_entity unit) = py "unknown"
    /\ slash_at item 4 = false /\ slash_at item 6 = true.
Proof.
  cbv zeta. eexists. split; [vm_compute; reflexivity|].
  repeat split; vm_compute; reflexivity.
Qed.

(** A bare number resolves to the dimensionless unit of the knowledge base
    and goes through every guard. *)
Example build_quantity_bare_number :
  build_quantity Demo.env (py "3") (py "3")
    {| m_groups := [Some (py "3"); None; Some (py "3")]; m_span := (0, 1) |}
    [Demo.of_Z 3] Demo.dimensionless (py "3") (0, 1) None
  = Ok (Some [Build_Quantity Demo.env (Demo.of_Z 3) Demo.dimensionless
                             (py "3") (0, 1) None]).
Proof. vm_compute. reflexivity. Qed.

(** * Further properties of the parser *)

(** ** [get_surface] *)

Lemma trim_end_spec rsurface : forall e r' e',
  trim_end rsurface e = (r', e') ->
  exists k, rsurface = k ++ r' /\ e' = e - len k
            /\ match r' with
               | c :: _ => (c =? SPACE)%N || (c =? HYPHEN)%N = false
               | [] => True
               end.
Proof.
  induction rsurface as [|c r IH]; intros e r' e'; cbn.
  - intros [= <- <-]. exists []. split; [done|]. split; [unfold len; cbn; lia|done].
  - destruct ((c =? SPACE)%N || (c =? HYPHEN)%N) eqn:Hc.
    + intros H. destruct (IH _ _ _ H) as (k & -> & -> & Hhead).
      exists (c :: k). split; [done|]. split; [|done].
      unfold len. cbn [length]. lia.
    + intros [= <- <-]. exists []. split; [done|]. split; [unfold len; cbn; lia|exact Hc].
Qed.

Lemma trim_start_spec surface : forall s l' s',
  trim_start surface s = (l', s') ->
  exists k, surface = k ++ l' /\ s' = s + len k
            /\ match l' with
               | c :: _ => (c =? SPACE)%N = false
               | [] => True
               end.
Proof.
  induction surface as [|c l IH]; intros s l' s'; cbn.
  - intros [= <- <-]. exists []. split; [done|]. split; [unfold len; cbn; lia|done].
  - destruct (c =? SPACE)%N eqn:Hc.
    + intros H. destruct (IH _ _ _ H) as (k & -> & -> & Hhead).
      exists (c :: k). split; [done|]. split; [|done].
      unfold len. cbn [length]. lia.
    + intros [= <- <-]. exists []. split; [done|]. split; [unfold len; cbn; lia|exact Hc].
Qed.

(** The middle of a slice is the slice of the middle. *)
Lemma slice_middle {A} (l x y z : list A) (a b : Z) :
  0 <= a -> a <= b -> b <= len l ->
  slice l a b = x ++ y ++ z ->
  slice l (a + len x) (b - len z) = y.
Proof.
  intros Ha Hab Hb Hs.
  assert (Hlen : len (slice l a b) = b - a) by (by apply len_slice).
  rewrite Hs, !len_app in Hlen.
  pose proof (len_nonneg x). pose proof (len_nonneg y).
  pose proof (len_nonneg z).
  rewrite slice_in_range in Hs by lia.
  rewrite slice_in_range by lia.
  assert (Hdrop : drop (Z.to_nat a) l
                  = (x ++ y ++ z) ++ drop (Z.to_nat (b - a)) (drop (Z.to_nat a) l))
    by (by rewrite <- Hs, take_drop).
  replace (Z.to_nat (a + len x)) with (Z.to_nat a + length x)%nat
    by (unfold len; lia).
  rewrite <- drop_drop, Hdrop, <- !app_assoc.
  rewrite drop_app_length.
  replace (Z.to_nat (b - len z - (a + len x))) with (length y)
    by (unfold len in *; lia).
  apply take_app_length.
Qed.

(** X1: when the span mapped back by the shift table lies inside the
    original text, [get_surface] returns a span inside it and the surface is
    exactly the original text at the returned span; the surface does not
    start with a space and does not end with a space or a hyphen. *)
Theorem get_surface_is_slice (shifts : gmap Z Z) (orig_text : str)
  (item : Match) (surface : str) (s e : Z) :
  0 <= fst (real_span shifts (m_span item)) ->
  fst (real_span shifts (m_span item)) <= snd (real_span shifts (m_span item)) ->
  snd (real_span shifts (m_span item)) <= len orig_text ->
  get_surface shifts orig_text item = (surface, (s, e)) ->
  fst (real_span shifts (m_span item)) <= s /\ s <= e
  /\ e <= snd (real_span shifts (m_span item))
  /\ surface = slice orig_text s e
  /\ startswith surface (py " ") = false
  /\ endswith surface (py " ") = false
  /\ endswith surface (py "-") = false.
Proof.
  unfold get_surface.
  set (a := fst (real_span shifts (m_span item))).
  set (b := snd (real_span shifts (m_span item))).
  intros Ha Hab Hb.
  destruct (trim_end (rev (slice orig_text a b)) b) as [r1 e1] eqn:H1.
  destruct (trim_start (rev r1) a) as [surface' s1] eqn:H2.
  intros [= <- <- <-].
  apply trim_end_spec in H1 as (k1 & Hr & -> & Hhead1).
  apply trim_start_spec in H2 as (k2 & Hl & -> & Hhead2).
  assert (Hs : slice orig_text a b = k2 ++ surface' ++ rev k1).
  { rewrite <- (rev_involutive (slice orig_text a b)), Hr, rev_app_distr, Hl.
    by rewrite <- app_assoc. }
  assert (Hlen : len (slice orig_text a b) = b - a) by (by apply len_slice).
  rewrite Hs, !len_app in Hlen.
  assert (Hk1 : len (rev k1) = len k1) by (unfold len; by rewrite length_rev).
  pose proof (len_nonneg k1). pose proof (len_nonneg k2).
  pose proof (len_nonneg surface').
  split; [lia|]. split; [lia|]. split; [lia|].
  split; [rewrite <- Hk1; symmetry; by apply (slice_middle _ k2 _ (rev k1))|].
  assert (Hr1 : r1 = rev surface' ++ rev k2).
  { rewrite <- (rev_involutive r1), Hl. apply rev_app_distr. }
  change (py " ") with [32%N]. change (py "-") with [45%N].
  unfold endswith. change (rev [32%N]) with [32%N].
  change (rev [45%N]) with [45%N].
  split; [|split].
  - destruct surface' as [|c l]; [done|]. cbn [startswith].
    unfold SPACE in Hhead2. by rewrite N.eqb_sym, Hhead2.
  - destruct (rev surface') as [|c l]; [done|]. rewrite Hr1 in Hhead1.
    cbn [app] in Hhead1. cbn [startswith].
    apply orb_false_elim in Hhead1 as [Hsp _].
    unfold SPACE in Hsp. by rewrite N.eqb_sym, Hsp.
  - destruct (rev surface') as [|c l]; [done|]. rewrite Hr1 in Hhead1.
    cbn [app] in Hhead1. cbn [startswith].
    apply orb_false_elim in Hhead1 as [_ Hhy].
    unfold HYPHEN in Hhy. by rewrite N.eqb_sym, Hhy.
Qed.

Lemma get_surface_is_slice_witness :
  let shifts := snd (substitute_values (py "three - m")
                       [{| old_surface := py "three"; old_span := (0, 5);
                           new_surface := py "3.0" |}]) in
  let item := {| m_groups := []; m_span := (0, 6) |} in
  get_surface shifts (py "three - m") item = (py "three", (0, 5))
  /\ py "three" = slice (py "three - m") 0 5.
Proof.
  cbv zeta.
  assert (H : get_surface
                (snd (substitute_values (py "three - m")
                        [{| old_surface := py "three"; old_span := (0, 5);
                            new_surface := py "3.0" |}]))
                (py "three - m") {| m_groups := []; m_span := (0, 6) |}
              = (py "three", (0, 5)))
    by (vm_compute; reflexivity).
  split; [exact H|].
  refine (proj1 (proj2 (proj2 (proj2
            (get_surface_is_slice _ _ _ _ _ _ _ _ _ H))))).
  - vm_compute. congruence.
  - vm_compute. congruence.
  - vm_compute. congruence.
Defined.

(** ** The text of [substitute_values] *)

Lemma slice_app_tail (done text : str) (pos i : Z) :
  0 <= pos -> len done <= i -> i - len done + pos <= len text ->
  slice (done ++ slice_from text pos) 0 i
  = done ++ slice text pos (i - len done + pos)
  /\ slice_from (done ++ slice_from text pos) i
     = slice_from text (i - len done + pos).
Proof.
  intros Hpos Hi HiT. pose proof (len_nonneg done) as Hnn.
  assert (Hrest : len (slice_from text pos) = len text - pos)
    by (apply len_slice_from; lia).
  rewrite (slice_in_range (done ++ slice_from text pos) 0 i)
    by (rewrite ?len_app; lia).
  rewrite (slice_from_in_range (done ++ slice_from text pos) i) by lia.
  rewrite (slice_from_in_range text pos),
    (slice_from_in_range text (i - len done + pos)) by lia.
  rewrite (slice_in_range text pos (i - len done + pos)) by lia.
  rewrite Z.sub_0_r. change (Z.to_nat 0) with O. rewrite drop_0.
  unfold len in *.
  rewrite take_app_ge, drop_app_ge by lia.
  rewrite drop_drop. split; do 2 f_equal; lia.
Qed.

Lemma substitute_loop_spliced text values : forall st done pos,
  replacements_from (len text) pos values ->
  0 <= pos -> pos <= len text ->
  final_text st = done ++ slice_from text pos ->
  len done = pos + shift st ->
  final_text (substitute_loop st values) = done ++ spliced text pos values.
Proof.
  induction values as [|v values IH]; intros st done pos Hwf Hpos HpT Hft Hdone.
  - done.
  - destruct Hwf as (Hlo & Hab & HbT & Hold & Hwf).
    change (substitute_loop st (v :: values))
      with (substitute_loop (substitute_step st v) values).
    cbn [spliced].
    rewrite (IH (substitute_step st v)
               (done ++ slice text pos (fst (old_span v)) ++ new_surface v)
               (snd (old_span v)) Hwf); [by rewrite <- !app_assoc|lia|lia| |].
    + unfold substitute_step. cbn [final_text]. rewrite Hft.
      destruct (slice_app_tail done text pos (fst (old_span v) + shift st))
        as [-> _]; [lia..|].
      destruct (slice_app_tail done text pos (snd (old_span v) + shift st))
        as [_ ->]; [lia..|].
      rewrite <- !app_assoc. do 3 f_equal; f_equal; lia.
    + unfold substitute_step. cbn [shift].
      rewrite !len_app, len_slice by lia. lia.
Qed.

(** X2: for a replacement list of the text, the text that
    [substitute_values] returns is the original with each old span replaced
    by its new surface and everything between the spans kept, and its length
    is the original length plus the length changes of the replacements. *)
Theorem substitute_values_text (text : str) (values : list Replacement) :
  replacements_of text values ->
  fst (substitute_values text values) = spliced text 0 values
  /\ len (fst (substitute_values text values)) = len text + total_delta values.
Proof.
  intros Hwf. split.
  - unfold substitute_values. cbn [fst].
    apply (substitute_loop_spliced text values _ [] 0 Hwf);
      [lia|apply len_nonneg| |done].
    cbn. by rewrite slice_from_in_range.
  - apply (substitute_values_table text values Hwf).
Qed.

Lemma substitute_values_text_witness :
  let text := py "three m and 2,500 kg" in
  let values := [{| old_surface := py "three"; old_span := (0, 5);
                    new_surface := py "3.0" |};
                 {| old_surface := py "2,500"; old_span := (12, 17);
                    new_surface := py "2500" |}] in
  replacements_of text values
  /\ fst (substitute_values text values) = spliced text 0 values
  /\ spliced text 0 values = py "3.0 m and 2500 kg".
Proof.
  cbv zeta.
  assert (Hwf : replacements_of (py "three m and 2,500 kg")
                  [{| old_surface := py "three"; old_span := (0, 5);
                      new_surface := py "3.0" |};
                   {| old_surface := py "2,500"; old_span := (12, 17);
                      new_surface := py "2500" |}])
    by (unfold replacements_of; simpl; vm_compute; intuition congruence).
  split; [exact Hwf|].
  split; [exact (proj1 (substitute_values_text _ _ Hwf))|].
  vm_compute. reflexivity.
Defined.

Lemma lookup_slice {A} (l : list A) (a b : Z) (k : nat) :
  0 <= a -> a <= b -> b <= len l -> Z.of_nat k < b - a ->
  slice l a b !! k = l !! (Z.to_nat a + k)%nat.
Proof.
  intros Ha Hab Hb Hk. rewrite slice_in_range by lia.
  rewrite lookup_take_lt by lia. apply lookup_drop.
Qed.

Lemma spliced_untouched text values : forall pos S c,
  replacements_from (len text) pos values ->
  Forall (fun v => 1 <= len (new_surface v)) values ->
  0 <= pos -> pos <= len text ->
  pos + S <= c ->
  untouched S values c ->
  spliced text pos values !! Z.to_nat (c - (pos + S))
  = text !! Z.to_nat (c - shift_after_start S values c).
Proof.
  unfold str.
  induction values as [|v values IH]; intros pos S c Hwf Hne Hpos HpT Hc Hun.
  - cbn [spliced shift_after_start].
    rewrite slice_from_in_range by lia. rewrite lookup_drop.
    f_equal. lia.
  - destruct Hwf as (Hlo & Hab & HbT & Hold & Hwf).
    inversion Hne as [|? ? Hn Hne']; subst.
    cbn [spliced shift_after_start].
    assert (Hl1 : len (slice text pos (fst (old_span v)))
                  = fst (old_span v) - pos) by (apply len_slice; lia).
    destruct Hun as [Hbefore|[Hafter Hun]].
    + destruct (Z.ltb_spec (fst (old_span v) + S) c); [lia|].
      rewrite lookup_app_l by (unfold len in Hl1; lia).
      rewrite lookup_slice by lia. f_equal. lia.
    + destruct (Z.ltb_spec (fst (old_span v) + S) c); [|lia].
      rewrite lookup_app_r by (unfold len in Hl1; lia).
      rewrite lookup_app_r by (unfold len in *; lia).
      rewrite <- (IH (snd (old_span v)) (S + delta v) c Hwf Hne')
        by (try assumption; unfold delta, len in *; lia).
      f_equal. unfold delta, len in *. lia.
Qed.

(** X3: for a replacement list with non-empty new surfaces, a character of
    the final text that lies outside every new surface is the character of
    the original text at [index - shifts[index]]. *)
Theorem substitute_values_untouched (text : str) (values : list Replacement)
  (c : Z) :
  replacements_of text values ->
  Forall (fun v => 1 <= len (new_surface v)) values ->
  0 <= c -> c < len (fst (substitute_values text values)) ->
  untouched 0 values c ->
  fst (substitute_values text values) !! Z.to_nat c
  = text !! Z.to_nat (c - shift_at (snd (substitute_values text values)) c).
Proof.
  intros Hwf Hne Hc0 Hc Hun.
  destruct (substitute_values_table text values Hwf) as [_ Htab].
  rewrite (Htab c Hc).
  assert (Hfinal : fst (substitute_values text values)
                   = spliced text 0 values).
  { unfold substitute_values. cbn [fst].
    apply (substitute_loop_spliced text values _ [] 0 Hwf);
      [lia|apply len_nonneg| |done].
    cbn. by rewrite slice_from_in_range. }
  rewrite Hfinal.
  pose proof (spliced_untouched text values 0 0 c Hwf Hne ltac:(lia)
                (len_nonneg text) ltac:(lia) Hun) as H.
  rewrite Z.add_0_l, Z.sub_0_r in H. exact H.
Qed.

Lemma substitute_values_untouched_witness :
  let text := py "three m and 2,500 kg" in
  let values := [{| old_surface := py "three"; old_span := (0, 5);
                    new_surface := py "3.0" |};
                 {| old_surface := py "2,500"; old_span := (12, 17);
                    new_surface := py "2500" |}] in
  untouched 0 values 4
  /\ fst (substitute_values text values) !! Z.to_nat 4
     = text !! Z.to_nat (4 - shift_at (snd (substitute_values text values)) 4)
  /\ text !! Z.to_nat (4 - shift_at (snd (substitute_values text values)) 4)
     = Some 109%N.
Proof.
  cbv zeta.
  assert (Hwf : replacements_of (py "three m and 2,500 kg")
                  [{| old_surface := py "three"; old_span := (0, 5);
                      new_surface := py "3.0" |};
                   {| old_surface := py "2,500"; old_span := (12, 17);
                      new_surface := py "2500" |}])
    by (unfold replacements_of; simpl; vm_compute; intuition congruence).
  assert (Hun : untouched 0
                  [{| old_surface := py "three"; old_span := (0, 5);
                      new_surface := py "3.0" |};
                   {| old_surface := py "2,500"; old_span := (12, 17);
                      new_surface := py "2500" |}] 4)
    by (right; split; [vm_compute; congruence|left; vm_compute; reflexivity]).
  split; [exact Hun|].
  split; [|vm_compute; reflexivity].
  apply (substitute_values_untouched _ _ 4 Hwf); [| | |exact Hun].
  - repeat constructor; vm_compute; congruence.
  - lia.
  - vm_compute. reflexivity.
Defined.

(** ** The span that [build_quantity] leaves *)

Section BuildQuantitySpan.
Context (E : Env).

Lemma span_kept_refl orig_text st : span_kept E orig_text st st.
Proof. unfold span_kept. repeat split; try done; lia. Qed.

Lemma span_kept_trimmed orig_text st unit n :
  1 <= n -> span_kept E orig_text st (trimmed E st unit n).
Proof. intros Hn. unfold span_kept, trimmed. cbn. repeat split; lia. Qed.

Lemma currency_rule_span orig_text st st' :
  is_currency (l_unit st) = true ->
  currency_rule E orig_text st = Ok st' ->
  span_kept E orig_text st st'.
Proof.
  intros Hcur. unfold currency_rule.
  destruct (Z.ltb_spec 1 (len (u_dimensions (l_unit st)))) as [Hd|Hd].
  - destruct (re_suffix_tail E (l_surface st)) as [|suffix tails].
    { intros [= <-]. apply span_kept_refl. }
    destruct (scale_values E (fst suffix) (l_values st)) as [vs|e];
      cbn [mbind res_bind]; [|done].
    destruct (u_dimensions (l_unit st)) as [|d0 ds];
      cbn [index0 mbind res_bind].
    { intros [= <-]. unfold span_kept. cbn. repeat split; try done; lia. }
    destruct (l_UNITS E (base d0)) as [[|u us]|];
      cbn [getitem index0 mbind res_bind]; [| |done].
    { intros [= <-]. unfold span_kept. cbn. repeat split; try done; lia. }
    destruct (snd suffix) as [|c tail] eqn:Hs; intros [= <-].
    + unfold span_kept. cbn. repeat split; try done; lia.
    + unfold span_kept. cbn [l_span l_surface fst snd].
      pose proof (len_nonneg tail). unfold len in *. cbn [length].
      repeat split; lia.
  - destruct (re_suffix_after E (l_surface st) orig_text)
      as [|suffix tails] eqn:Hs.
    { intros [= <-]. apply span_kept_refl. }
    destruct (scale_values E suffix (l_values st)) as [vs|e];
      cbn [mbind res_bind]; [|done].
    intros [= <-]. unfold span_kept. cbn [l_span l_surface l_unit fst snd].
    repeat split; try lia; try done.
    exists suffix. by rewrite Hs.
Qed.

Lemma correct_span orig_text text item st st' :
  correct E orig_text text item st = Ok (Some st') ->
  span_kept E orig_text st st'.
Proof.
  unfold correct.
  destruct (is_discarded E (l_surface st)); [done|].
  destruct (is_currency (l_unit st)) eqn:Hcur.
  { destruct (currency_rule E orig_text st) as [st1|e] eqn:Hc;
      cbn [mbind res_bind]; [|done].
    intros [= <-]. exact (currency_rule_span _ _ _ Hcur Hc). }
  pose proof (span_kept_trimmed orig_text st) as Htrim.
  destruct (re_decade E (l_surface st)).
  { destruct (getitem _) as [u|e]; cbn [mbind res_bind]; [|done].
    intros [= <-]. by apply Htrim. }
  destruct (is_inch_preposition E st) as [[|]|e];
    cbn [mbind res_bind]; [| |done].
  { destruct (demoted_unit E orig_text (l_unit st)) as [u|e];
      cbn [mbind res_bind]; [|done].
    intros [= <-]. by apply Htrim. }
  destruct (is_quote_artifact E text (m_span item)).
  { destruct (demoted_unit E orig_text (l_unit st)) as [u|e];
      cbn [mbind res_bind]; [|done].
    intros [= <-]. by apply Htrim. }
  destruct (is_time_count E st) as [[|]|e]; cbn [mbind res_bind]; [| |done].
  { destruct (get_unit_from_dimensions E _ orig_text) as [u|e];
      cbn [mbind res_bind]; [|done].
    intros [= <-]. by apply Htrim. }
  intros [= <-]. apply span_kept_refl.
Qed.

(** X4: every quantity that [build_quantity] returns starts where the
    extracted span starts, and ends at most one character after its end. The
    end moves right only in the currency branch for a unit of at most one
    dimension, where the surface gets the suffix found in the original text
    appended; when the end is unmoved the surface is the extracted one. *)
Theorem build_quantity_span (orig_text text : str) (item : Match)
  (values : list (pyfloat E)) (unit : Unit) (surface : str) (span : Span)
  (uncert : option (pyfloat E)) (objs : list (Quantity E)) (q : Quantity E) :
  build_quantity E orig_text text item values unit surface span uncert
  = Ok (Some objs) ->
  q ∈ objs ->
  fst (q_span q) = fst span
  /\ snd (q_span q) <= snd span + 1
  /\ (snd span < snd (q_span q) ->
      is_currency unit = true
      /\ len (u_dimensions unit) <= 1
      /\ exists suffix,
           head (re_suffix_after E surface orig_text) = Some suffix
           /\ q_surface q = surface ++ suffix)
  /\ (snd (q_span q) = snd span -> q_surface q = surface).
Proof.
  unfold build_quantity. intros H Hq.
  destruct (correct E orig_text text item _) as [[st'|]|e] eqn:Hc;
    cbn [mbind res_bind] in H; [|done|done].
  injection H as <-. rewrite emit_map in Hq.
  apply list_elem_of_fmap in Hq as (v & -> & _).
  apply correct_span in Hc. exact Hc.
Qed.

End BuildQuantitySpan.

Lemma build_quantity_span_witness :
  let E := Demo.env in
  let item := Demo.dim_match "$3" "$" "3" Demo.absent (8, 10) in
  let q := Build_Quantity E (Demo.of_Z 3000000000000) Demo.dollar
                          (py "$3T") (8, 11) None in
  build_quantity E Demo.currency_text Demo.currency_text item
                 [Demo.of_Z 3] Demo.dollar (py "$3") (8, 10) None
  = Ok (Some [q])
  /\ fst (q_span q) = 8 /\ snd (q_span q) <= 10 + 1.
Proof.
  intros E item q.
  assert (H : build_quantity E Demo.currency_text Demo.currency_text item
                [Demo.of_Z 3] Demo.dollar (py "$3") (8, 10) None
              = Ok (Some [q]))
    by (vm_compute; reflexivity).
  assert (Hq : q ∈ [q]) by (by left).
  split; [exact H|].
  destruct (build_quantity_span E _ _ item _ _ _ _ _ _ q H Hq)
    as (H1 & H2 & _).
  split; [exact H1|exact H2].
Defined.

(** ** The loop of [parse] *)

Section ParseIndependent.
Context (E : Env).

Lemma parse_loop_independent orig_text text shifts items : forall qs bound,
  forallb (literal_parses E) items = true ->
  (st ← for_each (parse_item E orig_text text shifts) items (qs, bound);
   Ok (fst st))
  = (qss ← map_res (item_quantities E orig_text text shifts) items;
     Ok (qs ++ concat qss)).
Proof.
  induction items as [|item items IH]; intros qs bound Hall.
  - cbn. by rewrite app_nil_r.
  - cbn [forallb] in Hall. apply andb_true_iff in Hall as [Hitem Hall].
    cbn [for_each map_res]. unfold parse_item, item_quantities, literal_parses in *.
    destruct (get_values E item) as [[uncert values]|e];
      cbn [mbind res_bind]; [|by destruct e].
    destruct (get_unit E item text) as [unit|e]; cbn [mbind res_bind]; [|done].
    destruct (get_surface shifts orig_text item) as [surface span].
    destruct (build_quantity E orig_text text item values unit surface span
                uncert) as [[objs|]|e]; cbn [mbind res_bind default]; [| |done].
    + rewrite IH by done.
      destruct (map_res _ items) as [qss|e]; cbn [mbind res_bind]; [|done].
      cbn [concat]. by rewrite app_assoc.
    + rewrite IH by done.
      destruct (map_res _ items) as [qss|e]; cbn [mbind res_bind]; done.
Qed.

(** X5: when no literal among the matches of the quantity pattern makes
    [get_values] raise [ValueError], [parse] treats every match on its own:
    it returns, in the order of the matches, the quantities built from each
    match with the values, uncertainty, unit and surface of that match, and
    raises what the first failing match raises. *)
Theorem parse_matches_independent (text : str) (values : list Replacement) :
  extract_spellout_values E (clean_text E text) = Ok values ->
  forallb (literal_parses E)
    (REG_DIM_finditer E
       (fst (substitute_values (clean_text E text) values))) = true ->
  parse E text
  = (qss ← map_res
             (item_quantities E text
                (fst (substitute_values (clean_text E text) values))
                (snd (substitute_values (clean_text E text) values)))
             (REG_DIM_finditer E
                (fst (substitute_values (clean_text E text) values)));
     Ok (concat qss)).
Proof.
  intros Hv Hall. unfold parse. rewrite Hv. cbn [mbind res_bind].
  destruct (substitute_values (clean_text E text) values) as [text' shifts].
  cbn [fst snd] in *.
  pose proof (parse_loop_independent text text' shifts _ [] None Hall) as H.
  destruct (for_each _ _ _) as [[qs bound]|e]; cbn [mbind res_bind] in *;
    exact H.
Qed.

End ParseIndependent.

Lemma parse_matches_independent_witness :
  exists values,
    extract_spellout_values Demo.env (clean_text Demo.env Demo.spelled_text)
    = Ok values
    /\ parse Demo.env Demo.spelled_text
       = (qss ← map_res
                  (item_quantities Demo.env Demo.spelled_text
                     (fst (substitute_values
                             (clean_text Demo.env Demo.spelled_text) values))
                     (snd (substitute_values
                             (clean_text Demo.env Demo.spelled_text) values)))
                  (REG_DIM_finditer Demo.env
                     (fst (substitute_values
                             (clean_text Demo.env Demo.spelled_text) values)));
          Ok (concat qss)).
Proof.
  eexists. split; [vm_compute; reflexivity|].
  refine (parse_matches_independent Demo.env Demo.spelled_text _ _ _).
  - vm_compute. reflexivity.
  - vm_compute. reflexivity.
Defined.

(** ** The [while found] loop of [clean_surface] *)

Lemma strip_start_piece s sp f w s' sp' f' :
  strip_start (s, sp, f) w = (s', sp', f') ->
  exists pre, s = pre ++ s' /\ fst sp' = fst sp + len pre
              /\ snd sp' = snd sp.
Proof.
  unfold strip_start.
  destruct (startswith (lower s) w) eqn:Hs; intros [= <- <- <-].
  - apply startswith_length in Hs. rewrite length_lower in Hs.
    exists (take (length w) s). rewrite slice_from_in_range by apply len_nonneg.
    unfold len. rewrite Nat2Z.id, take_drop, length_take. cbn [fst snd].
    repeat split; lia.
  - exists []. unfold len. cbn. repeat split; lia.
Qed.

Lemma strip_end_piece s sp f w s' sp' f' :
  w <> [] ->
  strip_end (s, sp, f) w = (s', sp', f') ->
  exists post, s = s' ++ post /\ fst sp' = fst sp
               /\ snd sp' = snd sp - len post.
Proof.
  intros Hw. unfold strip_end.
  destruct (endswith (lower s) w) eqn:Hs; intros [= <- <- <-].
  - unfold endswith in Hs. apply startswith_length in Hs.
    rewrite !length_rev, length_lower in Hs.
    assert (0 < length w)%nat by (destruct w; [done|cbn; lia]).
    exists (drop (length s - length w) s).
    unfold slice_to, slice, clamp, len.
    destruct (Z.ltb_spec (- Z.of_nat (length w)) 0); [|lia].
    change (0 <? 0) with false. cbv iota.
    rewrite Z.min_l by lia. change (Z.to_nat 0) with O. rewrite drop_0.
    replace (Z.to_nat (Z.max 0 (- Z.of_nat (length w) + Z.of_nat (length s))
                       - 0))
      with (length s - length w)%nat by lia.
    rewrite take_drop, length_drop. cbn [fst snd]. repeat split; lia.
  - exists []. rewrite app_nil_r. unfold len. cbn. repeat split; lia.
Qed.

Lemma clean_round_piece s sp s' sp' found :
  clean_round s sp = (s', sp', found) ->
  exists pre post, s = pre ++ s' ++ post
                   /\ fst sp' = fst sp + len pre
                   /\ snd sp' = snd sp - len post.
Proof.
  unfold clean_round, no_start, no_end. cbn [foldl].
  destruct (strip_start (s, sp, false) (py "and")) as [[s1 sp1] f1] eqn:H1.
  destruct (strip_start (s1, sp1, f1) (py " ")) as [[s2 sp2] f2] eqn:H2.
  destruct (strip_end (s2, sp2, f2) (py " and")) as [[s3 sp3] f3] eqn:H3.
  intros H4.
  apply strip_start_piece in H1 as (p1 & -> & Ha1 & Hb1).
  apply strip_start_piece in H2 as (p2 & -> & Ha2 & Hb2).
  apply strip_end_piece in H3 as (q3 & -> & Ha3 & Hb3); [|done].
  apply strip_end_piece in H4 as (q4 & -> & Ha4 & Hb4); [|done].
  exists (p1 ++ p2), (q4 ++ q3). rewrite !len_app.
  split; [by rewrite <- !app_assoc|]. lia.
Qed.

Lemma clean_loop_piece fuel : forall s sp,
  exists pre post,
    s = pre ++ fst (clean_loop fuel s sp) ++ post
    /\ fst (snd (clean_loop fuel s sp)) = fst sp + len pre
    /\ snd (snd (clean_loop fuel s sp)) = snd sp - len post.
Proof.
  induction fuel as [|fuel IH]; intros s sp.
  - exists [], []. cbn. rewrite app_nil_r. unfold len. cbn.
    repeat split; lia.
  - cbn [clean_loop].
    destruct (clean_round s sp) as [[s1 sp1] found] eqn:Hr.
    apply clean_round_piece in Hr as (p1 & q1 & -> & Ha & Hb).
    destruct found.
    + destruct (IH s1 sp1) as (p2 & q2 & Hs & Ha2 & Hb2).
      exists (p1 ++ p2), (q2 ++ q1). rewrite !len_app.
      split; [|lia]. rewrite <- !app_assoc. f_equal.
      rewrite (app_assoc _ q2 q1), (app_assoc p2). by rewrite <- Hs.
    + exists p1, q1. cbn [fst snd]. done.
Qed.

(** A round that leaves [found] false met none of the four words. *)
Lemma clean_round_false s sp s' sp' :
  clean_round s sp = (s', sp', false) ->
  startswith (lower s) (py "and") = false
  /\ startswith (lower s) (py " ") = false
  /\ endswith (lower s) (py " and") = false
  /\ endswith (lower s) (py " ") = false.
Proof.
  unfold clean_round, no_start, no_end. cbn [foldl].
  unfold strip_start at 2.
  destruct (startswith (lower s) (py "and")).
  { unfold strip_start, strip_end.
    repeat match goal with
           | |- context [if ?b then _ else _] => destruct b
           end; done. }
  unfold strip_start.
  destruct (startswith (lower s) (py " ")).
  { unfold strip_end.
    repeat match goal with
           | |- context [if ?b then _ else _] => destruct b
           end; done. }
  unfold strip_end at 2.
  destruct (endswith (lower s) (py " and")).
  { unfold strip_end.
    repeat match goal with
           | |- context [if ?b then _ else _] => destruct b
           end; done. }
  unfold strip_end.
  destruct (endswith (lower s) (py " ")); [done|]. done.
Qed.

(** X6: the [while found] loop of [clean_surface] ends, and what it leaves
    is a contiguous piece of the surface it was given: the span start has
    moved right by the length of what was cut in front, the span end left by
    the length of what was cut behind, and the piece, in lower case, neither
    starts with "and" or a space nor ends with " and" or a space. *)
Theorem clean_loop_residue (s : str) (sp : Span) :
  (exists pre post,
     s = pre ++ fst (clean_loop (S (length s)) s sp) ++ post
     /\ fst (snd (clean_loop (S (length s)) s sp)) = fst sp + len pre
     /\ snd (snd (clean_loop (S (length s)) s sp)) = snd sp - len post)
  /\ clean_round (fst (clean_loop (S (length s)) s sp))
                 (snd (clean_loop (S (length s)) s sp))
     = (clean_loop (S (length s)) s sp, false)
  /\ startswith (lower (fst (clean_loop (S (length s)) s sp))) (py "and")
     = false
  /\ startswith (lower (fst (clean_loop (S (length s)) s sp))) (py " ")
     = false
  /\ endswith (lower (fst (clean_loop (S (length s)) s sp))) (py " and")
     = false
  /\ endswith (lower (fst (clean_loop (S (length s)) s sp))) (py " ")
     = false.
Proof.
  split; [apply clean_loop_piece|].
  pose proof (clean_loop_ends (S (length s)) s sp ltac:(lia)) as Hend.
  split; [exact Hend|].
  destruct (clean_loop (S (length s)) s sp) as [s' sp'].
  cbn [fst snd] in *. by eapply clean_round_false.
Qed.

(** ** When [clean_surface] raises *)

Lemma split_ws_aux_nil s : forall cur,
  split_ws_aux s cur = [] <-> cur = [] /\ forallb is_space s = true.
Proof.
  induction s as [|c s IH]; intros cur; cbn [split_ws_aux forallb].
  - destruct cur; split; try done. by intros [? _].
  - destruct (is_space c); cbn [andb].
    + destruct cur as [|d cur].
      * rewrite IH. tauto.
      * split; [done|]. by intros [? _].
    + rewrite IH. split; [by intros [? _]|by intros [_ ?]].
Qed.

Lemma split_ws_nil s : split_ws s = [] <-> forallb is_space s = true.
Proof. unfold split_ws. rewrite split_ws_aux_nil. tauto. Qed.

Ltac decide_order :=
  repeat match goal with
         | |- context [(?a <=? ?b)%N] => destruct (N.leb_spec a b); try lia
         | |- context [(?a =? ?b)%N] => destruct (N.eqb_spec a b); try lia
         end.

(** Lower-casing turns no character into whitespace and no whitespace into
    something else. *)
Lemma is_space_lower_char c : is_space (lower_char c) = is_space c.
Proof.
  unfold lower_char.
  destruct ((65 <=? c) && (c <=? 90)
            || (192 <=? c) && (c <=? 222) && negb (c =? 215))%N eqn:Hc;
    [|done].
  assert (Hr : (65 <= c <= 90 \/ 192 <= c <= 222)%N).
  { apply orb_true_iff in Hc as [Hc|Hc].
    - apply andb_true_iff in Hc as [H1 H2].
      apply N.leb_le in H1, H2. lia.
    - apply andb_true_iff in Hc as [Hc _].
      apply andb_true_iff in Hc as [H1 H2].
      apply N.leb_le in H1, H2. lia. }
  clear Hc. unfold is_space.
  destruct Hr as [Hr|Hr]; decide_order; reflexivity.
Qed.

Lemma forallb_is_space_lower s :
  forallb is_space (lower s) = forallb is_space s.
Proof.
  unfold lower. induction s as [|c s IH]; [done|].
  cbn [map forallb]. by rewrite is_space_lower_char, IH.
Qed.

Section CleanSurfaceRaises.
Context (E : Env).

(** X7: [clean_surface] raises nothing but [IndexError], and raises it
    exactly when what the [while] loop leaves is not empty and holds only
    whitespace (a tab, a line break, a no-break space): [split()] then
    returns no word and [split[0]] is out of range. *)
Theorem clean_surface_raises (surface : str) (span : Span) (e : exn) :
  clean_surface E surface span = Raise e
  <-> e = IndexError
      /\ fst (clean_loop (S (length (replace_char HYPHEN SPACE surface)))
                         (replace_char HYPHEN SPACE surface) span) <> []
      /\ forallb is_space
           (fst (clean_loop (S (length (replace_char HYPHEN SPACE surface)))
                            (replace_char HYPHEN SPACE surface) span))
         = true.
Proof.
  unfold clean_surface.
  destruct (clean_loop _ _ span) as [s sp]. cbn [fst].
  destruct s as [|c s].
  { split; [done|]. by intros (_ & ? & _). }
  destruct (split_ws (lower (c :: s))) as [|w0 ws] eqn:Hsplit.
  - cbn [index0 mbind res_bind].
    apply split_ws_nil in Hsplit. rewrite forallb_is_space_lower in Hsplit.
    split; [by intros [= <-]|by intros (-> & _)].
  - cbn [index0 mbind res_bind].
    assert (Hns : forallb is_space (c :: s) = false).
    { destruct (forallb is_space (c :: s)) eqn:Hall; [|done].
      rewrite <- forallb_is_space_lower in Hall.
      apply split_ws_nil in Hall. by rewrite Hall in Hsplit. }
    destruct (split_ws (c :: s)) as [|v0 vs] eqn:Hsplit'.
    { apply split_ws_nil in Hsplit'. by rewrite Hsplit' in Hns. }
    rewrite Hns.
    destruct (_ && _ && _); cbn [index0 mbind res_bind];
      (split; [done|by intros (_ & _ & ?)]).
Qed.

End CleanSurfaceRaises.

(** A tab on its own goes through the loop untouched and has no word. *)
Example clean_surface_tab :
  clean_surface Demo.env [9%N] (0, 1) = Raise IndexError.
Proof. vm_compute. reflexivity. Qed.

(** ** [is_quote_artifact] *)

Section QuoteArtifact.
Context (E : Env).

Lemma quote_loop_any (span : Span) (spans : list Span) : forall res,
  foldl (fun res sp => if snd sp =? snd span then true else res) res spans
  = true
  <-> res = true \/ exists sp, sp ∈ spans /\ snd sp = snd span.
Proof.
  induction spans as [|sp spans IH]; intros res; cbn [foldl].
  - split; [by left|]. intros [?|(sp & Hin & _)]; [done|].
    by apply elem_of_nil in Hin.
  - rewrite IH. destruct (Z.eqb_spec (snd sp) (snd span)) as [Heq|Hne].
    + split; [|by left]. intros _. right. exists sp. split; [by left|done].
    + split.
      * intros [?|(sp' & Hin & Hsp)]; [by left|].
        right. exists sp'. split; [by right|done].
      * intros [?|(sp' & Hin & Hsp)]; [by left|].
        apply elem_of_cons in Hin as [->|Hin]; [done|].
        right. by exists sp'.
Qed.

(** X8: [is_quote_artifact] answers true exactly when some quoted passage
    of the text ends where the given span ends; once set, the flag is not
    reset by a later passage, and the start of the span plays no part. *)
Theorem is_quote_artifact_ends (orig_text : str) (span : Span) :
  (is_quote_artifact E orig_text span = true
   <-> exists sp, sp ∈ re_quote_spans E orig_text /\ snd sp = snd span)
  /\ forall start,
       is_quote_artifact E orig_text (start, snd span)
       = is_quote_artifact E orig_text span.
Proof.
  split.
  - unfold is_quote_artifact. rewrite quote_loop_any.
    split; [by intros [?|?]|by right].
  - intros start. done.
Qed.

End QuoteArtifact.

(** ** [clean_text] *)

Lemma replace_maps_map order : forall text,
  replace_maps order text
  = map (fun c => foldl (fun c m => if (c =? fst m)%N then snd m else c)
                        c order) text.
Proof.
  unfold replace_maps.
  induction order as [|m order IH]; intros text; cbn [foldl].
  - by rewrite map_id.
  - rewrite IH. unfold replace_char. by rewrite map_map.
Qed.

Lemma fold_char_order order c :
  order ≡ₚ maps ->
  foldl (fun c m => if (c =? fst m)%N then snd m else c) c order
  = fold_char c.
Proof.
  intros Hp. symmetry in Hp. apply permutations_Permutation in Hp.
  unfold maps in Hp. cbn in Hp.
  unfold fold_char.
  repeat (apply elem_of_cons in Hp as [->|Hp]);
    [..|by apply elem_of_nil in Hp];
    cbn [foldl fst snd];
    destruct (N.eqb_spec c 215) as [->|H1]; try reflexivity;
    destruct (N.eqb_spec c 8211) as [->|H2]; try reflexivity;
    destruct (N.eqb_spec c 8722) as [->|H3]; try reflexivity;
    apply N.eqb_neq in H1, H2, H3;
    repeat (progress (rewrite ?H1, ?H2, ?H3; cbn [orb]; cbv beta iota));
    reflexivity.
Qed.

Section CleanText.
Context (E : Env).

(** X9: [clean_text] does not depend on the order in which the dict [maps]
    is gone through: in any order the three replacements turn every
    character into its fold (the multiplication sign into "x", the en dash
    and the minus sign into "-", any other character into itself) before the
    genitives are replaced, so that the text keeps its length up to there. *)
Theorem clean_text_any_order (order : list (char * char)) (text : str) :
  order ≡ₚ maps ->
  sub_genitive E (replace_maps order text) = clean_text E text
  /\ replace_maps order text = map fold_char text
  /\ len (replace_maps order text) = len text.
Proof.
  intros Hp.
  assert (Hfold : forall order', order' ≡ₚ maps ->
            replace_maps order' text = map fold_char text).
  { intros order' Hp'. rewrite replace_maps_map. apply map_ext.
    intros c. by apply fold_char_order. }
  split; [|split].
  - unfold clean_text. f_equal. rewrite (Hfold order Hp).
    symmetry. apply (Hfold maps). done.
  - by apply Hfold.
  - rewrite (Hfold order Hp). unfold len. by rewrite length_map.
Qed.

End CleanText.

Lemma clean_text_any_order_witness :
  let order := [(8722, 45); (215, 120); (8211, 45)]%N in
  let text := [51; 215; 49; 48; 32; 8211; 32; 8722; 53]%N in
  order ≡ₚ maps
  /\ sub_genitive Demo.env (replace_maps order text)
     = clean_text Demo.env text
  /\ replace_maps order text = py "3x10 - -5".
Proof.
  cbv zeta.
  assert (Hp : [(8722, 45); (215, 120); (8211, 45)]%N ≡ₚ maps).
  { unfold maps. apply permutations_Permutation. cbn.
    repeat first [by left|right]. }
  split; [exact Hp|].
  split; [|vm_compute; reflexivity].
  exact (proj1 (clean_text_any_order Demo.env _ _ Hp)).
Defined.

(** ** What [extract_spellout_values] returns *)

Lemma insert_by_sorted {A} (key : A -> Z) x l :
  StronglySorted (fun a b => key a <= key b) l ->
  StronglySorted (fun a b => key a <= key b) (insert_by Z.leb key x l).
Proof.
  induction 1 as [|y l Hl IH Hy]; cbn [insert_by].
  - repeat constructor.
  - destruct (Z.leb_spec (key x) (key y)) as [Hle|Hgt].
    + constructor; [by constructor|].
      constructor; [done|].
      eapply Forall_impl; [exact Hy|]. cbn. intros; lia.
    + constructor; [done|].
      apply Forall_forall. intros z Hz.
      apply elem_of_insert_by in Hz as [->|Hz]; [lia|].
      by apply (proj1 (Forall_forall _ _) Hy).
Qed.

Lemma sorted_by_sorted {A} (key : A -> Z) l :
  StronglySorted (fun a b => key a <= key b) (sorted_by Z.leb key l).
Proof.
  unfold sorted_by. induction l as [|x l IH]; cbn [foldr]; [constructor|].
  by apply insert_by_sorted.
Qed.

(** [s.replace(',', '')] removes the commas and nothing else. *)
Lemma remove_commas_removed s : commas_removed s (remove_commas s).
Proof.
  unfold remove_commas. induction s as [|c s IH]; cbn [List.filter].
  - constructor.
  - destruct (N.eqb_spec c 44) as [->|Hc]; cbn [negb];
      by constructor.
Qed.

Lemma commas_removed_unique s t :
  commas_removed s t -> t = remove_commas s.
Proof.
  unfold remove_commas. induction 1 as [|s t _ IH|c s t Hc _ IH];
    cbn [List.filter].
  - done.
  - done.
  - apply N.eqb_neq in Hc. rewrite Hc. cbn [negb]. by f_equal.
Qed.

(** The record that the second loop appends for a match is the specified
    one, and the only one. *)
Lemma comma_record_appended item v :
  comma_record item v
  <-> v = {| old_surface := group_str item 0;
             old_span := m_span item;
             new_surface := remove_commas (group_str item 0) |}.
Proof.
  unfold comma_record. split.
  - intros (Ho & Hs & Hn). apply commas_removed_unique in Hn.
    destruct v as [o sp n]. cbn in *. by subst.
  - intros ->. cbn. split; [done|]. split; [done|].
    apply remove_commas_removed.
Qed.

Lemma elem_of_comma_loop items : forall values v,
  v ∈ foldl comma_item values items
  <-> v ∈ values \/ exists item, item ∈ items /\ comma_record item v.
Proof.
  induction items as [|item items IH]; intros values v; cbn [foldl].
  - split; [by left|]. intros [?|(item & Hin & _)]; [done|].
    by apply elem_of_nil in Hin.
  - rewrite IH. unfold comma_item at 1. rewrite elem_of_app.
    rewrite list_elem_of_singleton, <- comma_record_appended. split.
    + intros [[?|?]|(item' & Hin & ?)].
      * by left.
      * right. exists item. split; [by left|done].
      * right. exists item'. split; [by right|done].
    + intros [?|(item' & Hin & ?)]; [by left; left|].
      apply elem_of_cons in Hin as [->|Hin]; [left; by right|].
      right. by exists item'.
Qed.

Section SpelloutRecords.
Context (E : Env).

Lemma spellout_loop_sound items : forall values values' v,
  for_each (spellout_item E) items values = Ok values' ->
  v ∈ values' ->
  v ∈ values \/ exists item, item ∈ items /\ spelled_record E item v.
Proof.
  induction items as [|item items IH]; intros values values' v H Hv.
  - injection H as <-. by left.
  - cbn [for_each] in H.
    destruct (spellout_item E values item) as [values1|e] eqn:H1;
      cbn [mbind res_bind] in H; [|done].
    destruct (IH _ _ _ H Hv) as [Hin|(item' & Hin & Hrec)].
    + unfold spellout_item in H1.
      destruct (clean_surface E _ _) as [[[surface span]|]|e] eqn:Hc;
        cbn [mbind res_bind] in H1; [| |done].
      * destruct (str_in _ _) eqn:Hs; [injection H1 as <-; by left|].
        destruct (spellout_value E surface) as [x|e] eqn:Hx;
          cbn [mbind res_bind] in H1; [|done].
        injection H1 as <-. apply elem_of_app in Hin as [Hin|Hin];
          [by left|].
        apply list_elem_of_singleton in Hin as ->.
        right. exists item. split; [by left|].
        by exists surface, span, x.
      * injection H1 as <-. by left.
    + right. exists item'. split; [by right|done].
Qed.

(** X10: the list that [extract_spellout_values] returns is in ascending
    order of the span starts, and holds exactly the records of the kept
    candidates of the spelled-number pattern and, for every comma-grouped
    number, the record of its text and span whose new surface is the number
    without its commas: every comma dropped, every other character kept, in
    order. *)
Theorem extract_spellout_values_records (text : str)
  (values : list Replacement) :
  extract_spellout_values E text = Ok values ->
  StronglySorted (fun a b => fst (old_span a) <= fst (old_span b)) values
  /\ forall v,
       v ∈ values
       <-> (exists item,
              item ∈ REG_TXT_finditer E text /\ spelled_record E item v)
           \/ (exists item,
                 item ∈ re_comma_number E text /\ comma_record item v).
Proof.
  unfold extract_spellout_values. intros H.
  destruct (for_each (spellout_item E) _ _) as [values1|e] eqn:H1;
    cbn [mbind res_bind] in H; [|done].
  injection H as <-. split; [apply sorted_by_sorted|].
  intros v. rewrite elem_of_sorted_by, elem_of_comma_loop. split.
  - intros [Hv|?]; [|by right].
    destruct (spellout_loop_sound _ _ _ _ H1 Hv) as [Hnil|?]; [|by left].
    by apply elem_of_nil in Hnil.
  - intros [(item & Hin & surface & span & x & Hc & Hs & Hx & ->)|?];
      [|by right].
    left. by eapply (spellout_loop_converts E).
Qed.

End SpelloutRecords.

Lemma extract_spellout_values_records_witness :
  let comma := {| old_surface := py "2,500"; old_span := (0, 5);
                  new_surface := py "2500" |} in
  let five := {| old_surface := py "five"; old_span := (13, 17);
                 new_surface := py "5.0" |} in
  REG_TXT_finditer Demo.env Demo.comma_text
  = [{| m_groups := [Some (py "five")]; m_span := (13, 17) |}]
  /\ extract_spellout_values Demo.env Demo.comma_text = Ok [comma; five]
  /\ StronglySorted (fun a b => fst (old_span a) <= fst (old_span b))
                    [comma; five]
  /\ comma ∈ [comma; five]
  /\ commas_removed (py "2,500") (py "2500").
Proof.
  intros comma five.
  assert (H : extract_spellout_values Demo.env Demo.comma_text
              = Ok [comma; five]) by (vm_compute; reflexivity).
  destruct (extract_spellout_values_records Demo.env _ _ H) as [Hsorted Hin].
  assert (Hrm : commas_removed (py "2,500") (py "2500")).
  { change (py "2,500") with [50; 44; 53; 48; 48]%N.
    change (py "2500") with [50; 53; 48; 48]%N.
    repeat first [apply commas_removed_comma
                 |apply commas_removed_keep; [done|]
                 |apply commas_removed_nil]. }
  split; [vm_compute; reflexivity|].
  split; [exact H|]. split; [exact Hsorted|]. split; [|exact Hrm].
  apply Hin. right.
  exists {| m_groups := [Some (py "2,500"); Some (py ",500")];
            m_span := (0, 5) |}.
  split; [vm_compute; by left|].
  split; [reflexivity|]. split; [reflexivity|]. exact Hrm.
Defined.

(** ** The spans that [parse] returns *)

Lemma get_surface_bounds shifts orig_text item surface s e :
  get_surface shifts orig_text item = (surface, (s, e)) ->
  fst (real_span shifts (m_span item)) <= s
  /\ e <= snd (real_span shifts (m_span item)).
Proof.
  unfold get_surface.
  destruct (trim_end _ _) as [r1 e1] eqn:H1.
  destruct (trim_start _ _) as [surface' s1] eqn:H2.
  intros [= <- <- <-].
  apply trim_end_spec in H1 as (k1 & _ & -> & _).
  apply trim_start_spec in H2 as (k2 & _ & -> & _).
  pose proof (len_nonneg k1). pose proof (len_nonneg k2). lia.
Qed.

Section ParseSpans.
Context (E : Env).

Lemma parse_item_spans orig_text text shifts qs bound item qs' bound' q :
  parse_item E orig_text text shifts (qs, bound) item = Ok (qs', bound') ->
  q ∈ qs' -> q ∈ qs \/ span_from E shifts item q.
Proof.
  unfold parse_item.
  destruct (match get_values E item with
            | Ok uv => Ok (Some uv)
            | Raise ValueError => Ok bound
            | Raise e => Raise e
            end) as [bound1|e]; cbn [mbind res_bind]; [|done].
  destruct (get_unit E item text) as [unit|e]; cbn [mbind res_bind]; [|done].
  destruct (get_surface shifts orig_text item) as [surface [s e]] eqn:Hs.
  apply get_surface_bounds in Hs as [Hlo Hhi].
  destruct bound1 as [[uncert values]|]; [|done].
  destruct (build_quantity E orig_text text item values unit surface (s, e)
              uncert) as [[objs|]|err] eqn:Hb; cbn [mbind res_bind]; [| |done].
  - intros [= <- <-] Hq. apply elem_of_app in Hq as [Hq|Hq]; [by left|].
    right. unfold build_quantity in Hb.
    destruct (correct E orig_text text item _) as [[st'|]|err] eqn:Hc;
      cbn [mbind res_bind] in Hb; [|done|done].
    injection Hb as <-. rewrite emit_map in Hq.
    apply list_elem_of_fmap in Hq as (v & -> & _).
    apply correct_span in Hc as (Hfst & Hsnd & _).
    unfold span_from. cbn [q_span quantity_of l_span fst snd] in *. lia.
  - intros [= <- <-] Hq. by left.
Qed.

Lemma parse_loop_spans orig_text text shifts items : forall qs bound qs' bound' q,
  for_each (parse_item E orig_text text shifts) items (qs, bound)
  = Ok (qs', bound') ->
  q ∈ qs' ->
  q ∈ qs \/ exists item, item ∈ items /\ span_from E shifts item q.
Proof.
  induction items as [|item items IH]; intros qs bound qs' bound' q H Hq.
  - injection H as <- <-. by left.
  - cbn [for_each] in H.
    destruct (parse_item E orig_text text shifts (qs, bound) item)
      as [[qs1 bound1]|e] eqn:H1; cbn [mbind res_bind] in H; [|done].
    destruct (IH _ _ _ _ _ H Hq) as [Hq1|(item' & Hin & Hsp)].
    + destruct (parse_item_spans _ _ _ _ _ _ _ _ _ H1 Hq1) as [?|Hsp];
        [by left|].
      right. exists item. split; [by left|done].
    + right. exists item'. split; [by right|done].
Qed.

(** X11: every quantity that [parse] returns has its span from a match of
    the quantity pattern in the substituted text: the span starts at or
    after the start of that match mapped back through the shift table, and
    ends at most one character after its mapped end. This holds also when a
    literal was recovered from a [ValueError], since surface and span are
    always those of the current match. *)
Theorem parse_spans_from_matches (text : str) (values : list Replacement)
  (quantities : list (Quantity E)) (q : Quantity E) :
  extract_spellout_values E (clean_text E text) = Ok values ->
  parse E text = Ok quantities ->
  q ∈ quantities ->
  exists item,
    item ∈ REG_DIM_finditer E
             (fst (substitute_values (clean_text E text) values))
    /\ span_from E (snd (substitute_values (clean_text E text) values)) item q.
Proof.
  intros Hv H Hq. unfold parse in H. rewrite Hv in H.
  cbn [mbind res_bind] in H.
  destruct (substitute_values (clean_text E text) values) as [text' shifts].
  cbn [fst snd].
  destruct (for_each _ _ _) as [[qs bound]|e] eqn:Hloop;
    cbn [mbind res_bind] in H; [|done].
  injection H as <-.
  destruct (parse_loop_spans _ _ _ _ _ _ _ _ _ Hloop Hq) as [Hnil|?];
    [|done].
  by apply elem_of_nil in Hnil.
Qed.

End ParseSpans.

Lemma parse_spans_from_matches_witness :
  exists values quantities q,
    extract_spellout_values Demo.env (clean_text Demo.env Demo.spelled_text)
    = Ok values
    /\ parse Demo.env Demo.spelled_text = Ok quantities
    /\ q ∈ quantities
    /\ exists item,
         item ∈ REG_DIM_finditer Demo.env
                  (fst (substitute_values
                          (clean_text Demo.env Demo.spelled_text) values))
         /\ span_from Demo.env
              (snd (substitute_values
                      (clean_text Demo.env Demo.spelled_text) values))
              item q.
Proof.
  eexists. eexists. eexists.
  split; [vm_compute; reflexivity|].
  split; [vm_compute; reflexivity|].
  split; [by left|].
  eapply (parse_spans_from_matches Demo.env Demo.spelled_text).
  - vm_compute. reflexivity.
  - vm_compute. reflexivity.
  - by left.
Defined.

(** ** [build_unit_name] *)

Lemma lstrip_starts_word x y : starts_word x = true -> lstrip (x ++ y) = x ++ y.
Proof.
  destruct x as [|c x]; [done|]. cbn [starts_word app lstrip].
  intros Hc. apply negb_true_iff in Hc. by rewrite Hc.
Qed.

Lemma join_space_cons x l :
  exists rest, join_space (x :: l) = x ++ rest.
Proof.
  destruct l as [|y l]; cbn [join_space]; [exists []; by rewrite app_nil_r|].
  by eexists.
Qed.

Lemma join_space_last l : forall y,
  last l = Some y -> exists pre, join_space l = pre ++ y.
Proof.
  induction l as [|x l IH]; intros y; [done|].
  destruct l as [|x' l].
  - cbn. intros [= <-]. by exists [].
  - change (last (x :: x' :: l)) with (last (x' :: l)). intros Hy.
    destruct (IH y Hy) as (pre & Hpre).
    exists (x ++ SPACE :: pre).
    change (join_space (x :: x' :: l))
      with (x ++ SPACE :: join_space (x' :: l)).
    rewrite Hpre. by rewrite <- app_assoc.
Qed.

Lemma concat_terms_join (l : list str) :
  l <> [] ->
  concat (map (fun t => t ++ [SPACE]) l) = join_space l ++ [SPACE].
Proof.
  induction l as [|x l IH]; [done|]. intros _.
  destruct l as [|x' l].
  - cbn. by rewrite app_nil_r.
  - change (join_space (x :: x' :: l))
      with (x ++ SPACE :: join_space (x' :: l)).
    cbn [map concat] in *. rewrite IH by done.
    rewrite <- !app_assoc. done.
Qed.

Lemma strip_word_edges j :
  starts_word j = true -> ends_word j = true -> strip (j ++ [SPACE]) = j.
Proof.
  intros Hs He. unfold strip.
  rewrite (lstrip_starts_word j [SPACE] Hs).
  rewrite rev_app_distr. cbn [rev app lstrip].
  change (is_space SPACE) with true. cbv iota.
  rewrite <- (app_nil_r (rev j)).
  rewrite (lstrip_starts_word (rev j) [] He).
  rewrite app_nil_r. apply rev_involutive.
Qed.

Section UnitName.
Context (E : Env).

Lemma unit_name_step_term name d :
  unit_name_step E name d = name ++ dim_term E d ++ [SPACE].
Proof.
  unfold unit_name_step, dim_term. change (py " ") with [SPACE].
  destruct (power d <? 0), (Z.abs (power d) =? 1), (Z.abs (power d) =? 2),
    (Z.abs (power d) =? 3), (3 <? Z.abs (power d));
    cbn [app]; rewrite <- ?app_assoc; try reflexivity;
    by rewrite ?app_nil_r.
Qed.

Lemma unit_name_loop_terms dims : forall name,
  foldl (unit_name_step E) name dims
  = name ++ concat (map (fun t => t ++ [SPACE]) (map (dim_term E) dims)).
Proof.
  induction dims as [|d dims IH]; intros name; cbn [foldl map concat].
  - by rewrite app_nil_r.
  - rewrite IH, unit_name_step_term. by rewrite <- !app_assoc.
Qed.

(** X12: [build_unit_name] writes one term per dimension ("per " for a
    negative power, then the base, "square" or "cubic" and the base, or the
    base "to the" power) and joins the terms with single spaces, whenever
    the first term starts and the last term ends with a character that is
    not whitespace; a dimension of power 0 contributes an empty term. *)
Theorem build_unit_name_terms (dims : list Dim) (first final : Dim) :
  head dims = Some first ->
  last dims = Some final ->
  starts_word (dim_term E first) = true ->
  ends_word (dim_term E final) = true ->
  build_unit_name E dims = join_space (map (dim_term E) dims).
Proof.
  intros Hfirst Hfinal Hs He. unfold build_unit_name.
  rewrite unit_name_loop_terms. cbn [app].
  assert (Hne : map (dim_term E) dims <> []) by (by destruct dims).
  rewrite (concat_terms_join _ Hne).
  apply strip_word_edges.
  - destruct dims as [|d dims]; [done|]. injection Hfirst as ->.
    cbn [map]. destruct (join_space_cons (dim_term E first)
                           (map (dim_term E) dims)) as (rest & ->).
    destruct (dim_term E first); [done|]. exact Hs.
  - assert (Hl : last (map (dim_term E) dims) = Some (dim_term E final)).
    { clear -Hfinal. induction dims as [|d [|d' dims] IH]; [done| |].
      - injection Hfinal as ->. done.
      - apply IH. exact Hfinal. }
    destruct (join_space_last _ _ Hl) as (pre & ->).
    unfold ends_word in *. rewrite rev_app_distr.
    destruct (rev (dim_term E final)); [done|]. exact He.
Qed.

End UnitName.

Lemma build_unit_name_terms_witness :
  let dims := [{| base := py "metre"; power := 1 |};
               {| base := py "second"; power := -2 |}] in
  build_unit_name Demo.env dims = join_space (map (dim_term Demo.env) dims)
  /\ join_space (map (dim_term Demo.env) dims)
     = py "metre per square second".
Proof.
  cbv zeta. split; [|vm_compute; reflexivity].
  eapply build_unit_name_terms.
  - reflexivity.
  - reflexivity.
  - vm_compute. reflexivity.
  - vm_compute. reflexivity.
Defined.

(** ** The order of the dimensions in [get_entity_from_dimensions] *)

Lemma str_leb_total s : forall t, str_leb s t = false -> str_leb t s = true.
Proof.
  induction s as [|c s IH]; intros [|d t]; cbn [str_leb]; try done.
  destruct (N.ltb_spec c d), (N.ltb_spec d c), (N.eqb_spec c d),
    (N.eqb_spec d c); cbn [orb andb]; try done; try lia.
  apply IH.
Qed.

Lemma str_leb_antisym s : forall t,
  str_leb s t = true -> str_leb t s = true -> s = t.
Proof.
  induction s as [|c s IH]; intros [|d t]; cbn [str_leb]; try done.
  destruct (N.ltb_spec c d), (N.ltb_spec d c), (N.eqb_spec c d),
    (N.eqb_spec d c); cbn [orb andb]; try done; try lia.
  intros H1 H2. subst. f_equal. by apply IH.
Qed.

Lemma str_leb_trans s : forall t u,
  str_leb s t = true -> str_leb t u = true -> str_leb s u = true.
Proof.
  induction s as [|c s IH]; intros [|d t] [|e u]; cbn [str_leb]; try done.
  destruct (N.ltb_spec c d), (N.ltb_spec d e), (N.ltb_spec c e),
    (N.eqb_spec c d), (N.eqb_spec d e), (N.eqb_spec c e);
    cbn [orb andb]; try done; try lia.
  apply IH.
Qed.

Section SortedByOrder.
Context {A K : Type} (leb : K -> K -> bool) (key : A -> K).
Hypothesis leb_total : forall a b, leb a b = false -> leb b a = true.
Hypothesis leb_antisym : forall a b, leb a b = true -> leb b a = true -> a = b.
Hypothesis leb_trans :
  forall a b c, leb a b = true -> leb b c = true -> leb a c = true.

Ltac order_contra Hne :=
  match goal with
  | H1 : leb ?a ?b = true, H2 : leb ?b ?a = true |- _ =>
      exfalso; first [apply Hne; by apply leb_antisym
                     |apply Hne; symmetry; by apply leb_antisym]
  | H1 : leb ?a ?b = false, H2 : leb ?b ?a = false |- _ =>
      rewrite (leb_total _ _ H1) in H2; discriminate
  | H1 : leb ?a ?b = true, H2 : leb ?b ?c = true, H3 : leb ?a ?c = false
    |- _ => rewrite (leb_trans _ _ _ H1 H2) in H3; discriminate
  end.

(** Two insertions of elements with different keys commute. *)
Lemma insert_by_swap x y l :
  key x <> key y ->
  insert_by leb key x (insert_by leb key y l)
  = insert_by leb key y (insert_by leb key x l).
Proof.
  intros Hne. induction l as [|z l IH]; cbn [insert_by].
  - destruct (leb (key x) (key y)) eqn:Hxy, (leb (key y) (key x)) eqn:Hyx;
      try reflexivity; order_contra Hne.
  - destruct (leb (key x) (key z)) eqn:Hxz, (leb (key y) (key z)) eqn:Hyz;
      cbn [insert_by];
      destruct (leb (key x) (key y)) eqn:Hxy, (leb (key y) (key x)) eqn:Hyx;
      rewrite ?Hxz, ?Hyz; try reflexivity; try (by rewrite IH);
      order_contra Hne.
Qed.

Lemma sorted_by_perm l1 l2 :
  l1 ≡ₚ l2 -> NoDup (map key l1) ->
  sorted_by leb key l1 = sorted_by leb key l2.
Proof.
  unfold sorted_by. induction 1 as [|x l l' Hp IH|x y l|l l' l'' Hp1 IH1 Hp2 IH2];
    cbn [foldr map]; intros Hnd.
  - done.
  - apply NoDup_cons in Hnd as [_ Hnd]. by rewrite IH.
  - apply NoDup_cons in Hnd as [Hy _].
    apply insert_by_swap. intros Heq. apply Hy. rewrite Heq. by left.
  - rewrite IH1 by done. apply IH2.
    assert (Hp : map key l ≡ₚ map key l') by (by apply Permutation_map).
    by rewrite <- Hp.
Qed.

End SortedByOrder.

Lemma map_res_perm {A B} (f : A -> res B) l1 l2 :
  l1 ≡ₚ l2 -> forall r1,
  map_res f l1 = Ok r1 -> exists r2, map_res f l2 = Ok r2 /\ r1 ≡ₚ r2.
Proof.
  induction 1 as [|x l l' Hp IH|x y l|l l' l'' Hp1 IH1 Hp2 IH2];
    intros r1; cbn [map_res].
  - intros [= <-]. by exists [].
  - destruct (f x) as [b|e]; cbn [mbind res_bind]; [|done].
    destruct (map_res f l) as [bs|e]; cbn [mbind res_bind]; [|done].
    intros [= <-]. destruct (IH bs eq_refl) as (bs' & -> & Hbs).
    exists (b :: bs'). split; [done|]. by constructor.
  - destruct (f y) as [b|e]; cbn [mbind res_bind]; [|done].
    destruct (f x) as [b'|e]; cbn [mbind res_bind]; [|done].
    destruct (map_res f l) as [bs|e]; cbn [mbind res_bind]; [|done].
    intros [= <-]. exists (b' :: b :: bs). split; [done|]. apply perm_swap.
  - intros H1. destruct (IH1 _ H1) as (r2 & H2 & Hp12).
    destruct (IH2 _ H2) as (r3 & H3 & Hp23).
    exists r3. split; [done|]. by etrans.
Qed.

Section EntityOrder.
Context (E : Env).

(** X13: the entity that [get_entity_from_dimensions] infers does not
    depend on the order of the dimensions, when the entities of the base
    units have pairwise different names: the sorted list, hence the key that
    is looked up or given to the classifier, is the same. For a reordered
    list the function returns the same result, except in the
    [IndexError] fallback, where both results are the entity "unknown" and
    their dimension lists, kept in the order given, are permutations of each
    other. *)
Theorem get_entity_from_dimensions_order (dims1 dims2 : list Dim) (text : str)
  (new1 : list Dim) :
  dims1 ≡ₚ dims2 ->
  map_res (entity_dimension E) dims1 = Ok new1 ->
  NoDup (map base new1) ->
  get_entity_from_dimensions E dims2 text
  = get_entity_from_dimensions E dims1 text
  \/ exists new2,
       new1 ≡ₚ new2
       /\ get_entity_from_dimensions E dims1 text = Ok (unknown_entity new1)
       /\ get_entity_from_dimensions E dims2 text = Ok (unknown_entity new2).
Proof.
  intros Hp H1 Hnd.
  destruct (map_res_perm _ _ _ Hp _ H1) as (new2 & H2 & Hnew).
  unfold get_entity_from_dimensions.
  change (fun i : Dim =>
            u ← getitem (l_NAMES E (base i));
            Ok {| base := e_name (u_entity u); power := power i |})
    with (entity_dimension E).
  rewrite H1, H2. cbn [mbind res_bind].
  rewrite <- (sorted_by_perm str_leb base str_leb_total str_leb_antisym
                str_leb_trans new1 new2 Hnew Hnd).
  destruct (if USE_CLF E then _ else _) as [ent|[]]; try (by left).
  right. by exists new2.
Qed.

End EntityOrder.

Lemma get_entity_from_dimensions_order_witness :
  let dims1 := [{| base := py "metre"; power := 1 |};
                {| base := py "second"; power := -1 |}] in
  let dims2 := [{| base := py "second"; power := -1 |};
                {| base := py "metre"; power := 1 |}] in
  exists new1,
    map_res (entity_dimension Demo.env) dims1 = Ok new1
    /\ (get_entity_from_dimensions Demo.env dims2 (py "3 m/s")
        = get_entity_from_dimensions Demo.env dims1 (py "3 m/s")
        \/ exists new2,
             new1 ≡ₚ new2
             /\ get_entity_from_dimensions Demo.env dims1 (py "3 m/s")
                = Ok (unknown_entity new1)
             /\ get_entity_from_dimensions Demo.env dims2 (py "3 m/s")
                = Ok (unknown_entity new2)).
Proof.
  cbv zeta. eexists. split; [vm_compute; reflexivity|].
  eapply get_entity_from_dimensions_order.
  - apply perm_swap.
  - vm_compute. reflexivity.
  - vm_compute. apply NoDup_cons. split; [|apply NoDup_singleton].
    intros H%list_elem_of_singleton. discriminate.
Defined.

(** ** The surface and the span of [clean_surface] *)

Lemma split_ws_aux_lower s : forall cur,
  split_ws_aux (lower s) (lower cur) = map lower (split_ws_aux s cur).
Proof.
  unfold lower.
  induction s as [|c s IH]; intros cur; cbn [map split_ws_aux].
  - destruct cur as [|d cur]; [done|]. cbn [map]. f_equal.
    symmetry. apply (map_rev lower_char (d :: cur)).
  - rewrite is_space_lower_char. destruct (is_space c).
    + destruct cur as [|d cur]; cbn [map].
      * apply (IH []).
      * f_equal; [symmetry; apply (map_rev lower_char (d :: cur))|].
        apply (IH []).
    + apply (IH (c :: cur)).
Qed.

Lemma split_ws_lower s : split_ws (lower s) = map lower (split_ws s).
Proof. apply (split_ws_aux_lower s []). Qed.

Section CleanSurfacePiece.
Context (E : Env).

(** X14: when the words of what the [while] loop leaves are separated by
    single spaces, the surface that [clean_surface] returns is a contiguous
    piece of the surface it was given (hyphens read as spaces), and the span
    it returns is the given span moved by what was cut: the start by the
    length of the part in front, the end by the length of the part behind.
    This covers the branch that drops a leading "one", "a" or "an", whose
    span arithmetic counts one separator character. *)
Theorem clean_surface_piece (surface : str) (span : Span) (s' : str)
  (sp' : Span) :
  clean_surface E surface span = Ok (Some (s', sp')) ->
  join_space
    (split_ws
       (fst (clean_loop (S (length (replace_char HYPHEN SPACE surface)))
                        (replace_char HYPHEN SPACE surface) span)))
  = fst (clean_loop (S (length (replace_char HYPHEN SPACE surface)))
                    (replace_char HYPHEN SPACE surface) span) ->
  exists pre post,
    replace_char HYPHEN SPACE surface = pre ++ s' ++ post
    /\ fst sp' = fst span + len pre
    /\ snd sp' = snd span - len post.
Proof.
  unfold clean_surface.
  destruct (clean_loop_piece (S (length (replace_char HYPHEN SPACE surface)))
              (replace_char HYPHEN SPACE surface) span)
    as (pre & post & Hsurf & Hfst & Hsnd).
  destruct (clean_loop _ _ span) as [r rspan]. cbn [fst snd] in *.
  destruct r as [|c r]; [done|].
  rewrite split_ws_lower.
  destruct (split_ws (c :: r)) as [|first ws] eqn:Hsplit;
    cbn [map index0 mbind res_bind]; [done|].
  destruct (_ && _ && _) eqn:Hcond; cbn [index0 mbind res_bind].
  - intros [= <- <-] Hjoin.
    apply andb_true_iff in Hcond as [Hcond _].
    apply andb_true_iff in Hcond as [_ Hlen].
    destruct ws as [|second ws];
      [apply Z.ltb_lt in Hlen; unfold len in Hlen; cbn in Hlen; lia|].
    assert (Htail : slice_from (first :: second :: ws) 1 = second :: ws).
    { rewrite slice_from_in_range by lia. done. }
    rewrite Htail.
    change (join_space (first :: second :: ws))
      with (first ++ SPACE :: join_space (second :: ws)) in Hjoin.
    exists (pre ++ first ++ [SPACE]), post. cbn [fst snd].
    split; [|split].
    + rewrite Hsurf, <- Hjoin. rewrite <- !app_assoc. done.
    + rewrite !len_app. change (len [SPACE]) with 1. lia.
    + done.
  - intros [= <- <-] _. by exists pre, post.
Qed.

End CleanSurfacePiece.

Lemma clean_surface_piece_witness :
  clean_surface Demo.env (py "and a five ") (0, 11)
  = Ok (Some (py "five", (6, 10)))
  /\ exists pre post,
       replace_char HYPHEN SPACE (py "and a five ")
       = pre ++ py "five" ++ post
       /\ fst (6, 10) = fst (0, 11) + len pre
       /\ snd (6, 10) = snd (0, 11) - len post.
Proof.
  assert (H : clean_surface Demo.env (py "and a five ") (0, 11)
              = Ok (Some (py "five", (6, 10))))
    by (vm_compute; reflexivity).
  split; [exact H|].
  refine (clean_surface_piece Demo.env _ _ _ _ H _).
  vm_compute. reflexivity.
Defined.
